(** * urbansprawl: grid-feature aggregation and land-use-mix engine

    A shallow embedding of the parts of [urbansprawl] that its specification
    makes claims about, and of the code around them:

    - [sprawl/landusemix.py]: [metric_phi_entropy], [calculate_kde],
      [compute_grid_landusemix];
    - [population/urban_features.py]: the per-cell feature aggregation of
      [compute_full_urban_features] and its dispersion cap, the population
      shares of [get_training_testing_data];
    - [population/utils.py]: [get_aggregated_squares] (conservative mode),
      [get_population_df_filled_empty_squares],
      [population_downscaling_validation];
    - [geometries.py]: [expand_grid_point];
    - [osm/utils.py]: the list columns of [store_geodataframe] and
      [load_geodataframe].

    Conventions.  Where logarithms and exponentials are needed a float is a
    double given by its real value, NaN or an infinity: the result of an
    operation overflows to an infinity and underflows to zero as a double
    does, while its rounding to 53 bits inside the range is not modelled.
    Where the arithmetic is field arithmetic only (areas, ratios, sums of
    surfaces) a float is an exact rational.  A raised Python exception is an
    explicit [Raise] outcome. *)

From Stdlib Require Import Reals Psatz List Bool ZArith QArith Qabs String Ascii.
From Stdlib Require Import DecimalString DecimalFacts DecimalPos DecimalZ.
From Stdlib Require Import NArith Permutation Qround.
Import ListNotations.

(** ** Outcomes of Python code: a value or a raised exception *)

(** [EmptyFrameError] stands for the exception with which osmnx's
    [project_gdf] refuses an empty frame: an [AssertionError] in the versions
    that assert [len(gdf) > 0], a [ValueError] in the later ones. *)
Inductive exn : Set :=
| ValueError
| IndexError
| KeyError
| ZeroDivisionError
| EmptyFrameError.

Inductive result (A : Type) : Type :=
| Ret (a : A)
| Raise (e : exn).

Arguments Ret {A} a.
Arguments Raise {A} e.

Definition bind {A B : Type} (m : result A) (k : A -> result B) : result B :=
  match m with
  | Ret a => k a
  | Raise e => Raise e
  end.

Declare Scope py_scope.
Delimit Scope py_scope with py.
Notation "x <- m ;; k" := (bind m (fun x => k))
  (at level 61, m at next level, right associativity) : py_scope.

(** [for x in xs: ...] collecting one result per element, stopping at the
    first exception. *)
Fixpoint mapM {A B : Type} (f : A -> result B) (xs : list A) : result (list B) :=
  match xs with
  | [] => Ret []
  | x :: xs' =>
      (y <- f x ;; ys <- mapM f xs' ;; Ret (y :: ys))%py
  end.

(** ** [sprawl/landusemix.py]: the entropy index *)

Module Landusemix.

Local Open Scope R_scope.
Local Open Scope py_scope.

(** *** Floats *)

(** A double: NaN, an infinity or a number. *)
Inductive npfloat : Type :=
| NaN
| NInf
| PInf
| Fin (r : R).

(** A Python float and an entry of a NumPy float array are the same
    doubles; the two differ in what division and logarithm do outside their
    domain (Python raises, NumPy returns an infinity or NaN). *)
Definition pyfloat : Type := npfloat.

(** The range of the doubles: the largest number, the least magnitude that
    rounds to an infinity ([2^1024 - 2^970]), the least positive number and
    the greatest magnitude that rounds to zero (half of it). *)
Definition float_max : R := (2 - / 2 ^ 52) * 2 ^ 1023.
Definition overflow_threshold : R := (2 - / 2 ^ 53) * 2 ^ 1023.
Definition min_subnormal : R := / 2 ^ 1074.
Definition underflow_threshold : R := / 2 ^ 1075.

(** The number is the value of a double, as far as its magnitude goes. *)
Definition in_range (r : R) : Prop :=
  r = 0 \/ min_subnormal <= Rabs r <= float_max.

(** The least positive normal double, and the positive normal doubles:
    multiplying one by a power of two is exact as long as the product is
    normal too. *)
Definition min_normal : R := / 2 ^ 1022.

Definition normal (r : R) : Prop := min_normal <= r <= float_max.

(** The result of an operation whose exact value is [r]: an infinity when
    [r] overflows, zero when it underflows, the nearest end of the range
    when it lies just outside, [r] itself otherwise (the rounding of [r] to
    53 bits inside the range is not modelled; the sign of a zero is not
    modelled either). *)
Definition clamp_pos (r : R) : R :=
  if Rlt_dec float_max r then float_max
  else if Rle_dec r underflow_threshold then 0
  else if Rlt_dec r min_subnormal then min_subnormal
  else r.

Definition clamp (r : R) : R :=
  if Rlt_dec r 0 then - clamp_pos (- r) else clamp_pos r.

Definition round_range (r : R) : npfloat :=
  if Rle_dec overflow_threshold r then PInf
  else if Rle_dec r (- overflow_threshold) then NInf
  else Fin (clamp r).

(** [a < b], [a == b]: every comparison with NaN is [False]. *)
Definition py_lt (a b : pyfloat) : bool :=
  match a, b with
  | NaN, _ | _, NaN => false
  | Fin x, Fin y => if Rlt_dec x y then true else false
  | NInf, (Fin _ | PInf) => true
  | Fin _, PInf => true
  | _, _ => false
  end.

Definition py_eq (a b : pyfloat) : bool :=
  match a, b with
  | Fin x, Fin y => if Req_dec_T x y then true else false
  | PInf, PInf | NInf, NInf => true
  | _, _ => false
  end.

Definition py_add (a b : pyfloat) : pyfloat :=
  match a, b with
  | NaN, _ | _, NaN => NaN
  | Fin x, Fin y => round_range (x + y)
  | PInf, NInf | NInf, PInf => NaN
  | PInf, _ | _, PInf => PInf
  | NInf, _ | _, NInf => NInf
  end.

(** An infinity of the given sign times a number. *)
Definition inf_times (positive : bool) (x : R) : pyfloat :=
  if Rlt_dec 0 x then (if positive then PInf else NInf)
  else if Rlt_dec x 0 then (if positive then NInf else PInf)
  else NaN.

Definition py_mul (a b : pyfloat) : pyfloat :=
  match a, b with
  | NaN, _ | _, NaN => NaN
  | Fin x, Fin y => round_range (x * y)
  | Fin x, PInf | PInf, Fin x => inf_times true x
  | Fin x, NInf | NInf, Fin x => inf_times false x
  | PInf, PInf | NInf, NInf => PInf
  | PInf, NInf | NInf, PInf => NInf
  end.

Definition py_neg (a : pyfloat) : pyfloat :=
  match a with
  | NaN => NaN
  | PInf => NInf
  | NInf => PInf
  | Fin x => Fin (- x)
  end.

(** [a / b] on NumPy floats does not raise: a division by zero gives an
    infinity or NaN.  (A zero divisor counts as [+0.0].) *)
Definition np_div (a b : npfloat) : npfloat :=
  match a, b with
  | NaN, _ | _, NaN => NaN
  | Fin x, Fin y =>
      if Req_dec_T y 0 then
        (if Rlt_dec 0 x then PInf else if Rlt_dec x 0 then NInf else NaN)
      else round_range (x / y)
  | Fin _, (PInf | NInf) => Fin 0
  | (PInf | NInf), (PInf | NInf) => NaN
  | PInf, Fin y => if Rlt_dec y 0 then NInf else PInf
  | NInf, Fin y => if Rlt_dec y 0 then PInf else NInf
  end.

(** [a / b] on Python floats: a zero divisor raises [ZeroDivisionError],
    whatever the dividend. *)
Definition py_div (a b : pyfloat) : result pyfloat :=
  match b with
  | Fin y => if Req_dec_T y 0 then Raise ZeroDivisionError else Ret (np_div a b)
  | _ => Ret (np_div a b)
  end.

(** [math.log]: a domain error on zero, on the negative numbers and on
    [-inf]; NaN on NaN. *)
Definition math_log (a : pyfloat) : result pyfloat :=
  match a with
  | Fin x => if Rlt_dec 0 x then Ret (round_range (ln x)) else Raise ValueError
  | PInf => Ret PInf
  | NInf => Raise ValueError
  | NaN => Ret NaN
  end.

(** [metric_phi_entropy(x, y)]. *)
Definition metric_phi_entropy (x y : pyfloat) : result pyfloat :=
  (* Undefined for negative values *)
  if py_lt x (Fin 0) || py_lt y (Fin 0) then Ret NaN
  (* Entropy Index not defined for any input value equal to zero *)
  else if py_eq x (Fin 0) || py_eq y (Fin 0) then Ret (Fin 0)
  else
    x_ <- py_div x (py_add x y) ;;
    y_ <- py_div y (py_add x y) ;;
    lx <- math_log x_ ;;
    ly <- math_log y_ ;;
    l2 <- math_log (Fin 2) ;;
    py_div (py_neg (py_add (py_mul x_ lx) (py_mul y_ ly))) l2.

Definition _land_use_mix := metric_phi_entropy.

(** *** Kernel density estimation *)

Definition point : Type := (R * R)%type.

(** [np.log], [np.exp] and [np.maximum] on the entries of an array. *)
Definition np_log (a : npfloat) : npfloat :=
  match a with
  | Fin x => if Rlt_dec 0 x then round_range (ln x)
             else if Req_dec_T x 0 then NInf else NaN
  | PInf => PInf
  | NInf => NaN
  | NaN => NaN
  end.

Definition np_exp (a : npfloat) : npfloat :=
  match a with
  | Fin x => round_range (exp x)
  | PInf => PInf
  | NInf => Fin 0
  | NaN => NaN
  end.

Definition np_maximum (a b : npfloat) : npfloat :=
  match a, b with
  | NaN, _ | _, NaN => NaN
  | PInf, _ | _, PInf => PInf
  | NInf, c | c, NInf => c
  | Fin x, Fin y => Fin (Rmax x y)
  end.

(** [a.max()]: NaN as soon as one entry is NaN; an empty array has no
    maximum and raises [ValueError]. *)
Definition np_max (a : list npfloat) : result npfloat :=
  match a with
  | [] => Raise ValueError
  | x :: a' => Ret (fold_left np_maximum a' x)
  end.

(** scikit-learn's [KernelDensity(kernel="gaussian", bandwidth=h)] is an
    external library, modelled by its documented behaviour on points of the
    plane: [fit] rejects a non-positive bandwidth and an empty sample with
    [ValueError]; [score_samples] rejects an empty query and returns the
    logarithm of the density
    [(1/N) * sum_i exp (-|y - x_i|^2 / (2 h^2)) / (2 PI h^2)], which it
    computes on the logarithms: the score of a far point is a large
    negative number, not [-inf]. *)
Definition sqdist (p q : point) : R :=
  (fst p - fst q) * (fst p - fst q) + (snd p - snd q) * (snd p - snd q).

Definition gaussian_sum (h : R) (X : list point) (y : point) : R :=
  fold_right (fun x acc => exp (- sqdist y x / (2 * h * h)) + acc) 0 X.

Definition gaussian_density (h : R) (X : list point) (y : point) : R :=
  gaussian_sum h X y / (INR (List.length X) * (2 * PI * h * h)).

Record KernelDensity : Type := { kd_bandwidth : R; kd_sample : list point }.

Definition KernelDensity_fit (bandwidth : R) (X : list point) : result KernelDensity :=
  if Rlt_dec 0 bandwidth then
    match X with
    | [] => Raise ValueError
    | _ => Ret {| kd_bandwidth := bandwidth; kd_sample := X |}
    end
  else Raise ValueError.

Definition score_samples (kde : KernelDensity) (Y : list point) : result (list R) :=
  match Y with
  | [] => Raise ValueError
  | _ => Ret (map (fun y => ln (gaussian_density (kd_bandwidth kde) (kd_sample kde) y)) Y)
  end.

(** The weight array of the weighted estimation:
    [np.concatenate([X_weights.values, np.repeat([pois_weight], len(X_p))])],
    through [np.log] when [log_weight] is set. *)
Definition weight_array (w : list R) (n_pois : nat) (pois_weight : R)
    (log_weight : bool) : list npfloat :=
  (* Building's weight + POIs weight *)
  let X_W := map Fin w ++ repeat (Fin pois_weight) n_pois in
  (* Apply logarithm *)
  if log_weight then map np_log X_W else X_W.

(** [X_p]: the points of interest, none when [df_osm_pois] is [None]. *)
Definition X_p_of (df_osm_pois : option (list point)) : list point :=
  match df_osm_pois with
  | None => []
  | Some pois => pois
  end.

Section CalculateKde.

(** [WeightedKernelDensityEstimation(X, X_W, bandwidth, Y)] is imported from
    [sprawl/utils.py], which is not part of the sources at hand: it is a
    parameter of the model. *)
Variable WeightedKernelDensityEstimation :
  list point -> list npfloat -> R -> list point -> result (list npfloat).

(** [pd.Series(PDF / PDF.max())]. *)
Definition normalise_by_max (PDF : list npfloat) : result (list npfloat) :=
  m <- np_max PDF ;;
  Ret (map (fun p => np_div p m) PDF).

(** [calculate_kde(points, df_osm_built, df_osm_pois, bandwidth, X_weights,
    pois_weight, log_weight)].  [df_osm_built] and [df_osm_pois] are given
    by their [geometry.centroid] columns, [points] by its coordinates. *)
Definition calculate_kde (points : list point) (df_osm_built : list point)
    (df_osm_pois : option (list point)) (bandwidth : R)
    (X_weights : option (list R)) (pois_weight : R) (log_weight : bool)
  : result (list npfloat) :=
  (* X_b : Buildings array *)
  let X_b := df_osm_built in
  (* X_p : Points array *)
  let X_p := X_p_of df_osm_pois in
  (* X : Full array *)
  let X := X_b ++ X_p in
  (* Points where the probability density function will be evaluated *)
  let Y := points in
  match X_weights with
  | Some w => (* Weighted Kernel Density Estimation *)
      let X_W := weight_array w (List.length X_p) pois_weight log_weight in
      PDF <- WeightedKernelDensityEstimation X X_W bandwidth Y ;;
      normalise_by_max PDF
  | None => (* Kernel Density Estimation *)
      kde <- KernelDensity_fit bandwidth X ;;
      (* Sklearn returns the results in the form log(density) *)
      score <- score_samples kde Y ;;
      let PDF := map (fun s => np_exp (Fin s)) score in
      normalise_by_max PDF
  end.

End CalculateKde.

End Landusemix.

(** ** Planar geometry: the part of Shapely the aggregation relies on *)

Module Geometry.

Local Open Scope Q_scope.

Definition coord : Type := (Q * Q)%type.

(** Twice the signed area of a ring of vertices (the ring closes itself; a
    repeated closing vertex adds nothing). *)
Fixpoint shoelace_from (first : coord) (ring : list coord) : Q :=
  match ring with
  | [] => 0
  | p :: rest =>
      match rest with
      | [] => fst p * snd first - fst first * snd p
      | q :: _ => (fst p * snd q - fst q * snd p) + shoelace_from first rest
      end
  end.

Definition shoelace (ring : list coord) : Q :=
  match ring with
  | [] => 0
  | first :: _ => shoelace_from first ring
  end.

(** The operations of [shapely] used by [compute_full_urban_features], with
    the one law the code relies on: the area of [Polygon(ring)] is the
    absolute shoelace sum of its ring, halved. *)
Class Shapely (geom : Type) : Type := {
  Polygon : list coord -> geom;
  area : geom -> Q;
  intersection : geom -> geom -> geom;
  intersects : geom -> geom -> bool;
  area_Polygon : forall ring, area (Polygon ring) == Qabs (shoelace ring) / 2
}.

(** *** A kernel that computes: rings clipped by convex rings

    A geometry is its ring of vertices; [intersection subject clip] clips the
    subject by each edge of [clip] in turn (Sutherland-Hodgman), which is the
    intersection whenever [clip] is convex, as grid cells are. *)

Definition cross (a b p : coord) : Q :=
  (fst b - fst a) * (snd p - snd a) - (snd b - snd a) * (fst p - fst a).

Definition inside (ccw : bool) (a b p : coord) : bool :=
  if ccw then Qle_bool 0 (cross a b p) else Qle_bool (cross a b p) 0.

(** Where the segment [p q] meets the line through [a] and [b]. *)
Definition crossing (a b p q : coord) : coord :=
  let dp := cross a b p in
  let dq := cross a b q in
  let t := dp / (dp - dq) in
  (Qred (fst p + t * (fst q - fst p)), Qred (snd p + t * (snd q - snd p))).

Fixpoint clip_walk (ccw : bool) (a b prev : coord) (subject : list coord)
  : list coord :=
  match subject with
  | [] => []
  | cur :: rest =>
      (if inside ccw a b cur then
         if inside ccw a b prev then [cur] else [crossing a b prev cur; cur]
       else
         if inside ccw a b prev then [crossing a b prev cur] else [])
      ++ clip_walk ccw a b cur rest
  end.

Definition clip_edge (ccw : bool) (edge : coord * coord) (subject : list coord)
  : list coord :=
  match subject with
  | [] => []
  | first :: _ => clip_walk ccw (fst edge) (snd edge) (last subject first) subject
  end.

Definition ring_edges (ring : list coord) : list (coord * coord) :=
  match ring with
  | [] => []
  | first :: rest => combine ring (rest ++ [first])
  end.

Definition clip (subject clipper : list coord) : list coord :=
  let ccw := Qle_bool 0 (shoelace clipper) in
  fold_left (fun s edge => clip_edge ccw edge s) (ring_edges clipper) subject.

#[export] Instance ring_kernel : Shapely (list coord) := {
  Polygon := fun ring => ring;
  area := fun ring => Qabs (shoelace ring) / 2;
  intersection := clip;
  intersects := fun a b => match clip b a with [] => false | _ => true end;
  area_Polygon := fun ring => Qeq_refl _
}.

End Geometry.

(** ** [population/urban_features.py]: per-cell urban features *)

Module UrbanFeatures.

Import Geometry.
Local Open Scope string_scope.
Local Open Scope list_scope.
Local Open Scope Q_scope.
Local Open Scope py_scope.

(** [a / b] on Python floats. *)
Definition py_div (a b : Q) : result Q :=
  if Qeq_bool b 0 then Raise ZeroDivisionError else Ret (a / b).

(** A Python [dict] from land-use names to square metres. *)
Definition dict : Type := list (string * Q).

Fixpoint dict_get (d : dict) (key : string) : result Q :=
  match d with
  | [] => Raise KeyError
  | (k, v) :: d' => if String.eqb k key then Ret v else dict_get d' key
  end.

Inductive Classification : Set :=
| residential
| activity
| mixed.

Definition is_residential (c : option Classification) : bool :=
  match c with Some residential => true | _ => false end.
Definition is_activity (c : option Classification) : bool :=
  match c with Some activity => true | _ => false end.
Definition is_mixed (c : option Classification) : bool :=
  match c with Some mixed => true | _ => false end.

(** [Series.sum()]. *)
Definition Qsum (l : list Q) : Q := fold_left Qplus l 0.

(** [np.finfo(float).eps]. *)
Definition eps : Q := 1 # (2 ^ 52).

(** The columns computed per (cell, building) row and summed per cell. *)
Record features : Type := {
  m2_total_residential : Q;
  m2_total_activity : Q;
  m2_footprint_residential : Q;
  m2_footprint_activity : Q;
  m2_footprint_mixed : Q;
  num_built_activity : Q;
  num_built_residential : Q;
  num_built_mixed : Q;
  num_levels : Q;
  num_buildings : Q;
  built_up_m2 : Q
}.

(** The columns of a cell after aggregation: [built_up_m2] has been replaced
    by [built_up_relation]. *)
Record cell_features : Type := {
  sums : features;
  built_up_relation : Q
}.

Section Aggregation.

Context {geom : Type} {shapely : Shapely geom}.

Record Building : Type := {
  b_geometry : geom;
  landuses_m2 : dict;
  building_levels : Q;
  classification : Classification
}.

Record GridCell : Type := {
  geometry : geom;
  pop_count : Q
}.

(** A row of [gpd.sjoin(pop_features, df_osm_built, op="intersects",
    how="left")] once the NaN of the cells without building have been
    replaced; [classification] stays NaN on those rows. *)
Record joined_row : Type := {
  row_geometry : geom;
  geom_building : geom;
  row_landuses_m2 : dict;
  row_building_levels : Q;
  row_classification : option Classification
}.

Definition min_polygon : geom := Polygon [(0, 0); (0, eps); (eps, eps)].

Definition row_of_building (cell : GridCell) (b : Building) : joined_row :=
  {| row_geometry := geometry cell;
     geom_building := b_geometry b;
     row_landuses_m2 := landuses_m2 b;
     row_building_levels := building_levels b;
     row_classification := Some (classification b) |}.

(** Replace NaN for urban features calculation. *)
Definition row_of_null (cell : GridCell) : joined_row :=
  {| row_geometry := geometry cell;
     geom_building := min_polygon;
     row_landuses_m2 := [("residential", 0); ("activity", 0)];
     row_building_levels := 0;
     row_classification := None |}.

(** The rows of one cell: one per intersecting building, or the single
    replaced row when no building intersects. *)
Definition cell_rows (cell : GridCell) (df_osm_built : list Building)
  : list joined_row :=
  match filter (fun b => intersects (geometry cell) (b_geometry b)) df_osm_built with
  | [] => [row_of_null cell]
  | bs => map (row_of_building cell) bs
  end.

(** Percentage of building presence within square. *)
Definition building_ratio (x : joined_row) : result Q :=
  py_div (area (intersection (geom_building x) (row_geometry x)))
         (area (geom_building x)).

(** The pre-calculated columns of one row.  (The code fills one column
    after the other over the whole frame; row by row, the values are the
    same, and an exception is raised in the same cases.) *)
Definition row_features (x : joined_row) : result features :=
  ratio <- building_ratio x ;;
  res <- dict_get (row_landuses_m2 x) "residential" ;;
  act <- dict_get (row_landuses_m2 x) "activity" ;;
  let footprint := ratio * area (geom_building x) in
  let cls := row_classification x in
  Ret {| m2_total_residential := ratio * res;
         m2_total_activity := ratio * act;
         m2_footprint_residential := if is_residential cls then footprint else 0;
         m2_footprint_activity := if is_activity cls then footprint else 0;
         m2_footprint_mixed := if is_mixed cls then footprint else 0;
         num_built_activity := if is_activity cls then ratio else 0;
         num_built_residential := if is_residential cls then ratio else 0;
         num_built_mixed := if is_mixed cls then ratio else 0;
         num_levels := ratio * row_building_levels x;
         num_buildings := ratio;
         built_up_m2 := area (geom_building x) * ratio |}.

(** The value of [row_features] on the row of building [b] in cell [c],
    for a building whose area is not zero and whose [landuses_m2] holds
    [res] and [act]. *)
Definition apportioned (b : Building) (res act : Q) (c : GridCell) : features :=
  let ratio := area (intersection (b_geometry b) (geometry c)) / area (b_geometry b) in
  let footprint := ratio * area (b_geometry b) in
  let cls := Some (classification b) in
  {| m2_total_residential := ratio * res;
     m2_total_activity := ratio * act;
     m2_footprint_residential := if is_residential cls then footprint else 0;
     m2_footprint_activity := if is_activity cls then footprint else 0;
     m2_footprint_mixed := if is_mixed cls then footprint else 0;
     num_built_activity := if is_activity cls then ratio else 0;
     num_built_residential := if is_residential cls then ratio else 0;
     num_built_mixed := if is_mixed cls then ratio else 0;
     num_levels := ratio * building_levels b;
     num_buildings := ratio;
     built_up_m2 := area (b_geometry b) * ratio |}.

(** [groupby(index).agg("sum")] on the rows of one cell. *)
Definition sum_features (rows : list features) : features :=
  {| m2_total_residential := Qsum (map m2_total_residential rows);
     m2_total_activity := Qsum (map m2_total_activity rows);
     m2_footprint_residential := Qsum (map m2_footprint_residential rows);
     m2_footprint_activity := Qsum (map m2_footprint_activity rows);
     m2_footprint_mixed := Qsum (map m2_footprint_mixed rows);
     num_built_activity := Qsum (map num_built_activity rows);
     num_built_residential := Qsum (map num_built_residential rows);
     num_built_mixed := Qsum (map num_built_mixed rows);
     num_levels := Qsum (map num_levels rows);
     num_buildings := Qsum (map num_buildings rows);
     built_up_m2 := Qsum (map built_up_m2 rows) |}.

(** The urban features of one cell, up to [built_up_relation].  (On a cell
    of area zero the last division raises or gives a non-finite value,
    depending on how pandas hands the row over; it is modelled as the
    exception and nothing below relies on that case.) *)
Definition urban_features (cell : GridCell) (df_osm_built : list Building)
  : result cell_features :=
  rows <- mapM row_features (cell_rows cell df_osm_built) ;;
  let agg := sum_features rows in
  (* Calculate built up relation (relative to the area of the grid-cell) *)
  rel <- py_div (built_up_m2 agg) (area (geometry cell)) ;;
  Ret {| sums := agg; built_up_relation := rel |}.

(** The urban-features stage of [compute_full_urban_features]: one row of
    features per grid cell. *)
Definition compute_full_urban_features (pop_features : list GridCell)
    (df_osm_built : list Building) : result (list cell_features) :=
  mapM (fun cell => urban_features cell df_osm_built) pop_features.

End Aggregation.

(** *** The dispersion cap *)

(** [kwargs.get("max_dispersion")] is [None] when the key is absent; a
    dispersion value is a number or NaN ([None]). *)
Definition truthy (v : option Q) : bool :=
  match v with
  | Some c => negb (Qeq_bool c 0)
  | None => false
  end.

Definition gt (d : option Q) (c : Q) : bool :=
  match d with
  | Some v => negb (Qle_bool v c)
  | None => false
  end.

(** Set max bounds for dispersion values. *)
Definition cap_dispersion (max_dispersion : option Q) (dispersion : list (option Q))
  : list (option Q) :=
  if truthy max_dispersion then
    match max_dispersion with
    | Some c => map (fun d => if gt d c then Some c else d) dispersion
    | None => dispersion
    end
  else dispersion.

(** *** Sample geometries, for the kernel that computes *)

Definition square_ring (x y side : Q) : list coord :=
  [(x, y); (x, y + side); (x + side, y + side); (x + side, y); (x, y)].

Definition sample_cell (x y : Q) : GridCell (geom := list coord) :=
  {| geometry := square_ring x y 200; pop_count := 10 |}.

(** A two-storey house of 100 m x 100 m with south-west corner [(x, y)]. *)
Definition house_at (x y : Q) : Building (geom := list coord) :=
  {| b_geometry := square_ring x y 100;
     landuses_m2 := [("residential", 100 * 100 * 2); ("activity", 0)];
     building_levels := 2;
     classification := residential |}.

(** A house lying across the border of the cells at (0, 0) and (200, 0). *)
Definition sample_house : Building (geom := list coord) := house_at 150 50.

End UrbanFeatures.

(** ** [population/utils.py]: block aggregation and empty-cell backfill *)

Module PopulationUtils.

Local Open Scope string_scope.
Local Open Scope list_scope.
Local Open Scope Z_scope.
Local Open Scope py_scope.

(** *** Python string operations used on [idINSPIRE] *)

(** [s.split(sep)] for a one-character separator. *)
Fixpoint split (sep : ascii) (s : string) : list string :=
  match s with
  | EmptyString => [EmptyString]
  | String c s' =>
      if Ascii.eqb c sep then EmptyString :: split sep s'
      else match split sep s' with
           | piece :: rest => String c piece :: rest
           | [] => [String c EmptyString]
           end
  end.

(** Whitespace that [int()] strips (a character is a code point below
    256): codes 9-13 and the space, and the two spaces beyond ASCII, U+0085
    and U+00A0, which [int()] first turns into spaces.  The separators of
    codes 28-31 are not stripped. *)
Definition is_space (c : ascii) : bool :=
  let n := nat_of_ascii c in
  ((9 <=? n) && (n <=? 13) || (n =? 32) || (n =? 133) || (n =? 160))%nat.

Fixpoint lstrip (s : string) : string :=
  match s with
  | String c s' => if is_space c then lstrip s' else s
  | EmptyString => EmptyString
  end.

Fixpoint rev_string (acc s : string) : string :=
  match s with
  | EmptyString => acc
  | String c s' => rev_string (String c acc) s'
  end.

Definition strip (s : string) : string :=
  rev_string "" (lstrip (rev_string "" (lstrip s))).

Definition digit_value (c : ascii) : option Z :=
  let n := nat_of_ascii c in
  if ((48 <=? n) && (n <=? 57))%nat then Some (Z.of_nat n - 48) else None.

(** Digits, single underscores allowed between two digits. *)
Fixpoint int_digits (s : string) (acc : Z) (after_digit : bool) : option Z :=
  match s with
  | EmptyString => if after_digit then Some acc else None
  | String c s' =>
      match digit_value c with
      | Some d => int_digits s' (10 * acc + d) true
      | None =>
          if Ascii.eqb c "_" && after_digit then int_digits s' acc false
          else None
      end
  end.

(** [int(s)]: surrounding whitespace, an optional sign, decimal digits;
    [ValueError] otherwise. *)
Definition int (s : string) : result Z :=
  let body := match strip s with
              | String "-" s' => option_map Z.opp (int_digits s' 0 false)
              | String "+" s' => int_digits s' 0 false
              | s' => int_digits s' 0 false
              end in
  match body with
  | Some z => Ret z
  | None => Raise ValueError
  end.

(** [str(n)] for an integer. *)
Definition str (z : Z) : string := NilEmpty.string_of_int (Z.to_int z).

(** [Series.str.contains(pat)] for a pattern without regular-expression
    metacharacters (here: [N], [E], digits and a minus sign): [pat] occurs
    somewhere in [s]. *)
Fixpoint str_contains (pat s : string) : bool :=
  String.prefix pat s ||
  match s with
  | String _ s' => str_contains pat s'
  | EmptyString => false
  end.

(** *** Data *)

(** A grid square in EPSG:3035 coordinates (metres).  The docstrings assume
    200 m squares; squares are kept as their bounding coordinates. *)
Record box : Set := { xmin : Z; ymin : Z; xmax : Z; ymax : Z }.

Definition box_is_degenerate (b : box) : bool :=
  (xmax b - xmin b =? 0) || (ymax b - ymin b =? 0).

(** [a.intersects(b)] on squares: they share at least one point. *)
Definition box_intersects (a b : box) : bool :=
  (xmin a <=? xmax b) && (xmin b <=? xmax a) &&
  (ymin a <=? ymax b) && (ymin b <=? ymax a).

Definition box_of_point (E N : Z) : box :=
  {| xmin := E; ymin := N; xmax := E; ymax := N |}.

(** One row of the INSEE population frame. *)
Record insee_row : Set := {
  index : Z;
  idINSPIRE : string;
  pop_count : Q;
  geometry : box
}.

(** [Series.min()] and [Series.max()] skip NaN entries; the result is NaN
    when nothing is left. *)
Definition skipna_fold (f : Z -> Z -> Z) (col : list (option Z)) : option Z :=
  fold_left (fun acc v =>
               match acc, v with
               | Some a, Some b => Some (f a b)
               | None, w => w
               | a, None => a
               end) col None.

Definition col_min := skipna_fold Z.min.
Definition col_max := skipna_fold Z.max.

(** [np.arange(start, stop, step)] for a positive step: the half-open range
    [start, start + step, ...] below [stop]. *)
Definition arange (start stop : Z) (step : positive) : list Z :=
  let n := Z.to_nat ((stop - start + Z.pos step - 1) / Z.pos step) in
  map (fun i => start + Z.of_nat i * Z.pos step) (seq 0 n).

(** [zip(xv.ravel(), yv.ravel())] after [np.meshgrid(xs, ys)]: the easting
    runs inside the northing. *)
Definition meshgrid_points (xs ys : list Z) : list (Z * Z) :=
  flat_map (fun y => map (fun x => (x, y)) xs) ys.

(** The mesh of centroids over the range of the parsed coordinates;
    [np.arange] cannot compute a length from NaN bounds. *)
Definition centroid_mesh (coordinates : list (option Z * option Z))
    (coords_offset : Z) (step : positive) : result (list (Z * Z)) :=
  let north := map fst coordinates in
  let east := map snd coordinates in
  match col_min north, col_max north, col_min east, col_max east with
  | Some n_min, Some n_max, Some e_min, Some e_max =>
      let north_min := n_min + coords_offset in
      let north_max := n_max + coords_offset in
      let east_min := e_min + coords_offset in
      let east_max := e_max + coords_offset in
      Ret (meshgrid_points (arange east_min east_max step)
                           (arange north_min north_max step))
  | _, _, _, _ => Raise ValueError
  end.

(** The two statements shared by both inner functions
    [get_northing_easting]:
    [north, east = x.idINSPIRE.split("N")[1].split("E")] and the two
    [int(...)] conversions. *)
Definition northing_easting (id : string) : result (Z * Z) :=
  match split "N" id with
  | _ :: second :: _ =>
      match split "E" second with
      | [north; east] =>
          n <- int north ;;
          e <- int east ;;
          Ret (n, e)
      | _ => Raise ValueError
      end
  | _ => Raise IndexError
  end.

(** *** [get_aggregated_squares] *)

Module AggregatedSquares.

(** [get_northing_easting]: the parse is wrapped in
    [try ... except (IndexError, ValueError)], both coordinates become NaN
    on failure. *)
Definition get_northing_easting (x : insee_row) : option Z * option Z :=
  match northing_easting (idINSPIRE x) with
  | Ret (north, east) => (Some north, Some east)
  | Raise IndexError | Raise ValueError => (None, None)
  | Raise _ => (None, None)
  end.

(** A row of the result. *)
Record square : Set := {
  square_geometry : list box;
  square_pop_count : Q;
  indices : option (list (option Z))
}.

(** [df_insee.cx[x - o : x + o, y - o : y + o]]: the rows whose geometry
    meets the window.  The frame is taken in EPSG:3035, as its callers pass
    it, so that the projected centroid is the point [NE] itself. *)
Definition cx (df_insee : list insee_row) (NE : Z * Z) (offset_index : Z)
  : list insee_row :=
  let window := {| xmin := fst NE - offset_index; ymin := snd NE - offset_index;
                   xmax := fst NE + offset_index; ymax := snd NE + offset_index |} in
  filter (fun r => box_intersects (geometry r) window) df_insee.

Definition sum_pop_count (rows : list insee_row) : Q :=
  fold_left Qplus (map pop_count rows) 0%Q.

Definition index_square (NE : Z * Z) (df_insee : list insee_row)
    (offset_index : Z) : square :=
  let squares := cx df_insee NE offset_index in
  {| square_geometry := map geometry squares;
     square_pop_count := sum_pop_count squares;
     indices := None |}.

Definition offsets : list Z := [-400; -200; 0; 200; 400].

Definition coords_match (NE : Z * Z) (y_diff x_diff : Z) : string :=
  (* - 100 on each coordinate: south-west point of box *)
  ("N" ++ str (snd NE + y_diff - 100) ++ "E" ++ str (fst NE + x_diff - 100))%string.

(** One pass of the inner loop body: the index values appended for one
    relative offset. *)
Definition slot (NE : Z * Z) (df_insee : list insee_row) (y_diff x_diff : Z)
  : list (option Z) :=
  let values :=
    map index
      (filter (fun r => str_contains (coords_match NE y_diff x_diff) (idINSPIRE r))
              df_insee) in
  match values with
  | [] => [None]
  | _ => map Some values (* Concatenate index value *)
  end.

Definition index_square_conservative (NE : Z * Z) (df_insee : list insee_row)
    (offset_index : Z) : square :=
  let squares := cx df_insee NE offset_index in
  {| square_geometry := map geometry squares;
     square_pop_count := sum_pop_count squares;
     indices :=
       Some (flat_map (fun y_diff =>
                         (* First iterate over Easting *)
                         flat_map (fun x_diff => slot NE df_insee y_diff x_diff)
                                  offsets)
                      offsets) |}.

(** The union of the gathered squares has area 0: none was gathered, or
    all are degenerate. *)
Definition area_is_zero (g : list box) : bool := forallb box_is_degenerate g.

(** On an empty frame [apply] adds no column and the selection of
    [["north", "east"]] raises [KeyError]; on an empty mesh the frame of
    centroids is empty and [ox.project_gdf] refuses it. *)
Definition get_aggregated_squares (df_insee : list insee_row) (step : positive)
    (conserve_squares_info : bool) : result (list square) :=
  match df_insee with
  | [] => Raise KeyError
  | _ =>
      (* Get northing and easting coordinates *)
      let coordinates := map get_northing_easting df_insee in
      let coords_offset := if conserve_squares_info then 100 else 500 in
      points <- centroid_mesh coordinates coords_offset step ;;
      match points with
      | [] => Raise EmptyFrameError
      | _ =>
          let index_function :=
            if conserve_squares_info then index_square_conservative
            else index_square in
          (* Index, for each square centroid, +- 400 meters *)
          let df_squares := map (fun NE => index_function NE df_insee 400) points in
          (* Drop empty squares (rows) *)
          Ret (filter (fun sq => negb (area_is_zero (square_geometry sq)))
                      df_squares)
      end
  end.

End AggregatedSquares.

(** *** [get_population_df_filled_empty_squares] *)

Module FilledEmptySquares.

(** [get_northing_easting]: the same parse, without any handler. *)
Definition get_northing_easting (x : insee_row) : result (Z * Z) :=
  northing_easting (idINSPIRE x).

(** A row of the concatenated frame: the added squares have no
    identifier. *)
Record filled_row : Set := {
  f_idINSPIRE : option string;
  f_pop_count : Q;
  f_geometry : box
}.

Definition of_insee_row (r : insee_row) : filled_row :=
  {| f_idINSPIRE := Some (idINSPIRE r);
     f_pop_count := pop_count r;
     f_geometry := geometry r |}.

(** The square [Polygon] of side 200 centred on [(E, N)]. *)
Definition new_square (EN : Z * Z) : box :=
  {| xmin := fst EN - 100; ymin := snd EN - 100;
     xmax := fst EN + 100; ymax := snd EN + 100 |}.

Definition empty_row (b : box) : filled_row :=
  {| f_idINSPIRE := None; f_pop_count := 0%Q; f_geometry := b |}.

(** [gpd.sjoin(point_df, df_insee_3035).empty]: the centre point meets no
    existing square. *)
Definition uncovered (df_insee_3035 : list insee_row) (EN : Z * Z) : bool :=
  forallb (fun r => negb (box_intersects (box_of_point (fst EN) (snd EN)) (geometry r)))
          df_insee_3035.

(** The mesh of the function: offset 100, step 200. *)
Definition mesh (df_insee_3035 : list insee_row) : result (list (Z * Z)) :=
  coords <- mapM get_northing_easting df_insee_3035 ;;
  centroid_mesh (map (fun ne => (Some (fst ne), Some (snd ne))) coords) 100 200.

(** The list [empty_population_box] at the end of the loop. *)
Definition empty_population_box (df_insee_3035 : list insee_row)
  : result (list box) :=
  points <- mesh df_insee_3035 ;;
  Ret (map new_square (filter (uncovered df_insee_3035) points)).

Section Backfill.

(** [df_insee_3035.unary_union.convex_hull.intersects(g)] is Shapely's; it
    is a parameter, given the geometries of the frame and [g]. *)
Variable convex_hull_intersects : list box -> box -> bool.

(** The frame is taken in EPSG:3035 (the function starts by projecting it
    there).  Of the projections only their refusal of an empty frame is
    kept: [ox.project_gdf] raises on the input frame when it has no row,
    and on the filtered frame when the hull test has left none. *)
Definition get_population_df_filled_empty_squares
    (df_insee_3035 : list insee_row) : result (list filled_row) :=
  match df_insee_3035 with
  | [] => Raise EmptyFrameError
  | _ =>
      boxes <- empty_population_box df_insee_3035 ;;
      (* Concatenate original data frame + Empty squares *)
      let gdf_concat := map of_insee_row df_insee_3035 ++ map empty_row boxes in
      (* Remove added grid-cells outside the convex hull *)
      let gdf_concat :=
        filter (fun x => convex_hull_intersects (map geometry df_insee_3035)
                                                (f_geometry x))
               gdf_concat in
      match gdf_concat with
      | [] => Raise EmptyFrameError
      | _ => Ret gdf_concat
      end
  end.

End Backfill.

End FilledEmptySquares.

(** *** Sample grids *)

(** The square of side 200 whose south-west corner is [(east, north)], with
    the INSPIRE identifier of that corner. *)
Definition insee_square (i north east : Z) (pop : Q) : insee_row :=
  {| index := i;
     idINSPIRE := ("CRS3035RES200mN" ++ str north ++ "E" ++ str east)%string;
     pop_count := pop;
     geometry := {| xmin := east; ymin := north;
                    xmax := east + 200; ymax := north + 200 |} |}.

(** A grid whose identifiers do not all have the same number of digits: the
    pattern of the square at easting 200 also occurs in the identifier of
    the square at easting 2000. *)
Definition grid_mixed_width : list insee_row :=
  [ insee_square 0 0 200 1; insee_square 1 0 2000 1; insee_square 2 200 200 1 ].

(** One observed square, the centre of its 3 x 3 neighbourhood. *)
Definition grid_centre_only : list insee_row :=
  [ insee_square 0 2029800 4252400 12 ].

(** Five observed squares: the diagonal of a 4 x 4 neighbourhood and its
    north-west corner. *)
Definition grid_diagonals : list insee_row :=
  [ insee_square 0 0 0 5; insee_square 1 200 200 2; insee_square 2 400 400 7;
    insee_square 3 600 600 1; insee_square 4 600 0 3 ].

End PopulationUtils.

(** ** [osm/utils.py]: list columns written to and read from GeoJSON *)

Module OsmUtils.

Import PopulationUtils.
Local Open Scope string_scope.
Local Open Scope list_scope.
Local Open Scope py_scope.

(** [sep.join(parts)]. *)
Fixpoint join (sep : string) (parts : list string) : string :=
  match parts with
  | [] => ""
  | [p] => p
  | p :: rest => p ++ sep ++ join sep rest
  end.

(** Every character of [s] satisfies [P]. *)
Fixpoint forall_chars (P : ascii -> bool) (s : string) : bool :=
  match s with
  | EmptyString => true
  | String c s' => P c && forall_chars P s'
  end.

(** The identifier of the row can be parsed into coordinates. *)
Definition parsable (x : insee_row) : bool :=
  match northing_easting (idINSPIRE x) with
  | Ret _ => true
  | Raise _ => false
  end.

Definition is_some {A : Type} (v : option A) : bool :=
  match v with Some _ => true | None => false end.

(** The character [sep] does not occur in [s]. *)
Definition without (sep : ascii) (s : string) : bool :=
  forall_chars (fun c => negb (Ascii.eqb c sep)) s.

(** The characters [str] can print: the digits and the minus sign. *)
Definition numeric_char (c : ascii) : bool :=
  match digit_value c with
  | Some _ => true
  | None => Ascii.eqb c "-"
  end.

(** [load_geodataframe]: list of integers given input in string format. *)
Definition list_int_from_string (x : string) : result (list Z) :=
  mapM int (split "," x).

(** [load_geodataframe]: list of strings given input in string format. *)
Definition list_str_from_string (x : string) : list string :=
  split "," x.

(** A cell of a list column ([containing_parts], [containing_poi],
    [activity_category]): a list, or NaN ([None]).  In the file the cell is a
    string or null. *)

(** [store_geodataframe]:
    [",".join(str(e) for e in x) if isinstance(x, list) else np.nan]. *)
Definition store_int_list (x : option (list Z)) : option string :=
  match x with
  | Some l => Some (join "," (map str l))
  | None => None
  end.

Definition store_str_list (x : option (list string)) : option string :=
  match x with
  | Some l => Some (join "," l)
  | None => None
  end.

(** [load_geodataframe]: the empty string is replaced by NaN, then
    [list_int_from_string(x) if pd.notnull(x) else np.nan]. *)
Definition load_int_list (x : option string) : result (option (list Z)) :=
  match x with
  | None | Some EmptyString => Ret None
  | Some s => l <- list_int_from_string s ;; Ret (Some l)
  end.

Definition load_str_list (x : option string) : option (list string) :=
  match x with
  | None | Some EmptyString => None
  | Some s => Some (list_str_from_string s)
  end.

End OsmUtils.

(** ** [population/utils.py]: validation of the population downscaling *)

Module Validation.

Import Geometry.
Import UrbanFeatures.
Local Open Scope string_scope.
Local Open Scope list_scope.
Local Open Scope Q_scope.
Local Open Scope py_scope.

Section DownscalingValidation.

Context {geom : Type} {shapely : Shapely geom}.

(** A building with its computed population count. *)
Record PopBuilding : Type := {
  pb_geometry : geom;
  pb_landuses_m2 : dict;
  population : Q
}.

(** [x.landuses_m2["residential"] > 0]. *)
Definition has_residential (b : PopBuilding) : result bool :=
  res <- dict_get (pb_landuses_m2 b) "residential" ;;
  Ret (negb (Qle_bool res 0)).

(** [df[df.apply(pred, axis=1)]]. *)
Fixpoint select {A : Type} (pred : A -> result bool) (df : list A)
  : result (list A) :=
  match df with
  | [] => Ret []
  | x :: rest =>
      keep <- pred x ;;
      kept <- select pred rest ;;
      Ret (if keep then x :: kept else kept)
  end.

(** The buildings [select has_residential] retains when every building has
    the entry. *)
Definition residential_of (df_osm_built : list PopBuilding) : list PopBuilding :=
  filter (fun b => match has_residential b with
                   | Ret keep => keep
                   | Raise _ => false
                   end) df_osm_built.

(** Calculate area within square (percentage of building with the
    square), for one row of the join. *)
Definition row_estimation (cell : GridCell) (b : PopBuilding) : result Q :=
  ratio <- py_div (area (intersection (pb_geometry b) (geometry cell)))
                  (area (pb_geometry b)) ;;
  Ret (population b * ratio).

(** The rows of [gpd.sjoin(df_insee, df_osm_built_residential,
    op="intersects")] that carry the index of one cell. *)
Definition sjoin_rows (df_osm_built_residential : list PopBuilding)
    (cell : GridCell) : list PopBuilding :=
  filter (fun b => intersects (geometry cell) (pb_geometry b))
         df_osm_built_residential.

Definition is_empty {A : Type} (l : list A) : bool :=
  match l with
  | [] => true
  | _ => false
  end.

(** The column [pop_estimation]: per cell, the sum over the residential
    buildings that intersect it, 0 where the join has no row.  When the
    join has no row at all, [sjoin.apply(..., axis=1)] returns a frame, not
    a column, and its assignment to [sjoin["pop_estimation"]] raises
    [ValueError]. *)
Definition pop_estimation (df_osm_built : list PopBuilding)
    (df_insee : list GridCell) : result (list Q) :=
  df_osm_built_residential <- select has_residential df_osm_built ;;
  if forallb (fun cell => is_empty (sjoin_rows df_osm_built_residential cell))
             df_insee
  then Raise ValueError
  else
    mapM (fun cell =>
            rows <- mapM (row_estimation cell)
                      (sjoin_rows df_osm_built_residential cell) ;;
            Ret (Qsum rows))
         df_insee.

(** [population_downscaling_validation]: the three columns added to
    [df_insee].  (As for [built_up_relation], the division by a zero
    [pop_count] is modelled as the exception.) *)
Definition population_downscaling_validation (df_osm_built : list PopBuilding)
    (df_insee : list GridCell) : result (list (Q * Q * Q)) :=
  est <- pop_estimation df_osm_built df_insee ;;
  let absolute_error :=
    map (fun ce => Qabs (pop_count (fst ce) - snd ce)) (combine df_insee est) in
  relative_error <-
    mapM (fun ce => py_div (Qabs (pop_count (fst ce) - snd ce)) (pop_count (fst ce)))
         (combine df_insee est) ;;
  Ret (combine (combine est absolute_error) relative_error).

End DownscalingValidation.

End Validation.

(** ** [geometries.py]: expanding a grid point *)

Module GridGeometries.

Import UrbanFeatures.
Local Open Scope list_scope.
Local Open Scope Q_scope.
Local Open Scope py_scope.

(** [np.arange(start, stop, step)] on floats: [ceil((stop - start) / step)]
    values [start + i * step], none when that number is not positive; the
    length cannot be computed for a zero step. *)
Definition arange_float (start stop step : Q) : result (list Q) :=
  q <- py_div (stop - start) step ;;
  Ret (map (fun i => start + inject_Z (Z.of_nat i) * step)
           (seq 0 (Z.to_nat (Qceiling q)))).

(** [expand_grid_point(point, factor, xoffset, yoffset)]. *)
Definition expand_grid_point (point : Q * Q) (factor : Z) (xoffset yoffset : Q)
  : result (list (Q * Q)) :=
  let x := fst point in
  let y := snd point in
  inv_x <- py_div 1 (inject_Z factor) ;;
  let x_range := (1 # 2) * (1 - inv_x) * xoffset in
  inv_y <- py_div 1 (inject_Z factor) ;;
  let y_range := (1 # 2) * (1 - inv_y) * yoffset in
  x_step <- py_div xoffset (inject_Z factor) ;;
  xs <- arange_float (x - x_range) (x + xoffset / 2) x_step ;;
  y_step <- py_div yoffset (inject_Z factor) ;;
  ys <- arange_float (y - y_range) (y + yoffset / 2) y_step ;;
  Ret (flat_map (fun x_ => map (fun y_ => (x_, y_)) ys) xs).

End GridGeometries.

(** ** [population/urban_features.py]: the final pass and the training vectors *)

Module TrainingData.

Import UrbanFeatures.
Local Open Scope list_scope.
Local Open Scope Q_scope.
Local Open Scope py_scope.

(** [pop_features.fillna(0, inplace=True)] on a numeric column. *)
Definition fillna0 (col : list (option Q)) : list (option Q) :=
  map (fun d => match d with Some v => Some v | None => Some 0 end) col.

(** A value of a NumPy float column: NumPy division does not raise. *)
Inductive npq : Type :=
| NFin (q : Q)
| NInf (negative : bool)
| NNaN.

Definition np_divq (a b : Q) : npq :=
  if Qeq_bool b 0 then
    (if Qeq_bool a 0 then NNaN else NInf (negb (Qle_bool 0 a)))
  else NFin (a / b).

Definition isna (v : npq) : bool :=
  match v with NNaN => true | _ => false end.

(** The [pop_count] column of [pop_features], by index label. *)
Definition frame : Type := list (Z * Q).

Fixpoint has_label (labels : list Z) (i : Z) : bool :=
  match labels with
  | [] => false
  | j :: labels' => Z.eqb i j || has_label labels' i
  end.

Fixpoint unique_labels (labels : list Z) : bool :=
  match labels with
  | [] => true
  | j :: labels' => negb (has_label labels' j) && unique_labels labels'
  end.

Fixpoint loc (pop_features : frame) (i : Z) : option Q :=
  match pop_features with
  | [] => None
  | (j, v) :: rest => if Z.eqb i j then Some v else loc rest i
  end.

(** [pop_features.reindex(idx).fillna(0)["pop_count"]]: the population of
    each slot, 0 for a null slot and for a label the frame does not have;
    [reindex] refuses a frame with duplicate labels. *)
Definition square_info (pop_features : frame) (idx : list (option Z))
  : result (list Q) :=
  if unique_labels (map fst pop_features) then
    Ret (map (fun slot =>
                match slot with
                | Some i => match loc pop_features i with
                            | Some v => v
                            | None => 0
                            end
                | None => 0
                end) idx)
  else Raise ValueError.

(** [square_info["pop_count"] / square_info["pop_count"].sum()]. *)
Definition population_densities (pop_count : list Q) : list npq :=
  map (fun v => np_divq v (Qsum pop_count)) pop_count.

(** The [Y] part of the loop of [get_training_testing_data]: one vector per
    block, the blocks whose densities are all NaN being skipped. *)
Fixpoint Y_values (pop_features : frame) (blocks : list (list (option Z)))
  : result (list (list npq)) :=
  match blocks with
  | [] => Ret []
  | idx :: rest =>
      pops <- square_info pop_features idx ;;
      ys <- Y_values pop_features rest ;;
      let densities := population_densities pops in
      if forallb isna densities then Ret ys else Ret (densities :: ys)
  end.

End TrainingData.

(** ** [sprawl/landusemix.py]: the indices on a grid *)

Module LandusemixGrid.

Import Landusemix.
Local Open Scope string_scope.
Local Open Scope list_scope.
Local Open Scope R_scope.
Local Open Scope py_scope.

(** The columns [compute_grid_landusemix] writes into [df_indices], by
    name.  The grid has the default index [0 .. n-1]. *)
Definition frame : Type := list (string * list npfloat).

(** [df[name] = col]: an existing column is replaced, a new one is added. *)
Fixpoint set_column (df : frame) (name : string) (col : list npfloat) : frame :=
  match df with
  | [] => [(name, col)]
  | (k, v) :: df' =>
      if String.eqb k name then (k, col) :: df'
      else (k, v) :: set_column df' name col
  end.

Fixpoint get_column (df : frame) (name : string) : result (list npfloat) :=
  match df with
  | [] => Raise KeyError
  | (k, v) :: df' => if String.eqb k name then Ret v else get_column df' name
  end.

(** Assigning a [pd.Series] to a column aligns it on the index of the
    frame: values beyond the last row are dropped, missing ones are NaN. *)
Definition align (n : nat) (col : list npfloat) : list npfloat :=
  firstn n col ++ repeat NaN (n - List.length col).

Definition Classification_eqb (a b : UrbanFeatures.Classification) : bool :=
  match a, b with
  | UrbanFeatures.residential, UrbanFeatures.residential
  | UrbanFeatures.activity, UrbanFeatures.activity
  | UrbanFeatures.mixed, UrbanFeatures.mixed => true
  | _, _ => false
  end.

(** [classification.isin(values)]; [None] stands for any other value. *)
Definition isin (c : option UrbanFeatures.Classification)
    (values : list UrbanFeatures.Classification) : bool :=
  match c with
  | Some v => existsb (Classification_eqb v) values
  | None => false
  end.

(** A row of [df_osm_built]. *)
Record OsmBuilding : Type := {
  b_centroid : point;
  b_classification : option UrbanFeatures.Classification;
  b_landuses_m2 : list (string * R);
  b_containing_poi : option (list Z);
  b_activity_category : option (list string)
}.

(** A row of [df_osm_pois], with its index label. *)
Record OsmPoi : Type := {
  p_index : Z;
  p_centroid : point;
  p_classification : option UrbanFeatures.Classification;
  p_activity_category : option (list string)
}.

Record kw_args : Type := {
  walkable_distance : R;
  compute_activity_types_kde : bool;
  weighted_kde : bool;
  pois_weight : R;
  log_weighted : bool
}.

(** [x[key]] on a [landuses_m2] dictionary. *)
Fixpoint lookup (d : list (string * R)) (key : string) : result R :=
  match d with
  | [] => Raise KeyError
  | (k, v) :: d' => if String.eqb k key then Ret v else lookup d' key
  end.

(** The elements of the non-null [containing_poi] lists. *)
Definition contained_pois (df_osm_built : list OsmBuilding) : list Z :=
  flat_map (fun b => match b_containing_poi b with
                     | Some list_ => list_
                     | None => []
                     end) df_osm_built.

(** [df_osm_pois[~df_osm_pois.index.isin(contained_pois)]]. *)
Definition not_contained (df_osm_built : list OsmBuilding)
    (df_osm_pois : list OsmPoi) : list OsmPoi :=
  filter (fun p => negb (existsb (Z.eqb (p_index p)) (contained_pois df_osm_built)))
         df_osm_pois.

(** [(isinstance(x, list)) and (cat in x)]. *)
Definition in_category (cat : string) (x : option (list string)) : bool :=
  match x with
  | Some l => existsb (String.eqb cat) l
  | None => false
  end.

Definition category_list (x : option (list string)) : list string :=
  match x with
  | Some l => l
  | None => []
  end.

(** The categories met in the [activity_category] lists of all the
    buildings and of the selected points of interest.  The code goes
    through a [set]: the order of the categories is not determined by it;
    the order of first occurrence stands for it. *)
Definition categories (df_osm_built : list OsmBuilding)
    (df_osm_pois_not_cont_indexed : list OsmPoi) : list string :=
  nodup string_dec
    (flat_map (fun b => category_list (b_activity_category b)) df_osm_built
     ++ flat_map (fun p => category_list (p_activity_category p))
          df_osm_pois_not_cont_indexed).

(** [df[df.classification.isin(values)]]. *)
Definition indexed_built (values : list UrbanFeatures.Classification)
    (df : list OsmBuilding) : list OsmBuilding :=
  filter (fun b => isin (b_classification b) values) df.

Definition indexed_pois (values : list UrbanFeatures.Classification)
    (df : list OsmPoi) : list OsmPoi :=
  filter (fun p => isin (p_classification p) values) df.

(** Some building or point of interest of the activity selection lists the
    category. *)
Definition has_source (cat : string) (df_osm_built : list OsmBuilding)
    (df_osm_pois : list OsmPoi) : bool :=
  existsb (fun b => in_category cat (b_activity_category b))
    (indexed_built [UrbanFeatures.activity; UrbanFeatures.mixed] df_osm_built)
  || existsb (fun p => in_category cat (p_activity_category p))
       (indexed_pois [UrbanFeatures.activity; UrbanFeatures.mixed]
          (not_contained df_osm_built df_osm_pois)).






(** A small city: a block of flats, a shop that contains a kiosk, a
    doctor's surgery in a building classified residential, and a cafe. *)
Definition sample_grid : list point := [(0, 0); (200, 0)].

Definition sample_flat : OsmBuilding :=
  {| b_centroid := (50, 50);
     b_classification := Some UrbanFeatures.residential;
     b_landuses_m2 := [("residential", 400); ("activity", 0)];
     b_containing_poi := None;
     b_activity_category := None |}.

Definition sample_shop : OsmBuilding :=
  {| b_centroid := (150, 20);
     b_classification := Some UrbanFeatures.activity;
     b_landuses_m2 := [("residential", 0); ("activity", 120); ("shop", 120)];
     b_containing_poi := Some [7%Z];
     b_activity_category := Some ["shop"] |}.

Definition sample_surgery : OsmBuilding :=
  {| b_centroid := (90, 10);
     b_classification := Some UrbanFeatures.residential;
     b_landuses_m2 := [("residential", 300); ("activity", 0)];
     b_containing_poi := None;
     b_activity_category := Some ["health"] |}.

Definition sample_cafe : OsmPoi :=
  {| p_index := 3%Z;
     p_centroid := (120, 30);
     p_classification := Some UrbanFeatures.activity;
     p_activity_category := Some ["leisure/amenity"] |}.

Definition sample_kiosk : OsmPoi :=
  {| p_index := 7%Z;
     p_centroid := (150, 20);
     p_classification := Some UrbanFeatures.activity;
     p_activity_category := Some ["kiosk"] |}.

Definition sample_kw : kw_args :=
  {| walkable_distance := 600;
     compute_activity_types_kde := true;
     weighted_kde := false;
     pois_weight := 9;
     log_weighted := true |}.

Section ComputeGrid.

Variable WeightedKernelDensityEstimation :
  list point -> list npfloat -> R -> list point -> result (list npfloat).

(** [X_weights]: [df.landuses_m2.apply(lambda x: x[key])] when
    [weighted_kde] is set; otherwise it keeps its initial [None]. *)
Definition weights_of (kw : kw_args) (key : string) (df : list OsmBuilding)
  : result (option (list R)) :=
  if weighted_kde kw then
    w <- mapM (fun b => lookup (b_landuses_m2 b) key) df ;;
    Ret (Some w)
  else Ret None.

(** The loop over the categories: one column [cat + "_pdf"] each. *)
Fixpoint category_columns (kw : kw_args) (df_indices : list point)
    (df_osm_built_indexed : list OsmBuilding)
    (df_osm_pois_not_cont_indexed : list OsmPoi)
    (cats : list string) (df : frame) : result frame :=
  match cats with
  | [] => Ret df
  | cat :: rest =>
      (* Buildings and POIs within that category *)
      let df_built_category :=
        filter (fun b => in_category cat (b_activity_category b))
               df_osm_built_indexed in
      let df_pois_category :=
        filter (fun p => in_category cat (p_activity_category p))
               df_osm_pois_not_cont_indexed in
      X_weights <- weights_of kw cat df_built_category ;;
      pdf <- calculate_kde WeightedKernelDensityEstimation df_indices
               (map b_centroid df_built_category)
               (Some (map p_centroid df_pois_category))
               (walkable_distance kw) X_weights (pois_weight kw) (log_weighted kw) ;;
      category_columns kw df_indices df_osm_built_indexed
        df_osm_pois_not_cont_indexed rest
        (set_column df (cat ++ "_pdf")%string (align (List.length df_indices) pdf))
  end.

(** [compute_grid_landusemix(df_indices, df_osm_built, df_osm_pois,
    kw_args)]: the columns added to [df_indices], given by the coordinates
    of its points. *)
Definition compute_grid_landusemix (df_indices : list point)
    (df_osm_built : list OsmBuilding) (df_osm_pois : list OsmPoi)
    (kw : kw_args) : result frame :=
  let n := List.length df_indices in
  (* Get the bandwidth, related to 'walkable distances' *)
  let bandwidth := walkable_distance kw in
  (* Get the POIs not contained by any building *)
  let df_osm_pois_not_contained := not_contained df_osm_built df_osm_pois in
  (* Residential *)
  let df_osm_built_indexed :=
    indexed_built [UrbanFeatures.residential; UrbanFeatures.mixed] df_osm_built in
  X_weights <- weights_of kw "residential" df_osm_built_indexed ;;
  residential_pdf <-
    calculate_kde WeightedKernelDensityEstimation df_indices
      (map b_centroid df_osm_built_indexed) None bandwidth X_weights
      (pois_weight kw) (log_weighted kw) ;;
  let df := set_column [] "residential_pdf" (align n residential_pdf) in
  (* Activities *)
  let df_osm_built_indexed :=
    indexed_built [UrbanFeatures.activity; UrbanFeatures.mixed] df_osm_built in
  let df_osm_pois_not_cont_indexed :=
    indexed_pois [UrbanFeatures.activity; UrbanFeatures.mixed]
      df_osm_pois_not_contained in
  X_weights <- weights_of kw "activity" df_osm_built_indexed ;;
  activity_pdf <-
    calculate_kde WeightedKernelDensityEstimation df_indices
      (map b_centroid df_osm_built_indexed)
      (Some (map p_centroid df_osm_pois_not_cont_indexed)) bandwidth X_weights
      (pois_weight kw) (log_weighted kw) ;;
  let df := set_column df "activity_pdf" (align n activity_pdf) in
  (* Compute activity types densities *)
  df <- (if compute_activity_types_kde kw then
           category_columns kw df_indices df_osm_built_indexed
             df_osm_pois_not_cont_indexed
             (categories df_osm_built df_osm_pois_not_cont_indexed) df
         else Ret df) ;;
  (* Compute land use mix indices *)
  activity <- get_column df "activity_pdf" ;;
  residential <- get_column df "residential_pdf" ;;
  landusemix <- mapM (fun x => _land_use_mix (fst x) (snd x))
                     (combine activity residential) ;;
  let df := set_column df "landusemix" landusemix in
  activity <- get_column df "activity_pdf" ;;
  residential <- get_column df "residential_pdf" ;;
  landuse_intensity <- mapM (fun x => py_div (py_add (fst x) (snd x)) (Fin 2))
                            (combine activity residential) ;;
  Ret (set_column df "landuse_intensity" landuse_intensity).

End ComputeGrid.

End LandusemixGrid.

(** * Properties *)

(** Case analysis on the comparisons of reals met in the goal. *)
Ltac py_cases :=
  repeat match goal with
    | |- context [Rlt_dec ?a ?b] => destruct (Rlt_dec a b)
    | |- context [Rle_dec ?a ?b] => destruct (Rle_dec a b)
    | |- context [Req_dec_T ?a ?b] => destruct (Req_dec_T a b)
    end.

Section EntropyFacts.

Import Landusemix.
Local Open Scope R_scope.

Lemma ln_le_pred (t : R) : 0 < t -> ln t <= t - 1.
Proof.
  intros Ht.
  pose proof (exp_ineq1_le (ln t)) as H.
  rewrite (exp_ln t Ht) in H. lra.
Qed.

Lemma ln_2_pos : 0 < ln 2.
Proof. rewrite <- ln_1. apply ln_increasing; lra. Qed.

Lemma xlnx_half_bound (a : R) : 0 < a -> - a * ln a - a * ln 2 <= / 2 - a.
Proof.
  intros Ha.
  assert (H2a : 0 < 2 * a) by lra.
  pose proof (ln_le_pred (/ (2 * a)) (Rinv_0_lt_compat _ H2a)) as H.
  rewrite (ln_Rinv _ H2a), (ln_mult 2 a) in H by lra.
  assert (Hm : a * (- (ln 2 + ln a)) <= a * (/ (2 * a) - 1)).
  { apply Rmult_le_compat_l; lra. }
  replace (a * (/ (2 * a) - 1)) with (/ 2 - a) in Hm by (field; lra).
  lra.
Qed.

Lemma xlnx_nonpos (a : R) : 0 < a -> a <= 1 -> a * ln a <= 0.
Proof.
  intros Ha Ha1.
  pose proof (ln_le_pred a Ha) as H.
  assert (ln a <= 0) by lra. nra.
Qed.

(** Two-category Shannon entropy, in bits, is between 0 and 1. *)
Lemma binary_entropy_range (a b : R) :
  0 < a -> 0 < b -> a + b = 1 ->
  0 <= - (a * ln a + b * ln b) / ln 2 <= 1.
Proof.
  intros Ha Hb Hab.
  pose proof ln_2_pos as H2.
  pose proof (xlnx_nonpos a Ha ltac:(lra)) as Hna.
  pose proof (xlnx_nonpos b Hb ltac:(lra)) as Hnb.
  pose proof (xlnx_half_bound a Ha) as Hua.
  pose proof (xlnx_half_bound b Hb) as Hub.
  assert (Hup : - (a * ln a + b * ln b) <= ln 2) by nra.
  split.
  - apply Rmult_le_pos; [lra | left; now apply Rinv_0_lt_compat].
  - apply (Rmult_le_reg_r (ln 2)); [exact H2 |].
    unfold Rdiv. rewrite Rmult_assoc, Rinv_l by lra. lra.
Qed.

Lemma pow2_pos (n : nat) : 0 < 2 ^ n.
Proof. apply pow_lt. lra. Qed.

Lemma min_subnormal_pos : 0 < min_subnormal.
Proof. apply Rinv_0_lt_compat, pow2_pos. Qed.

Lemma underflow_threshold_half : 2 * underflow_threshold = min_subnormal.
Proof.
  unfold underflow_threshold, min_subnormal.
  rewrite <- (tech_pow_Rmult 2 1074).
  pose proof (pow2_pos 1074) as H.
  field; lra.
Qed.

Lemma min_subnormal_small : min_subnormal <= / 1024.
Proof.
  unfold min_subnormal.
  apply Rinv_le_contravar; [lra |].
  replace 1024 with (2 ^ 10) by (simpl; lra).
  apply Rle_pow; [lra | lia].
Qed.

Lemma float_max_large : 8192 <= float_max.
Proof.
  unfold float_max.
  assert (H1 : 8192 <= 2 ^ 1023).
  { replace 8192 with (2 ^ 13) by (simpl; lra). apply Rle_pow; [lra | lia]. }
  assert (H2 : 0 < / 2 ^ 52 <= / 2).
  { split; [apply Rinv_0_lt_compat, pow2_pos |].
    apply Rinv_le_contravar; [lra |].
    replace 2 with (2 ^ 1) at 1 by (simpl; lra). apply Rle_pow; [lra | lia]. }
  nra.
Qed.

Lemma float_max_below_overflow : float_max < overflow_threshold.
Proof.
  unfold float_max, overflow_threshold.
  pose proof (pow2_pos 1023) as HP.
  assert (H : / 2 ^ 53 < / 2 ^ 52).
  { apply Rinv_lt_contravar.
    - apply Rmult_lt_0_compat; apply pow2_pos.
    - apply Rlt_pow; [lra | lia]. }
  nra.
Qed.

Lemma clamp_pos_exact (r : R) :
  min_subnormal <= r <= float_max -> clamp_pos r = r.
Proof.
  intros H. pose proof min_subnormal_pos. pose proof underflow_threshold_half.
  unfold clamp_pos. py_cases; lra.
Qed.

Lemma clamp_pos_0 : clamp_pos 0 = 0.
Proof.
  pose proof min_subnormal_pos. pose proof underflow_threshold_half.
  pose proof float_max_large.
  unfold clamp_pos. py_cases; lra.
Qed.

Lemma clamp_pos_bounds (r B : R) :
  0 <= r -> r <= B -> min_subnormal <= B -> 0 <= clamp_pos r <= B.
Proof.
  intros H0 HB Hm. pose proof min_subnormal_pos. pose proof float_max_large.
  unfold clamp_pos. py_cases; lra.
Qed.

Lemma clamp_pos_lower (r : R) :
  underflow_threshold < r -> min_subnormal <= clamp_pos r.
Proof.
  intros H. pose proof min_subnormal_pos. pose proof float_max_large.
  pose proof min_subnormal_small.
  unfold clamp_pos. py_cases; lra.
Qed.

Lemma clamp_pos_underflow (r : R) :
  0 <= r <= underflow_threshold -> clamp_pos r = 0.
Proof.
  intros H. pose proof min_subnormal_pos. pose proof float_max_large.
  pose proof underflow_threshold_half. pose proof min_subnormal_small.
  unfold clamp_pos. py_cases; lra.
Qed.

Lemma clamp_nonneg (r : R) : 0 <= r -> clamp r = clamp_pos r.
Proof. intros H. unfold clamp. py_cases; [lra | reflexivity]. Qed.

Lemma clamp_nonpos (r : R) : r <= 0 -> clamp r = - clamp_pos (- r).
Proof.
  intros H. unfold clamp. destruct (Rlt_dec r 0); [reflexivity |].
  assert (r = 0) by lra. subst r. rewrite Ropp_0, clamp_pos_0. ring.
Qed.

Lemma clamp_exact (r : R) :
  min_subnormal <= Rabs r <= float_max -> clamp r = r.
Proof.
  intros H. pose proof min_subnormal_pos.
  destruct (Rlt_dec r 0) as [Hr | Hr].
  - rewrite clamp_nonpos by lra. rewrite Rabs_left in H by assumption.
    rewrite clamp_pos_exact by assumption. ring.
  - rewrite clamp_nonneg by lra. rewrite Rabs_right in H by lra.
    now apply clamp_pos_exact.
Qed.

(** The result of an operation between [-B] and 0. *)
Lemma clamp_nonpos_bounds (r B : R) :
  - B <= r <= 0 -> min_subnormal <= B -> - B <= clamp r <= 0.
Proof.
  intros H Hm. rewrite clamp_nonpos by lra.
  pose proof (clamp_pos_bounds (- r) B). lra.
Qed.

Lemma clamp_abs_le (r B : R) :
  Rabs r <= B -> min_subnormal <= B -> Rabs (clamp r) <= B.
Proof.
  intros H Hm. destruct (Rlt_dec r 0) as [Hr | Hr].
  - rewrite Rabs_left in H by assumption.
    pose proof (clamp_nonpos_bounds r B ltac:(lra) Hm).
    rewrite Rabs_left1 by lra. lra.
  - rewrite Rabs_right in H by lra. rewrite clamp_nonneg by lra.
    pose proof (clamp_pos_bounds r B ltac:(lra) H Hm).
    rewrite Rabs_right by lra. lra.
Qed.

Lemma round_range_clamp (r : R) :
  Rabs r < overflow_threshold -> round_range r = Fin (clamp r).
Proof.
  intros H. unfold round_range.
  destruct (Rle_dec overflow_threshold r) as [H1 | H1].
  - rewrite Rabs_right in H; lra || (pose proof float_max_large;
      pose proof float_max_below_overflow; lra).
  - destruct (Rle_dec r (- overflow_threshold)) as [H2 | H2]; [| reflexivity].
    pose proof float_max_large. pose proof float_max_below_overflow.
    rewrite Rabs_left in H by lra. lra.
Qed.


Lemma small_below_overflow (r : R) : Rabs r <= 8192 -> Rabs r < overflow_threshold.
Proof.
  pose proof float_max_large. pose proof float_max_below_overflow. lra.
Qed.

Lemma ln_ge_inv (t : R) : 0 < t -> 1 - / t <= ln t.
Proof.
  intros Ht.
  pose proof (ln_le_pred (/ t) (Rinv_0_lt_compat _ Ht)) as H.
  rewrite ln_Rinv in H by assumption. lra.
Qed.

Lemma ln_2_bounds : / 2 <= ln 2 <= 1.
Proof.
  split.
  - pose proof (ln_ge_inv 2). lra.
  - pose proof (ln_le_pred 2). lra.
Qed.

Lemma ln_min_subnormal : - 1074 <= ln min_subnormal.
Proof.
  unfold min_subnormal. rewrite ln_Rinv by apply pow2_pos.
  rewrite ln_pow by lra.
  replace (INR 1074) with 1074 by (rewrite INR_IZR_INZ; reflexivity).
  pose proof ln_2_bounds. nra.
Qed.

Lemma ln_in_unit (a : R) : min_subnormal <= a <= 1 -> - 1074 <= ln a <= 0.
Proof.
  intros [H1 H2]. pose proof min_subnormal_pos. pose proof ln_min_subnormal.
  split.
  - destruct (Req_dec_T a min_subnormal) as [-> | Hne]; [assumption |].
    pose proof (ln_increasing min_subnormal a). lra.
  - pose proof (ln_le_pred a). lra.
Qed.

Lemma ln_eighth : ln (/ 8) = - (3 * ln 2).
Proof.
  rewrite ln_Rinv by lra.
  replace 8 with (2 * (2 * 2)) by lra.
  rewrite !ln_mult by lra. ring.
Qed.

(** [- a ln a] is increasing on [(0, c]] when [ln (1/c) >= 1]. *)
Lemma xlnx_monotone (a c : R) :
  0 < a -> a <= c -> ln c <= - 1 -> c * ln c <= a * ln a.
Proof.
  intros Ha Hac Hc.
  assert (Hc0 : 0 < c) by lra.
  assert (Hq : 0 < c / a) by (apply Rdiv_lt_0_compat; assumption).
  pose proof (ln_le_pred (c / a) Hq) as H.
  unfold Rdiv in H. rewrite ln_mult, ln_Rinv in H; try assumption;
    [| now apply Rinv_0_lt_compat].
  assert (H' : a * (ln c - ln a) <= c - a).
  { assert (E : a * (c * / a - 1) = c - a) by (field; lra).
    rewrite <- E. apply Rmult_le_compat_l; lra. }
  nra.
Qed.

Lemma ln_monotone (a c : R) : 0 < a -> a <= c -> ln a <= ln c.
Proof.
  intros Ha Hac. destruct (Req_dec_T a c) as [-> | Hne]; [lra |].
  pose proof (ln_increasing a c). lra.
Qed.

(** The term [x_ * log(x_)] of a share below 1/8 that does not underflow. *)
Lemma small_share_term (p : R) :
  underflow_threshold < p -> p < / 8 ->
  min_subnormal <= clamp_pos p <= / 8 /\
  - (3 / 8 * ln 2) <= clamp (clamp_pos p * clamp (ln (clamp_pos p))) <= - min_subnormal /\
  (min_subnormal <= p ->
   clamp (clamp_pos p * clamp (ln (clamp_pos p))) = p * ln p).
Proof.
  intros Hu Hp.
  pose proof min_subnormal_pos as Hm. pose proof min_subnormal_small as Hs.
  pose proof float_max_large as HF. pose proof underflow_threshold_half as Hh.
  pose proof ln_2_bounds as H2.
  assert (Ha : min_subnormal <= clamp_pos p <= / 8).
  { split; [now apply clamp_pos_lower |].
    apply (clamp_pos_bounds p (/ 8)); lra. }
  set (a := clamp_pos p) in *.
  assert (Hl1 : ln a <= - (3 * ln 2)).
  { rewrite <- ln_eighth. apply ln_monotone; lra. }
  assert (Hl2 : - 1074 <= ln a) by (apply ln_in_unit; lra).
  assert (El : clamp (ln a) = ln a).
  { apply clamp_exact. rewrite Rabs_left by lra. lra. }
  rewrite El.
  assert (Hx : / 8 * ln (/ 8) <= a * ln a).
  { apply xlnx_monotone; try lra. rewrite ln_eighth. lra. }
  rewrite ln_eighth in Hx.
  assert (Hy : a * ln a <= - (3 / 2 * a)) by nra.
  assert (Et : clamp (a * ln a) = a * ln a).
  { apply clamp_exact. rewrite Rabs_left by lra. lra. }
  rewrite Et. split; [exact Ha |]. split; [lra |].
  intros Hpm. unfold a. rewrite clamp_pos_exact by lra. reflexivity.
Qed.

(** The term [y_ * log(y_)] of a share above 7/8. *)
Lemma large_share_term (q : R) :
  7 / 8 < q -> q <= 1 ->
  - / 7 <= clamp (clamp_pos q * clamp (ln (clamp_pos q))) <= 0 /\
  (q <= 1 - 2 * min_subnormal ->
   clamp (clamp_pos q * clamp (ln (clamp_pos q))) = q * ln q).
Proof.
  intros Hq Hq1.
  pose proof min_subnormal_pos as Hm. pose proof min_subnormal_small as Hs.
  pose proof float_max_large as HF.
  rewrite (clamp_pos_exact q) by lra.
  assert (Hl1 : - / 7 <= ln q).
  { pose proof (ln_ge_inv q ltac:(lra)) as H.
    assert (/ q <= 8 / 7).
    { replace (8 / 7) with (/ (7 / 8)) by field.
      apply Rinv_le_contravar; lra. }
    lra. }
  assert (Hl2 : ln q <= q - 1) by (apply ln_le_pred; lra).
  pose proof (clamp_nonpos_bounds (ln q) (/ 7) ltac:(lra) ltac:(lra)) as Hc.
  split.
  - apply clamp_nonpos_bounds; [nra | lra].
  - intros Hx.
    assert (El : clamp (ln q) = ln q).
    { apply clamp_exact. rewrite Rabs_left by lra. lra. }
    rewrite El. apply clamp_exact.
    assert (q * ln q <= - min_subnormal) by nra.
    assert (- / 7 <= q * ln q) by nra.
    rewrite Rabs_left by lra. lra.
Qed.

(** What the entropy arithmetic gives on a small and a large share. *)
Lemma skewed_entropy (ts tl : R) :
  - (3 / 8 * ln 2) <= ts <= - min_subnormal -> - / 7 <= tl <= 0 ->
  clamp (- clamp (ts + tl) / ln 2) = - (ts + tl) / ln 2 /\
  min_subnormal <= - (ts + tl) / ln 2 <= 1.
Proof.
  intros Hs Hl.
  pose proof min_subnormal_pos as Hm. pose proof min_subnormal_small as Hsm.
  pose proof float_max_large as HF. pose proof ln_2_bounds as H2.
  assert (ES : clamp (ts + tl) = ts + tl).
  { apply clamp_exact. rewrite Rabs_left by lra. lra. }
  rewrite ES.
  assert (Hlo : min_subnormal <= - (ts + tl) / ln 2).
  { apply (Rmult_le_reg_r (ln 2)); [lra |].
    unfold Rdiv. rewrite Rmult_assoc, Rinv_l by lra. nra. }
  assert (Hhi : - (ts + tl) / ln 2 <= 1).
  { apply (Rmult_le_reg_r (ln 2)); [lra |].
    unfold Rdiv. rewrite Rmult_assoc, Rinv_l by lra. lra. }
  split; [| lra].
  apply clamp_exact. rewrite Rabs_right by lra. lra.
Qed.

(** The value the code computes from two shares that do not underflow:
    between the least positive double and 1, and the entropy itself when
    the shares are at least twice the least positive double. *)
Lemma clamped_entropy (p q : R) :
  p + q = 1 -> underflow_threshold < p -> underflow_threshold < q ->
  min_subnormal
  <= clamp (- clamp (clamp (clamp_pos p * clamp (ln (clamp_pos p)))
                     + clamp (clamp_pos q * clamp (ln (clamp_pos q)))) / ln 2)
  <= 1 /\
  (2 * min_subnormal <= p -> 2 * min_subnormal <= q ->
   clamp (- clamp (clamp (clamp_pos p * clamp (ln (clamp_pos p)))
                   + clamp (clamp_pos q * clamp (ln (clamp_pos q)))) / ln 2)
   = - (p * ln p + q * ln q) / ln 2).
Proof.
  intros Hpq Hp Hq.
  pose proof min_subnormal_pos as Hm. pose proof min_subnormal_small as Hsm.
  pose proof float_max_large as HF. pose proof ln_2_bounds as H2.
  pose proof underflow_threshold_half as Hh.
  destruct (Rlt_dec p (/ 8)) as [Hps | Hps].
  { (* the first share is small *)
    destruct (small_share_term p Hp Hps) as [_ [Hts Es]].
    destruct (large_share_term q ltac:(lra) ltac:(lra)) as [Htl El].
    destruct (skewed_entropy _ _ Hts Htl) as [E Hr].
    rewrite E. split; [exact Hr |].
    intros Hp2 Hq2. rewrite Es, El by lra. reflexivity. }
  destruct (Rlt_dec q (/ 8)) as [Hqs | Hqs].
  { (* the second share is small *)
    destruct (small_share_term q Hq Hqs) as [_ [Hts Es]].
    destruct (large_share_term p ltac:(lra) ltac:(lra)) as [Htl El].
    destruct (skewed_entropy _ _ Hts Htl) as [E Hr].
    rewrite Rplus_comm. rewrite E. split; [exact Hr |].
    intros Hp2 Hq2. rewrite Es, El by lra.
    rewrite (Rplus_comm (q * ln q)). reflexivity. }
  (* both shares are at least 1/8: nothing is clamped *)
  assert (Hexact : forall t, / 8 <= t -> t <= 7 / 8 ->
            clamp_pos t = t /\ clamp (ln t) = ln t /\
            clamp (t * ln t) = t * ln t /\ - 7 <= t * ln t <= - / 64).
  { intros t Ht1 Ht2.
    assert (Hl1 : ln t <= t - 1) by (apply ln_le_pred; lra).
    assert (Hl2 : 1 - / t <= ln t) by (apply ln_ge_inv; lra).
    assert (Hi : / t <= 8).
    { replace 8 with (/ / 8) by field. apply Rinv_le_contravar; lra. }
    assert (Hb : - 7 <= t * ln t <= - / 64) by nra.
    repeat split; try lra.
    - apply clamp_pos_exact; lra.
    - apply clamp_exact. rewrite Rabs_left by lra. lra.
    - apply clamp_exact. rewrite Rabs_left by lra. lra. }
  destruct (Hexact p ltac:(lra) ltac:(lra)) as [Ep [Elp [Etp Hbp]]].
  destruct (Hexact q ltac:(lra) ltac:(lra)) as [Eq [Elq [Etq Hbq]]].
  rewrite Ep, Eq, Elp, Elq, Etp, Etq.
  assert (ES : clamp (p * ln p + q * ln q) = p * ln p + q * ln q).
  { apply clamp_exact. rewrite Rabs_left by lra. lra. }
  rewrite ES.
  destruct (binary_entropy_range p q ltac:(lra) ltac:(lra) Hpq) as [Hlo Hhi].
  assert (Hpos : / 32 <= - (p * ln p + q * ln q) / ln 2).
  { apply (Rmult_le_reg_r (ln 2)); [lra |].
    unfold Rdiv. rewrite Rmult_assoc, Rinv_l by lra. nra. }
  assert (Eh : clamp (- (p * ln p + q * ln q) / ln 2)
               = - (p * ln p + q * ln q) / ln 2).
  { apply clamp_exact. rewrite Rabs_right by lra. lra. }
  rewrite Eh. split; [lra | reflexivity].
Qed.

Lemma in_range_pos (x : R) : in_range x -> 0 < x -> min_subnormal <= x <= float_max.
Proof.
  intros [-> | H] Hx; [lra |]. rewrite Rabs_right in H by lra. exact H.
Qed.

Lemma py_add_Fin (x y : R) :
  Rabs (x + y) < overflow_threshold -> py_add (Fin x) (Fin y) = Fin (clamp (x + y)).
Proof. intros H. cbn [py_add]. now apply round_range_clamp. Qed.

Lemma py_mul_Fin (x y : R) :
  Rabs (x * y) < overflow_threshold -> py_mul (Fin x) (Fin y) = Fin (clamp (x * y)).
Proof. intros H. cbn [py_mul]. now apply round_range_clamp. Qed.

Lemma py_div_Fin (x y : R) :
  y <> 0 -> Rabs (x / y) < overflow_threshold ->
  py_div (Fin x) (Fin y) = Ret (Fin (clamp (x / y))).
Proof.
  intros Hy H. unfold py_div, np_div.
  destruct (Req_dec_T y 0); [contradiction |].
  now rewrite round_range_clamp.
Qed.

Lemma math_log_Fin (x : R) :
  0 < x -> Rabs (ln x) < overflow_threshold ->
  math_log (Fin x) = Ret (Fin (clamp (ln x))).
Proof.
  intros Hx H. unfold math_log.
  destruct (Rlt_dec 0 x); [| contradiction].
  now rewrite round_range_clamp.
Qed.

Lemma math_log_2 : math_log (Fin 2) = Ret (Fin (ln 2)).
Proof.
  pose proof ln_2_bounds. pose proof min_subnormal_small.
  pose proof min_subnormal_pos. pose proof float_max_large.
  rewrite math_log_Fin; try lra.
  - rewrite clamp_exact; [reflexivity |]. rewrite Rabs_right by lra. lra.
  - apply small_below_overflow. rewrite Rabs_right by lra. lra.
Qed.

Lemma share_bounds (x y : R) : 0 < x -> 0 < y -> 0 < x / (x + y) < 1.
Proof.
  intros Hx Hy. split.
  - apply Rdiv_lt_0_compat; lra.
  - apply (Rmult_lt_reg_r (x + y)); [lra |].
    unfold Rdiv. rewrite Rmult_assoc, Rinv_l by lra. lra.
Qed.

(** The double a share becomes, its logarithm and their product. *)
Lemma share_term (p : R) :
  underflow_threshold < p -> p < 1 ->
  min_subnormal <= clamp_pos p <= 1 /\
  Rabs (ln (clamp_pos p)) <= 1074 /\
  Rabs (clamp (ln (clamp_pos p))) <= 1074 /\
  Rabs (clamp_pos p * clamp (ln (clamp_pos p))) <= 1074 /\
  Rabs (clamp (clamp_pos p * clamp (ln (clamp_pos p)))) <= 1074.
Proof.
  intros Hu Hp.
  pose proof min_subnormal_pos as Hm. pose proof min_subnormal_small as Hs.
  pose proof underflow_threshold_half as Hh.
  assert (Ha : min_subnormal <= clamp_pos p <= 1).
  { split; [now apply clamp_pos_lower |].
    apply (clamp_pos_bounds p 1); lra. }
  set (a := clamp_pos p) in *.
  pose proof (ln_in_unit a Ha) as Hl.
  pose proof (clamp_nonpos_bounds (ln a) 1074 ltac:(lra) ltac:(lra)) as Hc.
  assert (Hprod : - 1074 <= a * clamp (ln a) <= 0) by nra.
  pose proof (clamp_nonpos_bounds _ 1074 Hprod ltac:(lra)) as Ht.
  repeat split; try lra; rewrite Rabs_left1 by lra; lra.
Qed.

(** On two positive doubles whose sum does not overflow and whose shares do
    not underflow, the function goes through every division and logarithm
    without raising. *)
Lemma metric_phi_entropy_pos (x y : R) :
  in_range x -> in_range y -> 0 < x -> 0 < y -> x + y <= float_max ->
  underflow_threshold < x / (x + y) -> underflow_threshold < y / (x + y) ->
  metric_phi_entropy (Fin x) (Fin y)
  = Ret (Fin (clamp
               (- clamp (clamp (clamp_pos (x / (x + y))
                                * clamp (ln (clamp_pos (x / (x + y)))))
                         + clamp (clamp_pos (y / (x + y))
                                  * clamp (ln (clamp_pos (y / (x + y))))))
                / ln 2))).
Proof.
  intros Rx Ry Hx Hy Hs Hp Hq.
  pose proof min_subnormal_pos as Hm. pose proof float_max_large as HF.
  pose proof float_max_below_overflow as HT. pose proof ln_2_bounds as H2.
  pose proof (in_range_pos x Rx Hx) as Bx.
  pose proof (in_range_pos y Ry Hy) as By.
  pose proof (share_bounds x y Hx Hy) as Bp.
  pose proof (share_bounds y x Hy Hx) as Bq. rewrite (Rplus_comm y x) in Bq.
  destruct (share_term _ Hp ltac:(lra)) as [Ha [Hla [Hca [Hpa Hta]]]].
  destruct (share_term _ Hq ltac:(lra)) as [Hb [Hlb [Hcb [Hpb Htb]]]].
  unfold metric_phi_entropy, py_lt, py_eq.
  destruct (Rlt_dec x 0); [lra |]. destruct (Rlt_dec y 0); [lra |].
  destruct (Req_dec_T x 0); [lra |]. destruct (Req_dec_T y 0); [lra |].
  cbn [orb].
  rewrite py_add_Fin by (rewrite Rabs_right; lra).
  rewrite (clamp_exact (x + y)) by (rewrite Rabs_right; lra).
  rewrite !py_div_Fin; try lra; try (rewrite Rabs_right; lra).
  cbn [bind]. rewrite !(clamp_nonneg (_ / (x + y))) by lra.
  rewrite math_log_2.
  rewrite !math_log_Fin; try lra; try (apply small_below_overflow; lra).
  cbn [bind].
  rewrite !py_mul_Fin by (apply small_below_overflow; lra).
  rewrite py_add_Fin.
  2:{ apply small_below_overflow.
      eapply Rle_trans; [apply Rabs_triang |]. lra. }
  cbn [py_neg].
  set (S := clamp (_ + _)).
  assert (HS : Rabs S <= 2148).
  { unfold S. apply clamp_abs_le; [| pose proof min_subnormal_small; lra].
    eapply Rle_trans; [apply Rabs_triang |]. lra. }
  rewrite py_div_Fin; [reflexivity | lra |].
  apply small_below_overflow.
  unfold Rdiv. rewrite Rabs_mult, Rabs_Ropp.
  rewrite (Rabs_right (/ ln 2)).
  2:{ apply Rle_ge. left. apply Rinv_0_lt_compat. lra. }
  assert (Hi : / ln 2 <= 2).
  { apply (Rmult_le_reg_r (ln 2)); [lra |]. rewrite Rinv_l by lra. lra. }
  assert (0 < / ln 2) by (apply Rinv_0_lt_compat; lra).
  pose proof (Rabs_pos S). nra.
Qed.


Lemma metric_phi_entropy_absent (x y : R) :
  0 <= x -> 0 <= y -> x = 0 \/ y = 0 ->
  metric_phi_entropy (Fin x) (Fin y) = Ret (Fin 0).
Proof.
  intros Hx Hy H. unfold metric_phi_entropy, py_lt, py_eq.
  py_cases; simpl; try reflexivity; lra.
Qed.


(** A share that underflows is 0 and its logarithm raises. *)
Lemma metric_phi_entropy_underflow (x y : R) :
  in_range x -> in_range y -> 0 < x -> 0 < y -> x + y <= float_max ->
  x / (x + y) <= underflow_threshold \/ y / (x + y) <= underflow_threshold ->
  metric_phi_entropy (Fin x) (Fin y) = Raise ValueError.
Proof.
  intros Rx Ry Hx Hy Hs Hu.
  pose proof min_subnormal_pos as Hm. pose proof float_max_large as HF.
  pose proof float_max_below_overflow as HT.
  pose proof (in_range_pos x Rx Hx) as Bx.
  pose proof (in_range_pos y Ry Hy) as By.
  pose proof (share_bounds x y Hx Hy) as Bp.
  pose proof (share_bounds y x Hy Hx) as Bq. rewrite (Rplus_comm y x) in Bq.
  unfold metric_phi_entropy, py_lt, py_eq.
  destruct (Rlt_dec x 0); [lra |]. destruct (Rlt_dec y 0); [lra |].
  destruct (Req_dec_T x 0); [lra |]. destruct (Req_dec_T y 0); [lra |].
  cbn [orb].
  rewrite py_add_Fin by (rewrite Rabs_right; lra).
  rewrite (clamp_exact (x + y)) by (rewrite Rabs_right; lra).
  rewrite !py_div_Fin; try lra; try (rewrite Rabs_right; lra).
  cbn [bind]. rewrite !(clamp_nonneg (_ / (x + y))) by lra.
  assert (Hzero : math_log (Fin 0) = Raise ValueError).
  { cbn [math_log]. destruct (Rlt_dec 0 0); [lra | reflexivity]. }
  destruct (Rle_dec (x / (x + y)) underflow_threshold) as [Hp | Hp].
  - rewrite (clamp_pos_underflow (x / (x + y))) by lra.
    now rewrite Hzero.
  - destruct Hu as [Hu | Hu]; [contradiction |].
    destruct (share_term (x / (x + y)) ltac:(lra) ltac:(lra)) as [Ha [Hla _]].
    rewrite math_log_Fin by lra.
    cbn [bind].
    rewrite (clamp_pos_underflow (y / (x + y))) by lra.
    now rewrite Hzero.
Qed.


Lemma in_range_1 : in_range 1.
Proof.
  right. pose proof min_subnormal_small. pose proof float_max_large.
  rewrite Rabs_right by lra. lra.
Qed.




Lemma py_add_comm (a b : pyfloat) : py_add a b = py_add b a.
Proof.
  destruct a as [| | | x], b as [| | | y]; try reflexivity.
  cbn [py_add]. now rewrite Rplus_comm.
Qed.

Lemma math_log_raises (a : pyfloat) (e : exn) :
  math_log a = Raise e -> e = ValueError.
Proof.
  destruct a as [| | | x]; cbn [math_log]; try discriminate.
  - intros H. now injection H.
  - destruct (Rlt_dec 0 x); [discriminate | intros H; now injection H].
Qed.

Lemma py_div_raises (a b s : pyfloat) (e : exn) :
  py_div a s = Raise e -> py_div b s = Raise e.
Proof.
  unfold py_div. destruct s as [| | | y]; try discriminate.
  destruct (Req_dec_T y 0); [auto | discriminate].
Qed.

(** C10. [metric_phi_entropy] is symmetric in its two arguments, for every
    pair of floats, NaN and the infinities included: the NaN results, the 0
    results, the entropy values and the exceptions coincide. *)
Theorem metric_phi_entropy_sym (x y : pyfloat) :
  metric_phi_entropy x y = metric_phi_entropy y x.
Proof.
  unfold metric_phi_entropy.
  rewrite (orb_comm (py_lt y (Fin 0))), (orb_comm (py_eq y (Fin 0))).
  destruct (py_lt x (Fin 0) || py_lt y (Fin 0)); [reflexivity |].
  destruct (py_eq x (Fin 0) || py_eq y (Fin 0)); [reflexivity |].
  rewrite (py_add_comm y x).
  destruct (py_div x (py_add x y)) as [x_ | e] eqn:Ex.
  - destruct (py_div y (py_add x y)) as [y_ | e] eqn:Ey.
    + cbn [bind].
      destruct (math_log x_) as [lx | e] eqn:Elx;
        destruct (math_log y_) as [ly | e'] eqn:Ely; cbn [bind].
      * rewrite (py_add_comm (py_mul y_ ly)). reflexivity.
      * reflexivity.
      * reflexivity.
      * apply math_log_raises in Elx, Ely. now subst.
    + apply (py_div_raises _ x) in Ey. rewrite Ey in Ex. discriminate.
  - rewrite (py_div_raises _ y _ _ Ex). reflexivity.
Qed.

End EntropyFacts.

Section KdeFacts.

Import Landusemix.
Local Open Scope R_scope.

Lemma fold_np_maximum_Fin (l : list R) (x : R) :
  fold_left np_maximum (map Fin l) (Fin x) = Fin (fold_left Rmax l x).
Proof.
  revert x. induction l as [| a l IH]; intros x; simpl.
  - reflexivity.
  - apply IH.
Qed.

Lemma fold_Rmax_ge_init (l : list R) (x : R) : x <= fold_left Rmax l x.
Proof.
  revert x. induction l as [| a l IH]; intros x; simpl.
  - lra.
  - eapply Rle_trans; [apply (Rmax_l x a) | apply IH].
Qed.

Lemma fold_Rmax_upper (l : list R) (x : R) :
  Forall (fun v => v <= fold_left Rmax l x) l.
Proof.
  revert x. induction l as [| a l IH]; intros x; simpl; constructor.
  - eapply Rle_trans; [apply (Rmax_r x a) | apply fold_Rmax_ge_init].
  - apply IH.
Qed.

Lemma fold_Rmax_In (l : list R) (x : R) : In (fold_left Rmax l x) (x :: l).
Proof.
  revert x. induction l as [| a l IH]; intros x; simpl.
  - now left.
  - destruct (IH (Rmax x a)) as [H | H].
    + unfold Rmax in H at 1. destruct (Rle_dec x a); auto.
    + auto.
Qed.

(** A finite array is divided, entry by entry, by its greatest entry. *)
Lemma normalise_by_max_finite (pdf : list R) :
  pdf <> [] ->
  exists m,
    In m pdf /\ Forall (fun v => v <= m) pdf /\
    normalise_by_max (map Fin pdf)
    = Ret (map (fun v => np_div (Fin v) (Fin m)) pdf).
Proof.
  intros Hne. destruct pdf as [| x l]; [congruence |].
  exists (fold_left Rmax l x). split; [apply fold_Rmax_In |]. split.
  - constructor; [apply fold_Rmax_ge_init | apply fold_Rmax_upper].
  - unfold normalise_by_max. cbn [map np_max bind].
    rewrite fold_np_maximum_Fin. cbn [map]. rewrite map_map. reflexivity.
Qed.

(** A quotient by a positive maximum: a double of [[0, 1]] for a
    non-negative entry, 1 for the maximum itself. *)
Lemma np_div_by_max (v m : R) :
  0 < m -> 0 <= v -> v <= m ->
  np_div (Fin v) (Fin m) = Fin (clamp_pos (v / m)) /\
  in_range (clamp_pos (v / m)) /\ 0 <= clamp_pos (v / m) <= 1.
Proof.
  intros Hm Hv Hvm.
  pose proof min_subnormal_pos as Hs. pose proof min_subnormal_small as Hsm.
  pose proof float_max_large as HF. pose proof underflow_threshold_half as Hh.
  assert (Hq : 0 <= v / m <= 1).
  { split.
    - apply Rmult_le_pos; [lra | left; now apply Rinv_0_lt_compat].
    - apply (Rmult_le_reg_r m); [exact Hm |].
      unfold Rdiv. rewrite Rmult_assoc, Rinv_l by lra. lra. }
  split; [| split].
  - unfold np_div. destruct (Req_dec_T m 0); [lra |].
    rewrite round_range_clamp
      by (apply small_below_overflow; rewrite Rabs_right; lra).
    now rewrite clamp_nonneg.
  - unfold in_range, clamp_pos. py_cases; try (left; lra); right;
      rewrite Rabs_right by lra; lra.
  - apply clamp_pos_bounds; lra.
Qed.

Lemma np_div_max_itself (m : R) : 0 < m -> np_div (Fin m) (Fin m) = Fin 1.
Proof.
  intros Hm. destruct (np_div_by_max m m Hm) as [-> _]; try lra.
  replace (m / m) with 1 by (field; lra).
  rewrite clamp_pos_exact; [reflexivity |].
  pose proof min_subnormal_small. pose proof float_max_large. lra.
Qed.

(** A raw density that is 0 everywhere has maximum 0: the division gives
    NaN in every cell. *)
Lemma normalise_by_max_all_zero (n : nat) :
  normalise_by_max (repeat (Fin 0) (S n)) = Ret (repeat NaN (S n)).
Proof.
  assert (Hmax : forall k, fold_left np_maximum (repeat (Fin 0) k) (Fin 0) = Fin 0).
  { induction k as [| k IH]; simpl; [reflexivity |].
    rewrite Rmax_left by lra. exact IH. }
  assert (Hdiv : np_div (Fin 0) (Fin 0) = NaN).
  { unfold np_div. py_cases; try reflexivity; lra. }
  assert (Hmap : forall k, map (fun p => np_div p (Fin 0)) (repeat (Fin 0) k)
                           = repeat NaN k).
  { induction k as [| k IH]; cbn [map repeat]; [reflexivity |].
    now rewrite Hdiv, IH. }
  unfold normalise_by_max. cbn [repeat np_max bind].
  rewrite Hmax. f_equal. apply (Hmap (S n)).
Qed.

Lemma gaussian_sum_nonneg (h : R) (X : list point) (y : point) :
  0 <= gaussian_sum h X y.
Proof.
  induction X as [| x X IH]; simpl.
  - lra.
  - pose proof (exp_pos (- sqdist y x / (2 * h * h))). lra.
Qed.

Lemma gaussian_density_pos (h : R) (X : list point) (y : point) :
  0 < h -> X <> [] -> 0 < gaussian_density h X y.
Proof.
  intros Hh HX. unfold gaussian_density.
  apply Rdiv_lt_0_compat.
  - destruct X as [| x X]; [congruence |]. simpl.
    pose proof (exp_pos (- sqdist y x / (2 * h * h))).
    pose proof (gaussian_sum_nonneg h X y). lra.
  - apply Rmult_lt_0_compat.
    + apply lt_0_INR. destruct X; [congruence | simpl; lia].
    + pose proof PI_RGT_0 as Hpi.
      assert (H2pi : 0 < 2 * PI) by lra.
      pose proof (Rmult_lt_0_compat _ _ H2pi Hh) as H1.
      exact (Rmult_lt_0_compat _ _ H1 Hh).
Qed.

(** The raw density of the unweighted branch: the Gaussian density as a
    double, when it does not overflow. *)
Lemma unweighted_raw_density (h : R) (X : list point) (points : list point) :
  0 < h -> X <> [] ->
  (forall y, In y points -> gaussian_density h X y < overflow_threshold) ->
  map (fun s => np_exp (Fin s)) (map (fun y => ln (gaussian_density h X y)) points)
  = map Fin (map (fun y => clamp_pos (gaussian_density h X y)) points).
Proof.
  intros Hh HX Hov. rewrite !map_map. apply map_ext_in. intros y Hy.
  pose proof (gaussian_density_pos h X y Hh HX) as Hpos.
  cbn [np_exp]. rewrite exp_ln by assumption.
  rewrite round_range_clamp by (rewrite Rabs_right; [now apply Hov | lra]).
  now rewrite clamp_nonneg by lra.
Qed.

Lemma calculate_kde_unweighted_fit
    (W : list point -> list npfloat -> R -> list point -> result (list npfloat))
    (points built : list point) (pois : option (list point))
    (bandwidth pw : R) (lw : bool) :
  built ++ X_p_of pois <> [] -> points <> [] -> 0 < bandwidth ->
  calculate_kde W points built pois bandwidth None pw lw
  = normalise_by_max
      (map (fun s => np_exp (Fin s))
           (map (fun y => ln (gaussian_density bandwidth (built ++ X_p_of pois) y))
                points)).
Proof.
  intros HX HY Hbw. unfold calculate_kde, KernelDensity_fit.
  destruct (Rlt_dec 0 bandwidth) as [_ | n]; [| contradiction].
  destruct (built ++ X_p_of pois) as [| x0 X0] eqn:EX; [congruence |].
  cbn [bind]. unfold score_samples.
  destruct points as [| y0 Y0] eqn:EY; [congruence |].
  reflexivity.
Qed.

(** C5 as amended.  [calculate_kde] has no guard for an empty point set: on
    the unweighted branch the empty sample reaches [KernelDensity.fit], whose
    [ValueError] propagates, so no column (null or not) is produced. *)
Theorem calculate_kde_empty_unweighted
    (W : list point -> list npfloat -> R -> list point -> result (list npfloat))
    (points : list point) (bandwidth pois_weight : R) (log_weight : bool) :
  calculate_kde W points [] None bandwidth None pois_weight log_weight
  = Raise ValueError /\
  calculate_kde W points [] (Some []) bandwidth None pois_weight log_weight
  = Raise ValueError.
Proof.
  unfold calculate_kde, KernelDensity_fit; simpl.
  destruct (Rlt_dec 0 bandwidth); split; reflexivity.
Qed.

(** C5, counterexample.  The residential surface of a city without any
    residential or mixed building, requested without weights at one cell
    centroid with the default bandwidth: the call raises instead of
    returning a null column.  (The weighted estimator is not called on this
    branch; any function can stand for it.) *)
Lemma calculate_kde_empty_raises :
  calculate_kde (fun _ _ _ _ => Ret []) [(100, 100)] [] None 600 None 9 true
  = Raise ValueError /\
  ~ (exists col,
        calculate_kde (fun _ _ _ _ => Ret []) [(100, 100)] [] None 600 None 9 true
        = Ret col).
Proof.
  assert (H : calculate_kde (fun _ _ _ _ => Ret []) [(100, 100)] [] None 600 None 9 true
              = Raise ValueError).
  { unfold calculate_kde, KernelDensity_fit; simpl.
    destruct (Rlt_dec 0 600); reflexivity. }
  split; [exact H |].
  intros [col Hcol]. rewrite H in Hcol. discriminate.
Qed.

(** Dividing a finite array by its maximum, when the maximum is positive
    and when every entry is 0. *)
Lemma normalise_by_max_spec (pdf : list R) :
  (Exists (fun v => 0 < v) pdf ->
   exists m,
     In m pdf /\ Forall (fun v => v <= m) pdf /\ 0 < m /\
     normalise_by_max (map Fin pdf)
     = Ret (map (fun v => np_div (Fin v) (Fin m)) pdf) /\
     In (Fin 1) (map (fun v => np_div (Fin v) (Fin m)) pdf) /\
     Forall (fun v => 0 <= v ->
               exists c, np_div (Fin v) (Fin m) = Fin c /\
                         in_range c /\ 0 <= c <= 1) pdf) /\
  (pdf <> [] -> Forall (fun v => v = 0) pdf ->
   normalise_by_max (map Fin pdf) = Ret (map (fun _ => NaN) pdf)).
Proof.
  split.
  - intros Hpos.
    assert (Hne : pdf <> []) by (intros ->; inversion Hpos).
    destruct (normalise_by_max_finite pdf Hne) as [m [Hin [Hub E]]].
    assert (Hm : 0 < m).
    { apply Exists_exists in Hpos. destruct Hpos as [v [Hv Hv0]].
      rewrite Forall_forall in Hub. specialize (Hub v Hv). lra. }
    exists m. repeat split; try assumption.
    + apply in_map_iff. exists m. split; [now apply np_div_max_itself | exact Hin].
    + apply Forall_forall. intros v Hv Hv0.
      rewrite Forall_forall in Hub. specialize (Hub v Hv).
      destruct (np_div_by_max v m Hm Hv0 Hub) as [E' [Hr Hb]]. eauto.
  - intros Hne Hz.
    assert (E : pdf = repeat 0 (List.length pdf)).
    { clear Hne. induction Hz as [| v l Hv Hz IH]; [reflexivity |].
      cbn [List.length repeat]. now rewrite Hv, <- IH. }
    destruct pdf as [| x l]; [congruence |].
    rewrite E at 1. cbn [List.length].
    assert (Hr : forall k, map Fin (repeat 0 k) = repeat (Fin 0) k).
    { induction k as [| k IH]; cbn [repeat map]; [reflexivity | now rewrite IH]. }
    rewrite Hr, normalise_by_max_all_zero. f_equal.
    assert (Hn : forall (A : Type) (l' : list A),
              map (fun _ => NaN) l' = repeat NaN (List.length l')).
    { intros A l'. induction l' as [| a l' IH]; cbn [map repeat List.length];
        [reflexivity | now rewrite IH]. }
    now rewrite Hn.
Qed.

(** C6 as amended.  A density surface is the raw density divided, centroid
    by centroid, by the greatest raw value.  The raw density is the Gaussian
    density as a double on the unweighted branch (non-empty point set and
    grid, positive bandwidth, no overflow) and what the weighted estimator
    returns on the weighted branch, taken finite.  When it is positive
    somewhere the maximum of the surface is exactly 1 and every non-negative
    raw value gives a value of [[0, 1]] (all of them on the unweighted
    branch); when it is 0 at every centroid, as when the density underflows
    everywhere, the surface is NaN at every centroid. *)
Theorem calculate_kde_normalised
    (W : list point -> list npfloat -> R -> list point -> result (list npfloat))
    (points df_osm_built : list point) (df_osm_pois : option (list point))
    (bandwidth : R) (X_weights : option (list R)) (pois_weight : R)
    (log_weight : bool) (pdf : list R) :
  match X_weights with
  | Some w =>
      W (df_osm_built ++ X_p_of df_osm_pois)
        (weight_array w (List.length (X_p_of df_osm_pois)) pois_weight log_weight)
        bandwidth points = Ret (map Fin pdf)
  | None =>
      df_osm_built ++ X_p_of df_osm_pois <> [] /\ points <> [] /\ 0 < bandwidth /\
      (forall y, In y points ->
         gaussian_density bandwidth (df_osm_built ++ X_p_of df_osm_pois) y
         < overflow_threshold) /\
      pdf = map (fun y => clamp_pos
                   (gaussian_density bandwidth (df_osm_built ++ X_p_of df_osm_pois) y))
                points
  end ->
  (Exists (fun v => 0 < v) pdf ->
   exists m,
     In m pdf /\ Forall (fun v => v <= m) pdf /\ 0 < m /\
     calculate_kde W points df_osm_built df_osm_pois bandwidth X_weights
       pois_weight log_weight
     = Ret (map (fun v => np_div (Fin v) (Fin m)) pdf) /\
     In (Fin 1) (map (fun v => np_div (Fin v) (Fin m)) pdf) /\
     Forall (fun v => 0 <= v ->
               exists c, np_div (Fin v) (Fin m) = Fin c /\ 0 <= c <= 1) pdf /\
     (X_weights = None ->
      List.length pdf = List.length points /\ Forall (fun v => 0 <= v) pdf)) /\
  (pdf <> [] -> Forall (fun v => v = 0) pdf ->
   calculate_kde W points df_osm_built df_osm_pois bandwidth X_weights
     pois_weight log_weight
   = Ret (map (fun _ => NaN) pdf)).
Proof.
  intros Hraw.
  assert (E : calculate_kde W points df_osm_built df_osm_pois bandwidth X_weights
                pois_weight log_weight
              = normalise_by_max (map Fin pdf)).
  { destruct X_weights as [w |].
    - unfold calculate_kde. now rewrite Hraw.
    - destruct Hraw as [HX [HY [Hbw [Hov ->]]]].
      rewrite calculate_kde_unweighted_fit by assumption.
      now rewrite unweighted_raw_density. }
  rewrite E. destruct (normalise_by_max_spec pdf) as [Hpos Hzero].
  split; [| exact Hzero].
  intros Hex. destruct (Hpos Hex) as [m [Hin [Hub [Hm [En [H1 Hr]]]]]].
  exists m. repeat split; try assumption.
  - eapply Forall_impl; [| exact Hr].
    intros v Hv Hv0. destruct (Hv Hv0) as [c [Ec [_ Hc]]]. eauto.
  - destruct X_weights; [discriminate |].
    destruct Hraw as [_ [_ [_ [_ ->]]]]. apply length_map.
  - destruct X_weights; [discriminate |].
    destruct Hraw as [HX [_ [Hbw [_ ->]]]].
    apply Forall_forall. intros v Hv. apply in_map_iff in Hv.
    destruct Hv as [y [<- _]].
    pose proof (gaussian_density_pos bandwidth _ y Hbw HX).
    pose proof min_subnormal_small. pose proof min_subnormal_pos.
    apply (clamp_pos_bounds _ (Rmax (gaussian_density bandwidth
             (df_osm_built ++ X_p_of df_osm_pois) y) 1)); try lra.
    + apply Rmax_l.
    + pose proof (Rmax_r (gaussian_density bandwidth
             (df_osm_built ++ X_p_of df_osm_pois) y) 1). lra.
Qed.

Lemma min_subnormal_tiny : min_subnormal <= / 10 ^ 15.
Proof.
  unfold min_subnormal.
  apply Rinv_le_contravar; [apply pow_lt; lra |].
  apply Rle_trans with (2 ^ 50).
  - simpl. lra.
  - apply Rle_pow; [lra | lia].
Qed.

Lemma exp_nat_lower (n : nat) : 2 ^ n <= exp (INR n).
Proof.
  induction n as [| n IH].
  - simpl. rewrite exp_0. lra.
  - rewrite S_INR, exp_plus. simpl pow.
    pose proof (exp_ineq1_le 1) as H1. pose proof (pow2_pos n) as Hp.
    pose proof (exp_pos (INR n)) as He. nra.
Qed.

Lemma exp_neg_nat (n : nat) : exp (- INR n) <= / 2 ^ n.
Proof.
  rewrite exp_Ropp. apply Rinv_le_contravar; [apply pow2_pos |].
  apply exp_nat_lower.
Qed.

Lemma sqdist_nonneg (p q : point) : 0 <= sqdist p q.
Proof.
  unfold sqdist.
  pose proof (Rle_0_sqr (fst p - fst q)). pose proof (Rle_0_sqr (snd p - snd q)).
  unfold Rsqr in *. lra.
Qed.

Lemma gaussian_term_le_1 (h : R) (x y : point) :
  0 < h -> exp (- sqdist y x / (2 * h * h)) <= 1.
Proof.
  intros Hh. rewrite <- exp_0.
  pose proof (sqdist_nonneg y x) as Hd.
  assert (Hc : 0 < 2 * h * h) by nra.
  assert (Hq : - sqdist y x / (2 * h * h) <= 0).
  { unfold Rdiv. rewrite <- Ropp_mult_distr_l.
    pose proof (Rinv_0_lt_compat _ Hc). nra. }
  destruct (Req_dec_T (- sqdist y x / (2 * h * h)) 0) as [-> | Hne]; [lra |].
  left. apply exp_increasing. lra.
Qed.

Lemma gaussian_sum_upper (h : R) (X : list point) (y : point) :
  0 < h -> gaussian_sum h X y <= INR (List.length X).
Proof.
  intros Hh. induction X as [| x X IH].
  - simpl. lra.
  - cbn [gaussian_sum fold_right List.length]. rewrite S_INR.
    pose proof (gaussian_term_le_1 h x y Hh). fold (gaussian_sum h X y). lra.
Qed.

Lemma PI_bounds : 3 < PI <= 4.
Proof. split; [pose proof PI2_3_2; lra | apply PI_4]. Qed.

(** With a bandwidth of at least 1 the Gaussian density is at most 1. *)
Lemma gaussian_density_upper (h : R) (X : list point) (y : point) :
  1 <= h -> X <> [] -> gaussian_density h X y <= 1.
Proof.
  intros Hh HX. unfold gaussian_density.
  pose proof PI_bounds as HPI.
  assert (HN : 1 <= INR (List.length X)).
  { destruct X as [| x X]; [congruence |]. cbn [List.length]. rewrite S_INR.
    pose proof (pos_INR (List.length X)). lra. }
  pose proof (gaussian_sum_upper h X y ltac:(lra)) as Hs.
  assert (Hc : 1 <= 2 * PI * h * h) by nra.
  assert (Hd : INR (List.length X) <= INR (List.length X) * (2 * PI * h * h)) by nra.
  apply (Rmult_le_reg_r (INR (List.length X) * (2 * PI * h * h))); [lra |].
  unfold Rdiv. rewrite Rmult_assoc, Rinv_l by lra. lra.
Qed.

Lemma gaussian_density_no_overflow (h : R) (X : list point) (y : point) :
  1 <= h -> X <> [] -> gaussian_density h X y < overflow_threshold.
Proof.
  intros Hh HX. pose proof (gaussian_density_upper h X y Hh HX).
  pose proof float_max_large. pose proof float_max_below_overflow. lra.
Qed.

Lemma gaussian_sum_lower (h : R) (X : list point) (x y : point) :
  In x X -> exp (- sqdist y x / (2 * h * h)) <= gaussian_sum h X y.
Proof.
  induction X as [| x' X IH]; [contradiction |].
  cbn [gaussian_sum fold_right]. fold (gaussian_sum h X y).
  pose proof (gaussian_sum_nonneg h X y).
  pose proof (exp_pos (- sqdist y x' / (2 * h * h))).
  intros [-> | Hin]; [lra | specialize (IH Hin); lra].
Qed.

(** A point of the sample within the bandwidth gives a density that is
    far from underflowing, for the sizes and bandwidths met in practice. *)
Lemma gaussian_density_lower (h : R) (X : list point) (x y : point) :
  1 <= h -> In x X -> sqdist y x <= 2 * h * h ->
  / (24 * INR (List.length X) * h * h) <= gaussian_density h X y.
Proof.
  intros Hh Hin Hd. unfold gaussian_density.
  pose proof PI_bounds as HPI.
  assert (HN : 1 <= INR (List.length X)).
  { destruct X as [| x' X]; [contradiction |]. cbn [List.length]. rewrite S_INR.
    pose proof (pos_INR (List.length X)). lra. }
  pose proof (gaussian_sum_lower h X x y Hin) as Hs.
  assert (He : / 3 <= exp (- sqdist y x / (2 * h * h))).
  { apply Rle_trans with (exp (Ropp 1)).
    - rewrite exp_Ropp. apply Rinv_le_contravar; [apply exp_pos | apply exp_le_3].
    - assert (Hq : Ropp 1 <= - sqdist y x / (2 * h * h)).
      { assert (Hc0 : 0 < 2 * h * h) by nra.
        pose proof (Rinv_0_lt_compat _ Hc0) as Hi.
        pose proof (Rinv_r (2 * h * h) ltac:(lra)) as Hr.
        pose proof (sqdist_nonneg y x) as Hs0.
        unfold Rdiv. nra. }
      destruct (Req_dec_T (Ropp 1) (- sqdist y x / (2 * h * h))) as [<- | Hne];
        [lra |].
      left. apply exp_increasing. lra. }
  assert (Hhh : 1 <= h * h) by nra.
  replace (2 * PI * h * h) with (2 * PI * (h * h)) by ring.
  replace (24 * INR (List.length X) * h * h)
    with (24 * INR (List.length X) * (h * h)) by ring.
  set (hh := h * h) in *. set (N := INR (List.length X)) in *.
  assert (HNh : 1 <= N * hh) by nra.
  assert (HD : 0 < N * (2 * PI * hh) <= 8 * (N * hh)).
  { replace (N * (2 * PI * hh)) with (2 * PI * (N * hh)) by ring.
    generalize dependent (N * hh). intros Nh HNh. nra. }
  assert (Hi : / (8 * (N * hh)) <= / (N * (2 * PI * hh))).
  { apply Rinv_le_contravar; lra. }
  assert (Hi0 : 0 < / (8 * (N * hh))) by (apply Rinv_0_lt_compat; lra).
  replace (/ (24 * N * hh)) with (/ 3 * / (8 * (N * hh))) by (field; nra).
  unfold Rdiv. apply Rmult_le_compat; lra.
Qed.

Lemma sample_density_defined :
  underflow_threshold
  < gaussian_density 600 ([(50, 50)] ++ X_p_of (Some [(120, 30)])) (0, 0).
Proof.
  pose proof (gaussian_density_lower 600 ([(50, 50)] ++ X_p_of (Some [(120, 30)]))
                (50, 50) (0, 0)) as H.
  cbn [X_p_of app List.length INR] in H.
  assert (Hd : sqdist (0, 0) (50, 50) <= 2 * 600 * 600)
    by (unfold sqdist; cbn [fst snd]; lra).
  specialize (H ltac:(lra) ltac:(now left) Hd).
  pose proof min_subnormal_tiny as Ht. pose proof min_subnormal_pos as Hm.
  pose proof underflow_threshold_half as Hh.
  assert (Hc : / 10 ^ 15 < / (24 * (1 + 1) * 600 * 600)).
  { apply Rinv_lt_contravar; [| simpl; lra].
    apply Rmult_lt_0_compat; [lra | apply pow_lt; lra]. }
  cbn [X_p_of app]. lra.
Qed.

Lemma calculate_kde_normalised_witness :
  exists m,
    In m (map (fun y => clamp_pos
                 (gaussian_density 600 ([(50, 50)] ++ X_p_of (Some [(120, 30)])) y))
              [(0, 0); (200, 0)]) /\
    Forall (fun v => v <= m)
      (map (fun y => clamp_pos
              (gaussian_density 600 ([(50, 50)] ++ X_p_of (Some [(120, 30)])) y))
           [(0, 0); (200, 0)]) /\
    0 < m /\
    calculate_kde (fun _ _ _ _ => Ret []) [(0, 0); (200, 0)] [(50, 50)]
      (Some [(120, 30)]) 600 None 9 true
    = Ret (map (fun v => np_div (Fin v) (Fin m))
             (map (fun y => clamp_pos
                     (gaussian_density 600 ([(50, 50)] ++ X_p_of (Some [(120, 30)])) y))
                  [(0, 0); (200, 0)])) /\
    In (Fin 1)
      (map (fun v => np_div (Fin v) (Fin m))
         (map (fun y => clamp_pos
                 (gaussian_density 600 ([(50, 50)] ++ X_p_of (Some [(120, 30)])) y))
              [(0, 0); (200, 0)])) /\
    Forall (fun v => 0 <= v ->
              exists c, np_div (Fin v) (Fin m) = Fin c /\ 0 <= c <= 1)
      (map (fun y => clamp_pos
              (gaussian_density 600 ([(50, 50)] ++ X_p_of (Some [(120, 30)])) y))
           [(0, 0); (200, 0)]) /\
    (@None (list R) = None ->
     List.length
       (map (fun y => clamp_pos
               (gaussian_density 600 ([(50, 50)] ++ X_p_of (Some [(120, 30)])) y))
            [(0, 0); (200, 0)])
     = List.length [(0, 0); (200, 0)] /\
     Forall (fun v => 0 <= v)
       (map (fun y => clamp_pos
               (gaussian_density 600 ([(50, 50)] ++ X_p_of (Some [(120, 30)])) y))
            [(0, 0); (200, 0)])).
Proof.
  refine (proj1 (calculate_kde_normalised (fun _ _ _ _ => Ret [])
                   [(0, 0); (200, 0)] [(50, 50)] (Some [(120, 30)]) 600 None 9 true
                   (map (fun y => clamp_pos
                           (gaussian_density 600
                              ([(50, 50)] ++ X_p_of (Some [(120, 30)])) y))
                        [(0, 0); (200, 0)]) _) _).
  - split; [discriminate |]. split; [discriminate |]. split; [lra |].
    split; [| reflexivity].
    intros y _. apply gaussian_density_no_overflow; [lra | discriminate].
  - apply Exists_cons_hd.
    pose proof (clamp_pos_lower _ sample_density_defined).
    pose proof min_subnormal_pos. lra.
Defined.

(** C6, counterexample.  One building and one cell centroid 30 km away,
    default bandwidth of 600 m, no weights: the density underflows to 0 at
    the only centroid, the maximum is 0 and the surface is NaN; it has no
    value 1. *)
Lemma calculate_kde_far_sample_is_nan :
  calculate_kde (fun _ _ _ _ => Ret []) [(30000, 0)] [(0, 0)] None 600 None 9 true
  = Ret [NaN] /\
  ~ (exists col,
        calculate_kde (fun _ _ _ _ => Ret []) [(30000, 0)] [(0, 0)] None 600 None 9 true
        = Ret col /\ In (Fin 1) col).
Proof.
  assert (H : calculate_kde (fun _ _ _ _ => Ret []) [(30000, 0)] [(0, 0)] None
                600 None 9 true = Ret [NaN]).
  { rewrite calculate_kde_unweighted_fit; [| discriminate | discriminate | lra].
    cbn [X_p_of app map np_exp].
    match goal with |- context [exp (ln ?d)] => set (dens := d) end.
    assert (Hpos : 0 < dens).
    { apply gaussian_density_pos; [lra | discriminate]. }
    rewrite exp_ln by assumption.
    assert (Hu : dens <= underflow_threshold).
    { unfold dens, gaussian_density, gaussian_sum.
      cbn [fold_right List.length INR].
      replace (- sqdist (30000, 0) (0, 0) / (2 * 600 * 600)) with (- INR 1250).
      2:{ rewrite INR_IZR_INZ. change (Z.of_nat 1250) with 1250%Z.
          unfold sqdist. cbn [fst snd]. field. }
      pose proof (exp_neg_nat 1250) as He.
      pose proof (exp_pos (- INR 1250)) as Hp.
      assert (Hle : / 2 ^ 1250 <= underflow_threshold).
      { unfold underflow_threshold.
        apply Rinv_le_contravar; [apply pow2_pos |].
        apply Rle_pow; [lra | lia]. }
      pose proof PI_bounds as HPI.
      assert (Hc : 1 <= 1 * (2 * PI * 600 * 600)) by lra.
      apply Rle_trans with (exp (- INR 1250)); [| lra].
      apply (Rmult_le_reg_r (1 * (2 * PI * 600 * 600))); [lra |].
      unfold Rdiv. rewrite Rmult_assoc, Rinv_l by lra. nra. }
    clearbody dens.
    pose proof float_max_large. pose proof float_max_below_overflow.
    pose proof min_subnormal_small. pose proof min_subnormal_pos.
    pose proof underflow_threshold_half.
    rewrite round_range_clamp by (rewrite Rabs_right; lra).
    rewrite clamp_nonneg by lra. rewrite clamp_pos_underflow by lra.
    apply (normalise_by_max_all_zero 0). }
  split; [exact H |].
  intros [col [Hcol Hin]]. rewrite H in Hcol. injection Hcol as <-.
  destruct Hin as [Hin | []]. discriminate.
Qed.

End KdeFacts.

Section BlockFacts.

Import PopulationUtils.
Import AggregatedSquares.
Local Open Scope string_scope.
Local Open Scope list_scope.
Local Open Scope Z_scope.

(** C3, on the code.  In conservative mode, on [grid_mixed_width], the block
    centred on (300, 100) is produced and its [indices] list has 26 entries:
    the slot of offset (0, 0) received the two indices 0 and 1. *)
Theorem conservative_indices_26_slots :
  exists sq rest,
    get_aggregated_squares grid_mixed_width 200 true = Ret (sq :: rest) /\
    sq = index_square_conservative (300, 100) grid_mixed_width 400 /\
    slot (300, 100) grid_mixed_width 0 0 = [Some 0; Some 1] /\
    option_map (@List.length _) (indices sq) = Some 26%nat.
Proof.
  eexists. eexists. split; [vm_compute; reflexivity |].
  split; [vm_compute; reflexivity |].
  split; vm_compute; reflexivity.
Qed.

(** The same happens when one identifier occurs on two rows. *)
Lemma conservative_indices_duplicate_id :
  let df := [ {| index := 0; idINSPIRE := "CRS3035RES200mN2029800E4252400";
                 pop_count := 3%Q;
                 geometry := {| xmin := 4252400; ymin := 2029800;
                                xmax := 4252600; ymax := 2030000 |} |};
              {| index := 1; idINSPIRE := "CRS3035RES200mN2029800E4252400";
                 pop_count := 3%Q;
                 geometry := {| xmin := 4252400; ymin := 2029800;
                                xmax := 4252600; ymax := 2030000 |} |} ] in
  option_map (@List.length _)
    (indices (index_square_conservative (4252500, 2029900) df 400))
  = Some 26%nat.
Proof. vm_compute. reflexivity. Qed.

Lemma slot_length_one (NE : Z * Z) (df : list insee_row) (y_diff x_diff : Z) :
  (List.length (filter (fun r => str_contains (coords_match NE y_diff x_diff)
                                              (idINSPIRE r)) df) <= 1)%nat ->
  List.length (slot NE df y_diff x_diff) = 1%nat.
Proof.
  unfold slot.
  destruct (filter _ df) as [| r [| r' l]]; simpl; intros H; try reflexivity; lia.
Qed.

Lemma flat_map_length_const {A B : Type} (f : A -> list B) (l : list A) (n : nat) :
  (forall a, In a l -> List.length (f a) = n) ->
  List.length (flat_map f l) = (List.length l * n)%nat.
Proof.
  induction l as [| a l IH]; intros H; simpl.
  - reflexivity.
  - rewrite length_app, H by (now left).
    rewrite IH by (intros; apply H; now right). reflexivity.
Qed.

(** X15.  When the pattern of every relative offset occurs in at most one
    identifier, the list has its 25 slots, northing offsets outside, easting
    offsets inside, both ascending, and a slot without square holds the
    null. *)
Lemma conservative_indices_25_when_unique (NE : Z * Z) (df : list insee_row)
    (offset_index : Z) :
  (forall y_diff x_diff, In y_diff offsets -> In x_diff offsets ->
     (List.length (filter (fun r => str_contains (coords_match NE y_diff x_diff)
                                                 (idINSPIRE r)) df) <= 1)%nat) ->
  exists l,
    indices (index_square_conservative NE df offset_index) = Some l /\
    List.length l = 25%nat /\
    l = map (fun yx =>
               match filter (fun r => str_contains (coords_match NE (fst yx) (snd yx))
                                                   (idINSPIRE r)) df with
               | r :: _ => Some (index r)
               | [] => None
               end)
            (list_prod offsets offsets).
Proof.
  intros H. eexists. split; [reflexivity |]. split.
  - rewrite (flat_map_length_const _ offsets 5); [reflexivity |].
    intros y Hy.
    rewrite (flat_map_length_const _ offsets 1); [reflexivity |].
    intros x Hx. apply slot_length_one. now apply H.
  - assert (Hs : forall y x, In y offsets -> In x offsets ->
                 slot NE df y x =
                 [match filter (fun r => str_contains (coords_match NE y x)
                                                      (idINSPIRE r)) df with
                  | r :: _ => Some (index r)
                  | [] => None
                  end]).
    { intros y x Hy Hx. specialize (H y x Hy Hx). unfold slot.
      destruct (filter _ df) as [| r [| r' l]]; simpl in *; try reflexivity; lia. }
    unfold offsets in *. simpl.
    rewrite !Hs by (simpl; tauto). reflexivity.
Qed.

(** The guarded parse never raises, and gives two NaN exactly when the
    unguarded one raises. *)
Lemma get_northing_easting_guarded (x : insee_row) :
  match northing_easting (idINSPIRE x) with
  | Ret (north, east) => get_northing_easting x = (Some north, Some east)
  | Raise _ => get_northing_easting x = (None, None)
  end.
Proof.
  unfold get_northing_easting.
  destruct (northing_easting (idINSPIRE x)) as [[n e] | []]; reflexivity.
Qed.

(** Rows with NaN coordinates do not move the bounds of the mesh. *)
Lemma skipna_fold_app_nan (f : Z -> Z -> Z) (col : list (option Z)) :
  skipna_fold f (col ++ [None]) = skipna_fold f col.
Proof.
  unfold skipna_fold. rewrite fold_left_app. simpl.
  destruct (fold_left _ col None); reflexivity.
Qed.

Lemma centroid_mesh_ignores_nan (coordinates : list (option Z * option Z))
    (coords_offset : Z) (step : positive) :
  centroid_mesh (coordinates ++ [(None, None)]) coords_offset step
  = centroid_mesh coordinates coords_offset step.
Proof.
  unfold centroid_mesh, col_min, col_max.
  rewrite !map_app. simpl. rewrite !skipna_fold_app_nan. reflexivity.
Qed.

(** C8, on the code.  The inner [get_northing_easting] of
    [get_population_df_filled_empty_squares] has no exception handler: a
    frame holding one identifier without coordinates (here ["CRS"], after a
    well-formed one) makes the whole call raise [IndexError], whatever the
    convex-hull predicate; the sibling parse of [get_aggregated_squares]
    gives that row two NaN coordinates instead. *)
Theorem filled_empty_squares_aborts_on_bad_id
    (convex_hull_intersects : list box -> box -> bool) :
  let good := {| index := 0; idINSPIRE := "CRS3035RES200mN2029800E4252400";
                 pop_count := 12%Q;
                 geometry := {| xmin := 4252400; ymin := 2029800;
                                xmax := 4252600; ymax := 2030000 |} |} in
  let bad := {| index := 1; idINSPIRE := "CRS"; pop_count := 0%Q;
                geometry := {| xmin := 4252600; ymin := 2029800;
                               xmax := 4252800; ymax := 2030000 |} |} in
  FilledEmptySquares.get_population_df_filled_empty_squares
    convex_hull_intersects [good; bad] = Raise IndexError /\
  FilledEmptySquares.get_northing_easting bad = Raise IndexError /\
  AggregatedSquares.get_northing_easting bad = (None, None).
Proof. repeat split. Qed.

Lemma mapM_Ret {A B : Type} (f : A -> result B) (l : list A) :
  (forall x, In x l -> exists y, f x = Ret y) ->
  exists ys, mapM f l = Ret ys /\ List.length ys = List.length l.
Proof.
  induction l as [| a l IH]; intros H; simpl.
  - exists []. split; reflexivity.
  - destruct (H a (or_introl eq_refl)) as [y Hy].
    destruct IH as [ys [Hys Hlen]]; [intros x Hx; apply H; now right |].
    exists (y :: ys). rewrite Hy, Hys. simpl. split; [reflexivity | now rewrite Hlen].
Qed.

Lemma skipna_fold_all_some (f : Z -> Z -> Z) (vs : list Z) (acc : option Z) :
  (acc <> None \/ vs <> []) ->
  exists m, fold_left (fun acc v =>
                         match acc, v with
                         | Some a, Some b => Some (f a b)
                         | None, w => w
                         | a, None => a
                         end) (map Some vs) acc = Some m.
Proof.
  revert acc. induction vs as [| v vs IH]; intros acc H; simpl.
  - destruct H as [H | H]; [| congruence].
    destruct acc as [a |]; [now exists a | congruence].
  - apply IH. left. destruct acc; discriminate.
Qed.

Lemma centroid_mesh_returns (coords : list (Z * Z)) (coords_offset : Z)
    (step : positive) :
  coords <> [] ->
  exists pts,
    centroid_mesh (map (fun ne => (Some (fst ne), Some (snd ne))) coords)
                  coords_offset step = Ret pts.
Proof.
  intros Hne. unfold centroid_mesh, col_min, col_max, skipna_fold.
  rewrite !map_map. cbn [fst snd].
  rewrite <- (map_map fst Some), <- (map_map snd Some).
  assert (H1 : map fst coords <> []) by (destruct coords; [congruence | discriminate]).
  assert (H2 : map snd coords <> []) by (destruct coords; [congruence | discriminate]).
  destruct (skipna_fold_all_some Z.min (map fst coords) None (or_intror H1)) as [a ->].
  destruct (skipna_fold_all_some Z.max (map fst coords) None (or_intror H1)) as [b ->].
  destruct (skipna_fold_all_some Z.min (map snd coords) None (or_intror H2)) as [c ->].
  destruct (skipna_fold_all_some Z.max (map snd coords) None (or_intror H2)) as [d ->].
  eexists. reflexivity.
Qed.

Lemma arange_empty (a : Z) (step : positive) : arange a a step = [].
Proof.
  unfold arange.
  replace (a - a + Z.pos step - 1) with (Z.pos step - 1) by lia.
  rewrite Z.div_small by lia. reflexivity.
Qed.

(** [np.arange] is half-open: its values are the [start + i * step] that
    stay strictly below [stop]. *)
Lemma In_arange (a b v : Z) (step : positive) :
  In v (arange a b step) <->
  exists i : nat, v = a + Z.of_nat i * Z.pos step /\ v < b.
Proof.
  unfold arange. rewrite in_map_iff.
  set (s := Z.pos step). assert (Hs : 0 < s) by (unfold s; lia).
  set (q := (b - a + s - 1) / s).
  assert (Hq : forall i : nat, (i < Z.to_nat q)%nat <-> a + Z.of_nat i * s < b).
  { intros i. split; intros H.
    - assert (Hi : Z.of_nat i + 1 <= q) by lia.
      assert (Hm : s * q <= b - a + s - 1) by (apply Z.mul_div_le; lia).
      nia.
    - assert (Hi : Z.of_nat i + 1 <= q).
      { apply Z.div_le_lower_bound; [lia | nia]. }
      lia. }
  split.
  - intros [i [<- Hi]]. apply in_seq in Hi. exists i. split; [reflexivity |].
    apply Hq. lia.
  - intros [i [-> Hi]]. exists i. split; [reflexivity |].
    apply in_seq. apply Hq in Hi. lia.
Qed.

(** The mesh is half-open on both axes: its points are the
    [min + offset + i * step] that stay strictly below [max + offset]. *)
Lemma centroid_mesh_half_open (coordinates : list (option Z * option Z))
    (coords_offset : Z) (step : positive) (pts : list (Z * Z))
    (n_min n_max e_min e_max : Z) :
  col_min (map fst coordinates) = Some n_min ->
  col_max (map fst coordinates) = Some n_max ->
  col_min (map snd coordinates) = Some e_min ->
  col_max (map snd coordinates) = Some e_max ->
  centroid_mesh coordinates coords_offset step = Ret pts ->
  forall E N,
    In (E, N) pts <->
    (exists i j : nat,
        E = e_min + coords_offset + Z.of_nat i * Z.pos step /\
        E < e_max + coords_offset /\
        N = n_min + coords_offset + Z.of_nat j * Z.pos step /\
        N < n_max + coords_offset).
Proof.
  intros H1 H2 H3 H4 Hm E N.
  unfold centroid_mesh in Hm. rewrite H1, H2, H3, H4 in Hm.
  injection Hm as <-.
  unfold meshgrid_points. rewrite in_flat_map. split.
  - intros [y [Hy Hx]]. apply in_map_iff in Hx.
    destruct Hx as [x [Hxy Hx]]. injection Hxy as -> ->.
    apply In_arange in Hy, Hx.
    destruct Hy as [j [Hj Hjb]], Hx as [i [Hi Hib]].
    exists i, j. tauto.
  - intros [i [j [HE [HEb [HN HNb]]]]].
    exists N. split.
    + apply In_arange. now exists j.
    + apply in_map_iff. exists E. split; [reflexivity |].
      apply In_arange. now exists i.
Qed.

Lemma NoDup_map_injective {A B : Type} (f : A -> B) (l : list A) :
  (forall x y, In x l -> In y l -> f x = f y -> x = y) ->
  NoDup l -> NoDup (map f l).
Proof.
  induction l as [| a l IH]; intros Hinj Hnd; simpl; [constructor |].
  inversion Hnd as [| ? ? Ha Hl]; subst. constructor.
  - intros Hin. apply in_map_iff in Hin. destruct Hin as [x [E Hx]].
    apply Hinj in E; [| now right | now left]. now subst.
  - apply IH; [| exact Hl]. intros x y Hx Hy. apply Hinj; now right.
Qed.

Lemma arange_NoDup (a b : Z) (step : positive) : NoDup (arange a b step).
Proof.
  unfold arange. apply NoDup_map_injective; [| apply seq_NoDup].
  intros i j _ _ E. nia.
Qed.

Lemma meshgrid_points_NoDup (xs ys : list Z) :
  NoDup xs -> NoDup ys -> NoDup (meshgrid_points xs ys).
Proof.
  intros Hx Hy. unfold meshgrid_points.
  induction ys as [| y ys IH]; simpl; [constructor |].
  inversion Hy as [| ? ? Hin Hys]; subst.
  apply NoDup_app.
  - apply NoDup_map_injective; [| exact Hx]. now intros x x' _ _ [= ->].
  - now apply IH.
  - intros p Hp Hp'. apply in_map_iff in Hp. destruct Hp as [x [<- _]].
    apply in_flat_map in Hp'. destruct Hp' as [y' [Hy' Hp']].
    apply in_map_iff in Hp'. destruct Hp' as [x' [[= _ ->] _]]. contradiction.
Qed.

Lemma skipna_fold_attained (f : Z -> Z -> Z) (vs : list Z) (m : Z) :
  (forall a b, f a b = a \/ f a b = b) ->
  skipna_fold f (map Some vs) = Some m -> In m vs.
Proof.
  intros Hf. unfold skipna_fold.
  assert (H : forall acc,
             fold_left (fun acc v =>
                          match acc, v with
                          | Some a, Some b => Some (f a b)
                          | None, w => w
                          | a, None => a
                          end) (map Some vs) acc = Some m ->
             acc = Some m \/ In m vs).
  { induction vs as [| v vs IH]; intros acc E; simpl in E; [now left |].
    apply IH in E. destruct E as [E | E]; [| right; now right].
    destruct acc as [a |].
    - injection E as E. destruct (Hf a v) as [H | H]; rewrite H in E.
      + left. now subst.
      + right. left. now subst.
    - injection E as ->. right. now left. }
  intros E. apply H in E. destruct E as [E | E]; [discriminate | exact E].
Qed.

Lemma skipna_fold_bound (f : Z -> Z -> Z) (R : Z -> Z -> Prop) (vs : list Z)
    (m : Z) :
  (forall a, R a a) -> (forall a b c, R a b -> R b c -> R a c) ->
  (forall a b, R (f a b) a /\ R (f a b) b) ->
  skipna_fold f (map Some vs) = Some m -> forall v, In v vs -> R m v.
Proof.
  intros Hrefl Htrans Hf. unfold skipna_fold.
  assert (H : forall acc,
             fold_left (fun acc v =>
                          match acc, v with
                          | Some a, Some b => Some (f a b)
                          | None, w => w
                          | a, None => a
                          end) (map Some vs) acc = Some m ->
             (forall a, acc = Some a -> R m a) /\ (forall v, In v vs -> R m v)).
  { induction vs as [| v vs IH]; intros acc E; simpl in E.
    - subst. split; [intros a [= ->]; apply Hrefl | intros v []].
    - apply IH in E. destruct E as [E1 E2]. split.
      + intros a ->. specialize (E1 _ eq_refl).
        apply (Htrans _ _ _ E1), Hf.
      + intros w [<- | Hw]; [| now apply E2].
        destruct acc as [a |]; specialize (E1 _ eq_refl); [| exact E1].
        apply (Htrans _ _ _ E1), Hf. }
  intros E. apply H in E. apply E.
Qed.

Lemma mapM_Ret_length {A B : Type} (f : A -> result B) (l : list A) (ys : list B) :
  mapM f l = Ret ys -> List.length ys = List.length l.
Proof.
  revert ys. induction l as [| a l IH]; intros ys H; simpl in H.
  - now injection H as <-.
  - destruct (f a) as [y |]; [| discriminate]. simpl in H.
    destruct (mapM f l) as [ys' |]; [| discriminate]. simpl in H.
    injection H as <-. simpl. now rewrite (IH ys').
Qed.

(** The centre of a mesh square is uncovered when it lies in no observed
    square, borders included. *)
Lemma uncovered_spec (df : list insee_row) (E N : Z) :
  FilledEmptySquares.uncovered df (E, N) = true <->
  forall r, In r df ->
    ~ (xmin (geometry r) <= E <= xmax (geometry r) /\
       ymin (geometry r) <= N <= ymax (geometry r)).
Proof.
  unfold FilledEmptySquares.uncovered. rewrite forallb_forall.
  split; intros H r Hr; specialize (H r Hr); cbn [fst snd] in *.
  - apply negb_true_iff in H. unfold box_intersects, box_of_point in H.
    cbn [xmin xmax ymin ymax] in H. intros [H1 H2].
    assert (Ht : (E <=? xmax (geometry r)) && (xmin (geometry r) <=? E) &&
                 (N <=? ymax (geometry r)) && (ymin (geometry r) <=? N) = true).
    { rewrite !andb_true_iff, !Z.leb_le. lia. }
    congruence.
  - apply negb_true_iff. unfold box_intersects, box_of_point.
    cbn [xmin xmax ymin ymax].
    destruct ((E <=? xmax (geometry r)) && (xmin (geometry r) <=? E) &&
              (N <=? ymax (geometry r)) && (ymin (geometry r) <=? N)) eqn:Et;
      [| reflexivity].
    rewrite !andb_true_iff, !Z.leb_le in Et. exfalso. apply H. lia.
Qed.

(** The mesh of the backfill: its bounds are the least and the greatest
    parsed northing and easting, and its points, pairwise distinct, are the
    [min + 100 + 200 * i] that stay strictly below [max + 100]. *)
Lemma backfill_mesh (df : list insee_row) (coords : list (Z * Z)) :
  df <> [] ->
  mapM FilledEmptySquares.get_northing_easting df = Ret coords ->
  exists n_min n_max e_min e_max pts,
    (In n_min (map fst coords) /\ In n_max (map fst coords) /\
     In e_min (map snd coords) /\ In e_max (map snd coords) /\
     forall ne, In ne coords ->
       n_min <= fst ne <= n_max /\ e_min <= snd ne <= e_max) /\
    FilledEmptySquares.mesh df = Ret pts /\
    NoDup pts /\
    (forall E N, In (E, N) pts <->
       exists i j : nat,
         E = e_min + 100 + 200 * Z.of_nat i /\ E < e_max + 100 /\
         N = n_min + 100 + 200 * Z.of_nat j /\ N < n_max + 100).
Proof.
  intros Hne Hcoords.
  assert (Hc : coords <> []).
  { intros ->. apply mapM_Ret_length in Hcoords.
    destruct df; [congruence | discriminate]. }
  set (coordinates := map (fun ne : Z * Z => (Some (fst ne), Some (snd ne))) coords).
  assert (Hn : map fst coordinates = map Some (map fst coords)).
  { unfold coordinates. rewrite !map_map. reflexivity. }
  assert (He : map snd coordinates = map Some (map snd coords)).
  { unfold coordinates. rewrite !map_map. reflexivity. }
  assert (H1 : map fst coords <> []) by (destruct coords; [congruence | discriminate]).
  assert (H2 : map snd coords <> []) by (destruct coords; [congruence | discriminate]).
  destruct (skipna_fold_all_some Z.min (map fst coords) None (or_intror H1)) as [n_min Hnmin].
  destruct (skipna_fold_all_some Z.max (map fst coords) None (or_intror H1)) as [n_max Hnmax].
  destruct (skipna_fold_all_some Z.min (map snd coords) None (or_intror H2)) as [e_min Hemin].
  destruct (skipna_fold_all_some Z.max (map snd coords) None (or_intror H2)) as [e_max Hemax].
  fold (skipna_fold Z.min (map Some (map fst coords))) in Hnmin.
  fold (skipna_fold Z.max (map Some (map fst coords))) in Hnmax.
  fold (skipna_fold Z.min (map Some (map snd coords))) in Hemin.
  fold (skipna_fold Z.max (map Some (map snd coords))) in Hemax.
  set (pts := meshgrid_points (arange (e_min + 100) (e_max + 100) 200)
                              (arange (n_min + 100) (n_max + 100) 200)).
  assert (Hmesh : centroid_mesh coordinates 100 200 = Ret pts).
  { unfold centroid_mesh, col_min, col_max.
    rewrite Hn, He, Hnmin, Hnmax, Hemin, Hemax. reflexivity. }
  exists n_min, n_max, e_min, e_max, pts.
  split; [| split; [| split]].
  - split; [apply (skipna_fold_attained Z.min); [intros; lia | exact Hnmin] |].
    split; [apply (skipna_fold_attained Z.max); [intros; lia | exact Hnmax] |].
    split; [apply (skipna_fold_attained Z.min); [intros; lia | exact Hemin] |].
    split; [apply (skipna_fold_attained Z.max); [intros; lia | exact Hemax] |].
    intros ne Hin.
    assert (Hf : In (fst ne) (map fst coords)) by now apply in_map.
    assert (Hs : In (snd ne) (map snd coords)) by now apply in_map.
    pose proof (skipna_fold_bound Z.min Z.le (map fst coords) n_min
                  Z.le_refl Z.le_trans ltac:(intros; lia) Hnmin _ Hf).
    pose proof (skipna_fold_bound Z.max Z.ge (map fst coords) n_max
                  ltac:(intros; lia) ltac:(intros; lia) ltac:(intros; lia)
                  Hnmax _ Hf).
    pose proof (skipna_fold_bound Z.min Z.le (map snd coords) e_min
                  Z.le_refl Z.le_trans ltac:(intros; lia) Hemin _ Hs).
    pose proof (skipna_fold_bound Z.max Z.ge (map snd coords) e_max
                  ltac:(intros; lia) ltac:(intros; lia) ltac:(intros; lia)
                  Hemax _ Hs).
    lia.
  - unfold FilledEmptySquares.mesh. rewrite Hcoords. exact Hmesh.
  - apply meshgrid_points_NoDup; apply arange_NoDup.
  - intros E N.
    rewrite (centroid_mesh_half_open coordinates 100 200 pts
               n_min n_max e_min e_max); [| | | | | exact Hmesh].
    + split; intros [i [j H]]; exists i, j; lia.
    + unfold col_min. now rewrite Hn.
    + unfold col_max. now rewrite Hn.
    + unfold col_min. now rewrite He.
    + unfold col_max. now rewrite He.
Qed.

Lemma new_square_injective (p q : Z * Z) :
  FilledEmptySquares.new_square p = FilledEmptySquares.new_square q -> p = q.
Proof.
  destruct p as [x y], q as [x' y']. unfold FilledEmptySquares.new_square.
  cbn [fst snd]. intros E. injection E as E1 E2 _ _. f_equal; lia.
Qed.

Lemma filter_empty_rows (keep : box -> bool) (boxes : list box) :
  map FilledEmptySquares.f_geometry
      (filter (fun x => keep (FilledEmptySquares.f_geometry x))
              (map FilledEmptySquares.empty_row boxes))
  = filter keep boxes.
Proof.
  induction boxes as [| b boxes IH]; cbn [map filter]; [reflexivity |].
  cbn [FilledEmptySquares.empty_row FilledEmptySquares.f_geometry].
  destruct (keep b); cbn [map]; now rewrite IH.
Qed.

(** C7 as amended.  On a non-empty frame whose identifiers all parse, the
    mesh of the backfill runs, on each axis, from the least parsed
    coordinate plus 100 in steps of 200 and stays strictly below the
    greatest parsed coordinate plus 100.  The backfill synthesizes exactly
    one zero-population square of side 200 per mesh point that lies in no
    observed square, and returns the observed rows followed by the
    synthesized ones, keeping of both exactly those whose geometry
    intersects the convex hull of the observed squares; it returns as soon
    as a row is kept, which is the case when the hull meets an observed
    square, and raises otherwise.  When a single square is observed the
    mesh has no point and nothing is synthesized. *)
Theorem filled_empty_squares_spec
    (convex_hull_intersects : list box -> box -> bool) (df : list insee_row) :
  df <> [] ->
  (forall r, In r df -> exists ne, northing_easting (idINSPIRE r) = Ret ne) ->
  exists coords n_min n_max e_min e_max pts boxes out,
    mapM FilledEmptySquares.get_northing_easting df = Ret coords /\
    (In n_min (map fst coords) /\ In n_max (map fst coords) /\
     In e_min (map snd coords) /\ In e_max (map snd coords) /\
     forall ne, In ne coords ->
       n_min <= fst ne <= n_max /\ e_min <= snd ne <= e_max) /\
    FilledEmptySquares.mesh df = Ret pts /\
    NoDup pts /\
    (forall E N, In (E, N) pts <->
       exists i j : nat,
         E = e_min + 100 + 200 * Z.of_nat i /\ E < e_max + 100 /\
         N = n_min + 100 + 200 * Z.of_nat j /\ N < n_max + 100) /\
    FilledEmptySquares.empty_population_box df = Ret boxes /\
    NoDup boxes /\
    (forall b, In b boxes <->
       exists E N,
         In (E, N) pts /\
         (forall r, In r df ->
            ~ (xmin (geometry r) <= E <= xmax (geometry r) /\
               ymin (geometry r) <= N <= ymax (geometry r))) /\
         b = {| xmin := E - 100; ymin := N - 100;
                xmax := E + 100; ymax := N + 100 |}) /\
    (out <> [] ->
     FilledEmptySquares.get_population_df_filled_empty_squares
       convex_hull_intersects df = Ret out) /\
    (out = [] ->
     FilledEmptySquares.get_population_df_filled_empty_squares
       convex_hull_intersects df = Raise EmptyFrameError) /\
    ((exists r, In r df /\
                convex_hull_intersects (map geometry df) (geometry r) = true) ->
     out <> []) /\
    (exists observed synthesized,
       out = observed ++ synthesized /\
       observed =
         filter (fun x => convex_hull_intersects
                            (map geometry df) (FilledEmptySquares.f_geometry x))
                (map (fun r => {| FilledEmptySquares.f_idINSPIRE := Some (idINSPIRE r);
                                  FilledEmptySquares.f_pop_count := pop_count r;
                                  FilledEmptySquares.f_geometry := geometry r |})
                     df) /\
       Forall (fun x => FilledEmptySquares.f_idINSPIRE x = None /\
                        FilledEmptySquares.f_pop_count x = 0%Q) synthesized /\
       map FilledEmptySquares.f_geometry synthesized
       = filter (convex_hull_intersects (map geometry df)) boxes) /\
    (List.length df = 1%nat -> pts = [] /\ boxes = []).
Proof.
  intros Hne Hparse.
  destruct (mapM_Ret FilledEmptySquares.get_northing_easting df Hparse)
    as [coords [Hcoords Hlen]].
  destruct (backfill_mesh df coords Hne Hcoords)
    as [n_min [n_max [e_min [e_max [pts [Hbounds [Hmesh [Hnd Hpts]]]]]]]].
  set (keep := fun x : FilledEmptySquares.filled_row =>
                 convex_hull_intersects (map geometry df)
                                        (FilledEmptySquares.f_geometry x)).
  set (boxes := map FilledEmptySquares.new_square
                    (filter (FilledEmptySquares.uncovered df) pts)).
  exists coords, n_min, n_max, e_min, e_max, pts, boxes.
  exists (filter keep (map FilledEmptySquares.of_insee_row df)
          ++ filter keep (map FilledEmptySquares.empty_row boxes)).
  split; [exact Hcoords |]. split; [exact Hbounds |].
  split; [exact Hmesh |]. split; [exact Hnd |]. split; [exact Hpts |].
  split; [unfold FilledEmptySquares.empty_population_box; rewrite Hmesh; reflexivity |].
  split.
  { apply NoDup_map_injective; [| now apply NoDup_filter].
    intros p q _ _. apply new_square_injective. }
  split.
  { intros b. unfold boxes. rewrite in_map_iff. split.
    - intros [[E N] [<- HEN]]. apply filter_In in HEN. destruct HEN as [Hin Hunc].
      exists E, N. split; [exact Hin |]. split; [now apply uncovered_spec |].
      reflexivity.
    - intros [E [N [Hin [Hunc ->]]]]. exists (E, N). split; [reflexivity |].
      apply filter_In. split; [exact Hin | now apply uncovered_spec]. }
  assert (Hrun : FilledEmptySquares.get_population_df_filled_empty_squares
                   convex_hull_intersects df
                 = match filter keep (map FilledEmptySquares.of_insee_row df)
                         ++ filter keep (map FilledEmptySquares.empty_row boxes) with
                   | [] => Raise EmptyFrameError
                   | out => Ret out
                   end).
  { unfold FilledEmptySquares.get_population_df_filled_empty_squares,
      FilledEmptySquares.empty_population_box.
    destruct df as [| r0 df0]; [congruence |].
    rewrite Hmesh. cbn [bind]. fold boxes. rewrite filter_app. fold keep.
    destruct (filter keep _ ++ filter keep _); reflexivity. }
  split.
  { intros Hout. rewrite Hrun.
    destruct (filter keep _ ++ filter keep _); [congruence | reflexivity]. }
  split.
  { intros Hout. rewrite Hrun, Hout. reflexivity. }
  split.
  { intros [r [Hr Hk]] Hout. apply app_eq_nil in Hout. destruct Hout as [Hout _].
    assert (Hin : In (FilledEmptySquares.of_insee_row r)
                     (filter keep (map FilledEmptySquares.of_insee_row df))).
    { apply filter_In. split; [now apply in_map | exact Hk]. }
    rewrite Hout in Hin. contradiction. }
  split.
  { exists (filter keep (map FilledEmptySquares.of_insee_row df)),
           (filter keep (map FilledEmptySquares.empty_row boxes)).
    split; [reflexivity |]. split; [reflexivity |]. split.
    - apply Forall_forall. intros x Hx. apply filter_In in Hx.
      destruct Hx as [Hx _]. apply in_map_iff in Hx.
      destruct Hx as [b [<- _]]. split; reflexivity.
    - apply filter_empty_rows. }
  intros H1.
  assert (Hnone : pts = []).
  { destruct Hbounds as [Hn1 [Hn2 [He1 [He2 _]]]].
    destruct coords as [| c [| ? ?]]; simpl in Hlen; try lia.
    simpl in Hn1, Hn2. destruct Hn1 as [Hn1 | []], Hn2 as [Hn2 | []].
    destruct pts as [| [E N] pts']; [reflexivity |].
    destruct (proj1 (Hpts E N) (or_introl eq_refl)) as [i [j H]]. lia. }
  split; [exact Hnone |]. unfold boxes. now rewrite Hnone.
Qed.

Lemma filled_empty_squares_spec_witness :
  exists pts boxes out,
    FilledEmptySquares.mesh grid_diagonals = Ret pts /\
    FilledEmptySquares.empty_population_box grid_diagonals = Ret boxes /\
    FilledEmptySquares.get_population_df_filled_empty_squares
      (fun _ _ => true) grid_diagonals = Ret out /\
    NoDup pts /\ NoDup boxes /\
    List.length pts = 9%nat /\ List.length boxes = 6%nat /\
    List.length out = 11%nat.
Proof.
  destruct (filled_empty_squares_spec (fun _ _ => true) grid_diagonals) as
    [coords [n_min [n_max [e_min [e_max [pts [boxes [out
      [_ [_ [H1 [Hnd [_ [H2 [Hndb [_ [H3 [_ [Hkept _]]]]]]]]]]]]]]]]]]].
  - discriminate.
  - intros r Hr. simpl in Hr.
    repeat (destruct Hr as [<- | Hr]; [eexists; reflexivity |]).
    contradiction.
  - assert (Hout : out <> []).
    { apply Hkept. eexists. split; [left; reflexivity | reflexivity]. }
    specialize (H3 Hout).
    exists pts, boxes, out.
    split; [exact H1 |]. split; [exact H2 |]. split; [exact H3 |].
    split; [exact Hnd |]. split; [exact Hndb |].
    vm_compute in H1, H2, H3.
    injection H1 as <-. injection H2 as <-. injection H3 as <-.
    repeat split.
Defined.

(** C7, counterexample.  Only the centre square of a 3 x 3 neighbourhood is
    observed: the bounds of [np.arange] coincide, the mesh is empty, and the
    backfill synthesizes no square at all, not 8. *)
Lemma backfill_single_cell_synthesizes_nothing :
  FilledEmptySquares.mesh grid_centre_only = Ret [] /\
  FilledEmptySquares.empty_population_box grid_centre_only = Ret [] /\
  ~ (exists boxes,
        FilledEmptySquares.empty_population_box grid_centre_only = Ret boxes /\
        List.length boxes = 8%nat).
Proof.
  split; [reflexivity |]. split; [reflexivity |].
  intros [boxes [H Hlen]]. vm_compute in H. injection H as <-. discriminate.
Qed.

End BlockFacts.

Section AggregationFacts.

Import Geometry.
Import UrbanFeatures.
Local Open Scope Q_scope.

Context {geom : Type} {shapely : Shapely geom}.

Lemma py_div_Ret (a b : Q) : ~ b == 0 -> py_div a b = Ret (a / b).
Proof.
  intros Hb. unfold py_div.
  destruct (Qeq_bool b 0) eqn:E; [| reflexivity].
  apply Qeq_bool_eq in E. contradiction.
Qed.

Lemma fold_left_Qplus_acc (l : list Q) (a : Q) :
  fold_left Qplus l a == a + fold_left Qplus l 0.
Proof.
  revert a. induction l as [| x l IH]; intros a; simpl.
  - ring.
  - rewrite (IH (a + x)), (IH (0 + x)). ring.
Qed.

Lemma Qsum_cons (x : Q) (l : list Q) : Qsum (x :: l) == x + Qsum l.
Proof.
  unfold Qsum. simpl. rewrite fold_left_Qplus_acc. ring.
Qed.

Lemma Qsum_map_ext {A : Type} (f g : A -> Q) (l : list A) :
  (forall x, In x l -> f x == g x) -> Qsum (map f l) == Qsum (map g l).
Proof.
  induction l as [| x l IH]; intros H; simpl.
  - reflexivity.
  - rewrite !Qsum_cons.
    assert (Hx : f x == g x) by (apply H; now left).
    assert (Hl : Qsum (map f l) == Qsum (map g l)).
    { apply IH. intros y Hy. apply H. now right. }
    rewrite Hx, Hl. reflexivity.
Qed.

Lemma Qsum_map_scale {A : Type} (f : A -> Q) (k : Q) (l : list A) :
  Qsum (map (fun x => f x * k) l) == Qsum (map f l) * k.
Proof.
  induction l as [| x l IH]; simpl.
  - unfold Qsum; simpl. ring.
  - rewrite !Qsum_cons, IH. ring.
Qed.

Lemma mapM_map {A B : Type} (f : A -> result B) (g : A -> B) (l : list A) :
  (forall x, In x l -> f x = Ret (g x)) -> mapM f l = Ret (map g l).
Proof.
  induction l as [| x l IH]; intros H; simpl.
  - reflexivity.
  - rewrite (H x) by (now left).
    rewrite IH by (intros y Hy; apply H; now right).
    reflexivity.
Qed.

Lemma mapM_map_map {A B C : Type} (f : B -> result C) (h : A -> B) (g : A -> C)
    (l : list A) :
  (forall x, In x l -> f (h x) = Ret (g x)) -> mapM f (map h l) = Ret (map g l).
Proof.
  intros H. induction l as [| x l IH]; simpl.
  - reflexivity.
  - rewrite (H x) by (now left). simpl.
    rewrite IH by (intros y Hy; apply H; now right).
    reflexivity.
Qed.

Lemma row_features_of_building (b : Building) (res act : Q) (c : GridCell) :
  ~ area (b_geometry b) == 0 ->
  dict_get (landuses_m2 b) "residential" = Ret res ->
  dict_get (landuses_m2 b) "activity" = Ret act ->
  row_features (row_of_building c b) = Ret (apportioned b res act c).
Proof.
  intros Ha Hres Hact.
  unfold row_features, building_ratio. cbn [row_of_building geom_building
    row_geometry row_landuses_m2 row_building_levels row_classification].
  rewrite py_div_Ret by assumption. cbn [bind].
  rewrite Hres, Hact. reflexivity.
Qed.

(** C1.  The weight of building [b] in a cell is
    [area(b ∩ cell) / area(b)]; it is 1 when the intersection has the whole
    area of the building; and over cells whose intersections add up to the
    area of the building the weights sum to 1, so that the apportioned floor
    areas, levels, building count and built-up area sum to those of the
    building itself. *)
Theorem building_ratio_apportions (b : Building) (cells : list GridCell)
    (res act : Q) :
  0 < area (b_geometry b) ->
  dict_get (landuses_m2 b) "residential" = Ret res ->
  dict_get (landuses_m2 b) "activity" = Ret act ->
  (forall c, building_ratio (row_of_building c b)
             = Ret (area (intersection (b_geometry b) (geometry c))
                    / area (b_geometry b))) /\
  (forall c, area (intersection (b_geometry b) (geometry c)) == area (b_geometry b) ->
     exists r, building_ratio (row_of_building c b) = Ret r /\ r == 1) /\
  (Qsum (map (fun c => area (intersection (b_geometry b) (geometry c))) cells)
   == area (b_geometry b) ->
   exists rs fs,
     mapM building_ratio (map (fun c => row_of_building c b) cells) = Ret rs /\
     Qsum rs == 1 /\
     mapM row_features (map (fun c => row_of_building c b) cells) = Ret fs /\
     Qsum (map num_buildings fs) == 1 /\
     Qsum (map m2_total_residential fs) == res /\
     Qsum (map m2_total_activity fs) == act /\
     Qsum (map num_levels fs) == building_levels b /\
     Qsum (map built_up_m2 fs) == area (b_geometry b)).
Proof.
  intros Hpos Hres Hact.
  assert (Hnz : ~ area (b_geometry b) == 0) by (intros E; rewrite E in Hpos; lra).
  assert (Hratio : forall c, building_ratio (row_of_building c b)
             = Ret (area (intersection (b_geometry b) (geometry c))
                    / area (b_geometry b))).
  { intros c. unfold building_ratio. cbn [row_of_building geom_building row_geometry].
    now apply py_div_Ret. }
  split; [exact Hratio |]. split.
  - intros c Hc. eexists. split; [apply Hratio |]. rewrite Hc. now field.
  - intros Hcover.
    set (a := fun c : GridCell => area (intersection (b_geometry b) (geometry c))) in *.
    set (A := area (b_geometry b)) in *.
    assert (Hscaled : forall k,
               Qsum (map (fun c => a c * (/ A * k)) cells) == k).
    { intros k. rewrite Qsum_map_scale, Hcover. now field. }
    exists (map (fun c => a c / A) cells), (map (apportioned b res act) cells).
    repeat split.
    + apply mapM_map_map. intros c _. apply Hratio.
    + etransitivity; [| apply (Hscaled 1)]. apply Qsum_map_ext. intros c _. now field.
    + apply mapM_map_map. intros c _. now apply row_features_of_building.
    + rewrite map_map. cbn [apportioned num_buildings].
      etransitivity; [| apply (Hscaled 1)]. apply Qsum_map_ext. intros c _.
      fold (a c) A. now field.
    + rewrite map_map. cbn [apportioned m2_total_residential].
      etransitivity; [| apply (Hscaled res)]. apply Qsum_map_ext. intros c _.
      fold (a c) A. now field.
    + rewrite map_map. cbn [apportioned m2_total_activity].
      etransitivity; [| apply (Hscaled act)]. apply Qsum_map_ext. intros c _.
      fold (a c) A. now field.
    + rewrite map_map. cbn [apportioned num_levels].
      etransitivity; [| apply (Hscaled (building_levels b))]. apply Qsum_map_ext.
      intros c _. fold (a c) A. now field.
    + rewrite map_map. cbn [apportioned built_up_m2].
      etransitivity; [| apply (Hscaled A)]. apply Qsum_map_ext. intros c _.
      fold (a c) A. now field.
Qed.

Lemma area_min_polygon_pos : 0 < area min_polygon.
Proof.
  unfold min_polygon. rewrite area_Polygon. vm_compute. reflexivity.
Qed.

Lemma filter_none {A : Type} (f : A -> bool) (l : list A) :
  (forall x, In x l -> f x = false) -> filter f l = [].
Proof.
  induction l as [| x l IH]; intros H; simpl.
  - reflexivity.
  - rewrite (H x) by (now left). apply IH. intros y Hy. apply H. now right.
Qed.

(** C4 as amended.  A cell that intersects no building gets the single
    placeholder row: the triangle has a strictly positive area, so the
    division of [building_ratio] does not raise, and the cell ends with 0 in
    the floor-area, footprint, per-class count and level columns.  Its
    [num_buildings] is the weight [area(triangle ∩ cell) / area(triangle)]
    and its [built_up_relation] is [area(triangle ∩ cell) / area(cell)]:
    both are 0 when the cell does not overlap the triangle at the origin. *)
Theorem empty_cell_features (cell : GridCell) (df_osm_built : list Building) :
  (forall b, In b df_osm_built ->
             intersects (geometry cell) (b_geometry b) = false) ->
  ~ area (geometry cell) == 0 ->
  let overlap := area (intersection min_polygon (geometry cell)) in
  0 < area min_polygon /\
  cell_rows cell df_osm_built = [row_of_null cell] /\
  building_ratio (row_of_null cell) = Ret (overlap / area min_polygon) /\
  exists f,
    urban_features cell df_osm_built = Ret f /\
    m2_total_residential (sums f) == 0 /\
    m2_total_activity (sums f) == 0 /\
    m2_footprint_residential (sums f) == 0 /\
    m2_footprint_activity (sums f) == 0 /\
    m2_footprint_mixed (sums f) == 0 /\
    num_built_activity (sums f) == 0 /\
    num_built_residential (sums f) == 0 /\
    num_built_mixed (sums f) == 0 /\
    num_levels (sums f) == 0 /\
    num_buildings (sums f) == overlap / area min_polygon /\
    built_up_relation f == overlap / area (geometry cell) /\
    (overlap == 0 -> num_buildings (sums f) == 0 /\ built_up_relation f == 0).
Proof.
  intros Hnone Hcell overlap.
  pose proof area_min_polygon_pos as Hpos.
  assert (Hnz : ~ area min_polygon == 0) by (intros E; rewrite E in Hpos; lra).
  assert (Hrows : cell_rows cell df_osm_built = [row_of_null cell]).
  { unfold cell_rows. rewrite filter_none; [reflexivity | exact Hnone]. }
  assert (Hratio : building_ratio (row_of_null cell)
                   = Ret (overlap / area min_polygon)).
  { unfold building_ratio. cbn [row_of_null geom_building row_geometry].
    now apply py_div_Ret. }
  split; [exact Hpos |]. split; [exact Hrows |]. split; [exact Hratio |].
  eexists. split.
  - unfold urban_features. rewrite Hrows. cbn [mapM].
    unfold row_features. rewrite Hratio. cbn [bind row_of_null row_landuses_m2].
    cbn [dict_get String.eqb Ascii.eqb Bool.eqb bind].
    rewrite py_div_Ret by exact Hcell. cbn [bind]. reflexivity.
  - cbn [sums built_up_relation sum_features map row_of_null
         m2_total_residential m2_total_activity m2_footprint_residential
         m2_footprint_activity m2_footprint_mixed num_built_activity
         num_built_residential num_built_mixed num_levels num_buildings
         built_up_m2 geom_building row_building_levels row_classification
         is_residential is_activity is_mixed].
    unfold Qsum. cbn [fold_left]. fold overlap.
    repeat split; try ring; try (now field).
    all: match goal with
         | E : _ == 0 |- _ => rewrite E; now field
         end.
Qed.

End AggregationFacts.

Section AggregationExamples.

Import Geometry.
Import UrbanFeatures.
Local Open Scope Q_scope.

Lemma building_ratio_apportions_witness :
  exists rs fs,
    mapM building_ratio
      (map (fun c => row_of_building c sample_house)
           [sample_cell 0 0; sample_cell 200 0]) = Ret rs /\
    Qsum rs == 1 /\
    mapM row_features
      (map (fun c => row_of_building c sample_house)
           [sample_cell 0 0; sample_cell 200 0]) = Ret fs /\
    Qsum (map num_buildings fs) == 1 /\
    Qsum (map m2_total_residential fs) == 100 * 100 * 2 /\
    Qsum (map m2_total_activity fs) == 0 /\
    Qsum (map num_levels fs) == building_levels sample_house /\
    Qsum (map built_up_m2 fs) == area (b_geometry sample_house).
Proof.
  refine (proj2 (proj2 (building_ratio_apportions (shapely := ring_kernel)
            sample_house [sample_cell 0 0; sample_cell 200 0]
            (100 * 100 * 2) 0 _ _ _)) _).
  - vm_compute. reflexivity.
  - reflexivity.
  - reflexivity.
  - vm_compute. reflexivity.
Defined.

Lemma empty_cell_features_witness :
  exists f,
    urban_features (sample_cell 400 0) [sample_house] = Ret f /\
    num_buildings (sums f) == 0 /\ built_up_relation f == 0.
Proof.
  destruct (empty_cell_features (shapely := ring_kernel) (sample_cell 400 0)
              [sample_house]) as [_ [_ [_ [f [Hf H]]]]].
  - intros b [<- | []]. vm_compute. reflexivity.
  - vm_compute. discriminate.
  - exists f. split; [exact Hf |].
    apply H. vm_compute. reflexivity.
Defined.

(** C4, counterexample.  A cell whose south-west corner is the origin of the
    coordinate system and which intersects no building (the only house is a
    kilometre away) contains the placeholder triangle: its weight is 1, and
    the cell ends with [num_buildings = 1] and a non-zero
    [built_up_relation]. *)
Lemma empty_cell_at_origin_counts_a_building :
  intersects (geometry (sample_cell 0 0)) (b_geometry (house_at 1000 1000)) = false /\
  exists f,
    urban_features (sample_cell 0 0) [house_at 1000 1000] = Ret f /\
    building_ratio (row_of_null (sample_cell 0 0)) = Ret (num_buildings (sums f)) /\
    num_buildings (sums f) == 1 /\
    ~ num_buildings (sums f) == 0 /\
    ~ built_up_relation f == 0.
Proof.
  split; [vm_compute; reflexivity |].
  eexists. split; [vm_compute; reflexivity |].
  split; [vm_compute; reflexivity |].
  split; [vm_compute; reflexivity |].
  split; vm_compute; discriminate.
Qed.

End AggregationExamples.

Section DispersionFacts.

Import UrbanFeatures.
Local Open Scope Q_scope.

Lemma gt_above (v c : Q) : c < v -> gt (Some v) c = true.
Proof.
  intros H. unfold gt. destruct (Qle_bool v c) eqn:E; [| reflexivity].
  apply Qle_bool_iff in E. lra.
Qed.

Lemma gt_below (v c : Q) : v <= c -> gt (Some v) c = false.
Proof.
  intros H. unfold gt. apply Qle_bool_iff in H. now rewrite H.
Qed.

(** C9 as amended.  For a cap that is not zero, no row is dropped, every
    dispersion value above the cap becomes the cap itself, and the values at
    or below the cap and the NaN entries are unchanged.  When no cap is
    given or the cap is 0 the column is left as it is. *)
Theorem cap_dispersion_spec (c : Q) (dispersion : list (option Q)) :
  ~ c == 0 ->
  let out := cap_dispersion (Some c) dispersion in
  List.length out = List.length dispersion /\
  (forall i v, nth_error dispersion i = Some (Some v) -> c < v ->
               nth_error out i = Some (Some c)) /\
  (forall i v, nth_error dispersion i = Some (Some v) -> v <= c ->
               nth_error out i = Some (Some v)) /\
  (forall i, nth_error dispersion i = Some None -> nth_error out i = Some None) /\
  cap_dispersion None dispersion = dispersion /\
  (forall c0, c0 == 0 -> cap_dispersion (Some c0) dispersion = dispersion).
Proof.
  intros Hc out.
  assert (Hout : out = map (fun d => if gt d c then Some c else d) dispersion).
  { unfold out, cap_dispersion, truthy.
    destruct (Qeq_bool c 0) eqn:E; [| reflexivity].
    apply Qeq_bool_eq in E. contradiction. }
  rewrite Hout.
  split; [apply length_map |].
  split; [| split; [| split; [| split]]].
  - intros i v Hi Hv. rewrite nth_error_map, Hi. cbn [option_map].
    now rewrite gt_above.
  - intros i v Hi Hv. rewrite nth_error_map, Hi. cbn [option_map].
    now rewrite gt_below.
  - intros i Hi. rewrite nth_error_map, Hi. reflexivity.
  - reflexivity.
  - intros c0 H0. unfold cap_dispersion, truthy.
    apply Qeq_bool_iff in H0. now rewrite H0.
Qed.

Lemma cap_dispersion_spec_witness :
  cap_dispersion (Some 15) [Some 20; Some 3; None; Some 15]
  = [Some 15; Some 3; None; Some 15] /\
  nth_error (cap_dispersion (Some 15) [Some 20; Some 3; None; Some 15]) 0
  = Some (Some 15).
Proof.
  split; [reflexivity |].
  apply (proj1 (proj2 (cap_dispersion_spec 15 [Some 20; Some 3; None; Some 15]
                         ltac:(vm_compute; discriminate))) 0%nat 20).
  - reflexivity.
  - vm_compute. reflexivity.
Defined.

(** C9, counterexample.  With a cap of 0 the guard
    [if kwargs.get("max_dispersion")] is false: a dispersion of 5, above the
    cap, is not clamped. *)
Lemma cap_zero_does_not_clamp :
  0 < 5 /\
  cap_dispersion (Some 0) [Some 5] = [Some 5] /\
  cap_dispersion (Some 0) [Some 5] <> [Some 0].
Proof.
  split; [vm_compute; reflexivity |].
  split; [reflexivity | discriminate].
Qed.

End DispersionFacts.

(** * Further properties of the entropy index *)

Section EntropyCharacterisation.

Import Landusemix.
Local Open Scope R_scope.

(** X1.  On two non-negative doubles whose sum does not overflow and whose
    shares do not underflow, the index is a number; it is 0 exactly when
    one of the two land uses is absent, and it is 1 when the two densities
    are equal and positive. *)
Theorem metric_phi_entropy_extremes (x y : R) :
  in_range x -> in_range y -> 0 <= x -> 0 <= y -> x + y <= float_max ->
  (0 < x -> 0 < y ->
   underflow_threshold < x / (x + y) /\ underflow_threshold < y / (x + y)) ->
  exists h,
    metric_phi_entropy (Fin x) (Fin y) = Ret (Fin h) /\
    (h = 0 <-> x = 0 \/ y = 0) /\
    (x = y -> 0 < x -> h = 1).
Proof.
  intros Rx Ry Hx Hy Hs Hsh.
  pose proof min_subnormal_pos as Hm. pose proof ln_2_pos as H2.
  pose proof min_subnormal_small as Hsm.
  destruct (Req_dec_T x 0) as [Hx0 | Hx0].
  { exists 0. split; [| split].
    - apply metric_phi_entropy_absent; auto.
    - tauto.
    - intros; lra. }
  destruct (Req_dec_T y 0) as [Hy0 | Hy0].
  { exists 0. split; [| split].
    - apply metric_phi_entropy_absent; auto.
    - tauto.
    - intros; lra. }
  assert (Hxp : 0 < x) by lra. assert (Hyp : 0 < y) by lra.
  destruct (Hsh Hxp Hyp) as [Ha Hb].
  assert (Hab : x / (x + y) + y / (x + y) = 1) by (field; lra).
  destruct (clamped_entropy _ _ Hab Ha Hb) as [Hr He].
  eexists. split; [now apply metric_phi_entropy_pos |]. split.
  - split; [intros E; lra | intros [E | E]; contradiction].
  - intros <- _.
    assert (Ea : x / (x + x) = / 2) by (field; lra).
    rewrite Ea in *. rewrite He by lra.
    rewrite ln_Rinv by lra. field. lra.
Qed.

Lemma metric_phi_entropy_extremes_witness :
  exists h,
    metric_phi_entropy (Fin 1) (Fin 1) = Ret (Fin h) /\
    (h = 0 <-> 1 = 0 \/ 1 = 0) /\ (1 = 1 -> 0 < 1 -> h = 1).
Proof.
  apply (metric_phi_entropy_extremes 1 1 in_range_1 in_range_1); try lra.
  - pose proof float_max_large. lra.
  - intros _ _. pose proof min_subnormal_small. pose proof min_subnormal_pos.
    pose proof underflow_threshold_half. lra.
Defined.

Lemma min_normal_bounds : min_subnormal <= min_normal <= 1.
Proof.
  unfold min_subnormal, min_normal. split.
  - apply Rinv_le_contravar; [apply pow2_pos |]. apply Rle_pow; [lra | lia].
  - rewrite <- Rinv_1. apply Rinv_le_contravar; [lra |]. apply pow_R1_Rle. lra.
Qed.

Lemma normal_in_range (r : R) : normal r -> in_range r /\ 0 < r.
Proof.
  intros [H1 H2]. pose proof min_normal_bounds. pose proof min_subnormal_pos.
  split; [| lra]. right. rewrite Rabs_right by lra. lra.
Qed.

(** X2.  The index does not depend on the unit of its two arguments, as
    far as doubles allow: multiplying or dividing both by the same power of
    two changes nothing (value or exception) when the two densities, their
    two products and the two sums are normal doubles. *)
Theorem metric_phi_entropy_scale (n : nat) (k x y : R) :
  k = 2 ^ n \/ k = / 2 ^ n ->
  normal x -> normal y -> normal (k * x) -> normal (k * y) ->
  x + y <= float_max -> k * x + k * y <= float_max ->
  metric_phi_entropy (py_mul (Fin k) (Fin x)) (py_mul (Fin k) (Fin y))
  = metric_phi_entropy (Fin x) (Fin y).
Proof.
  intros Hk Nx Ny Nkx Nky Hs Hks.
  assert (Hk0 : 0 < k).
  { destruct Hk as [-> | ->]; [apply pow2_pos | apply Rinv_0_lt_compat, pow2_pos]. }
  destruct (normal_in_range _ Nx) as [Rx Hx].
  destruct (normal_in_range _ Ny) as [Ry Hy].
  destruct (normal_in_range _ Nkx) as [Rkx Hkx].
  destruct (normal_in_range _ Nky) as [Rky Hky].
  pose proof float_max_large as HF. pose proof float_max_below_overflow as HT.
  pose proof (in_range_pos _ Rkx Hkx) as Bkx.
  pose proof (in_range_pos _ Rky Hky) as Bky.
  rewrite !py_mul_Fin by (rewrite Rabs_right; lra).
  rewrite !clamp_exact by (rewrite Rabs_right; lra).
  assert (Ea : k * x / (k * x + k * y) = x / (x + y)) by (field; split; nra).
  assert (Eb : k * y / (k * x + k * y) = y / (x + y)) by (field; split; nra).
  destruct (Rle_dec (x / (x + y)) underflow_threshold) as [Hp | Hp].
  { rewrite !metric_phi_entropy_underflow; try assumption; try reflexivity;
      left; [| rewrite Ea]; assumption. }
  destruct (Rle_dec (y / (x + y)) underflow_threshold) as [Hq | Hq].
  { rewrite !metric_phi_entropy_underflow; try assumption; try reflexivity;
      right; [| rewrite Eb]; assumption. }
  rewrite !metric_phi_entropy_pos; try assumption; try lra;
    try (rewrite ?Ea, ?Eb; lra).
  now rewrite Ea, Eb.
Qed.

Lemma metric_phi_entropy_scale_witness :
  metric_phi_entropy (py_mul (Fin 8) (Fin 2)) (py_mul (Fin 8) (Fin 6))
  = metric_phi_entropy (Fin 2) (Fin 6).
Proof.
  pose proof min_normal_bounds as Hn. pose proof float_max_large as HF.
  apply (metric_phi_entropy_scale 3 8 2 6); unfold normal; lra.
Defined.

End EntropyCharacterisation.

(** * Strings: identifiers, patterns and list columns *)

Section StringFacts.

Import PopulationUtils.
Import OsmUtils.
Local Open Scope string_scope.
Local Open Scope list_scope.
Local Open Scope Z_scope.

Lemma forall_chars_impl (P Q : ascii -> bool) (s : string) :
  (forall c, P c = true -> Q c = true) ->
  forall_chars P s = true -> forall_chars Q s = true.
Proof.
  intros H. induction s as [| c s IH]; simpl; [reflexivity |].
  intros E. apply andb_prop in E. destruct E as [E1 E2].
  now rewrite (H c E1), IH.
Qed.

Lemma forall_chars_app (P : ascii -> bool) (a b : string) :
  forall_chars P (a ++ b) = forall_chars P a && forall_chars P b.
Proof.
  induction a as [| c a IH]; simpl; [reflexivity |].
  now rewrite IH, andb_assoc.
Qed.

Lemma numeric_char_not (c d : ascii) :
  numeric_char d = false -> numeric_char c = true -> negb (Ascii.eqb c d) = true.
Proof.
  intros Hd Hc. destruct (Ascii.eqb c d) eqn:E; [| reflexivity].
  apply Ascii.eqb_eq in E. subst. congruence.
Qed.

Lemma numeric_char_not_space (c : ascii) :
  numeric_char c = true -> negb (is_space c) = true.
Proof.
  destruct c as [[] [] [] [] [] [] [] []]; vm_compute; congruence.
Qed.

Lemma string_of_uint_numeric (d : Decimal.uint) :
  forall_chars numeric_char (NilEmpty.string_of_uint d) = true.
Proof. induction d; simpl; auto. Qed.

Lemma str_numeric (z : Z) : forall_chars numeric_char (str z) = true.
Proof.
  unfold str. destruct (Z.to_int z); simpl; apply string_of_uint_numeric.
Qed.

Lemma of_lu_rev_cons (d : Decimal.uint) :
  d <> Decimal.Nil ->
  DecimalPos.Unsigned.of_lu (Decimal.rev d)
  = (DecimalPos.Unsigned.of_lu (Decimal.rev (DecimalPos.Unsigned.tl d))
     + DecimalPos.Unsigned.hd d
       * 10 ^ DecimalPos.Unsigned.usize (DecimalPos.Unsigned.tl d))%N.
Proof.
  intros Hd. destruct d; [congruence | ..];
    unfold Decimal.rev at 1; cbn [Decimal.revapp];
    rewrite DecimalPos.Unsigned.of_lu_revapp; reflexivity.
Qed.

(** Reading back the digits [str] has printed. *)
Lemma int_digits_uint (d : Decimal.uint) (a : N) (after_digit : bool) :
  d <> Decimal.Nil \/ after_digit = true ->
  int_digits (NilEmpty.string_of_uint d) (Z.of_N a) after_digit
  = Some (Z.of_N (a * 10 ^ DecimalPos.Unsigned.usize d
                  + DecimalPos.Unsigned.of_lu (Decimal.rev d))).
Proof.
  revert a after_digit.
  induction d; intros a b Hb;
    [ destruct Hb as [Hb | ->]; [congruence |]; simpl;
      do 2 f_equal; lia
    | .. ];
    match goal with
    | |- context [Decimal.rev ?x] =>
        rewrite (of_lu_rev_cons x) by discriminate
    end;
    cbn [NilEmpty.string_of_uint int_digits DecimalPos.Unsigned.tl
         DecimalPos.Unsigned.hd DecimalPos.Unsigned.usize];
    match goal with
    | |- context [digit_value ?c] =>
        let v := eval vm_compute in (digit_value c) in
        change (digit_value c) with v; cbv iota
    end;
    match goal with
    | |- int_digits _ (10 * Z.of_N a + ?k) true = _ =>
        replace (10 * Z.of_N a + k) with (Z.of_N (10 * a + Z.to_N k)) by lia
    end;
    rewrite IHd by (now right);
    rewrite N.pow_succ_r';
    do 2 f_equal; cbn [Z.to_N]; ring.
Qed.

Lemma rev_string_twice (s a b : string) :
  rev_string a (rev_string b s) = rev_string (s ++ a) b.
Proof.
  revert a b. induction s as [| c s IH]; intros a b; simpl.
  - reflexivity.
  - rewrite IH. reflexivity.
Qed.

Lemma forall_chars_rev (P : ascii -> bool) (s acc : string) :
  forall_chars P (rev_string acc s) = forall_chars P s && forall_chars P acc.
Proof.
  revert acc. induction s as [| c s IH]; intros acc; simpl.
  - reflexivity.
  - rewrite IH. simpl. rewrite andb_comm, <- !andb_assoc.
    f_equal. apply andb_comm.
Qed.

Lemma lstrip_id (s : string) :
  forall_chars (fun c => negb (is_space c)) s = true -> lstrip s = s.
Proof.
  destruct s as [| c s]; simpl; [reflexivity |].
  intros E. apply andb_prop in E. destruct E as [E _].
  apply negb_true_iff in E. now rewrite E.
Qed.

(** [strip] leaves a string without whitespace as it is. *)
Lemma strip_id (s : string) :
  forall_chars (fun c => negb (is_space c)) s = true -> strip s = s.
Proof.
  intros H. unfold strip.
  rewrite (lstrip_id s H), lstrip_id.
  - rewrite rev_string_twice. simpl. clear H.
    induction s as [| c s IH]; simpl; [reflexivity | now rewrite IH].
  - rewrite forall_chars_rev, H. reflexivity.
Qed.

Lemma int_string_of_uint (d : Decimal.uint) :
  d <> Decimal.Nil ->
  int_digits (NilEmpty.string_of_uint d) 0 false = Some (Z.of_uint d).
Proof.
  intros Hd.
  pose proof (int_digits_uint d 0 false (or_introl Hd)) as H.
  cbn [Z.of_N] in H. rewrite H.
  unfold Z.of_uint. rewrite DecimalPos.Unsigned.of_uint_alt.
  repeat f_equal; try lia.
Qed.

(** [int(str(z)) == z]. *)
Lemma int_str (z : Z) : int (str z) = Ret z.
Proof.
  unfold int.
  rewrite strip_id
    by (eapply forall_chars_impl; [apply numeric_char_not_space | apply str_numeric]).
  rewrite <- (DecimalZ.of_to z) at 2.
  unfold str.
  assert (Hnil : forall p, Pos.to_uint p <> Decimal.Nil)
    by apply DecimalPos.Unsigned.to_uint_nonnil.
  destruct z as [| p | p]; cbn [Z.to_int NilEmpty.string_of_int Z.of_int].
  - reflexivity.
  - specialize (Hnil p).
    pose proof (int_string_of_uint _ Hnil) as H.
    destruct (Pos.to_uint p); [congruence | ..];
      cbn [NilEmpty.string_of_uint] in *; rewrite H; reflexivity.
  - rewrite (int_string_of_uint _ (Hnil p)). reflexivity.
Qed.

Lemma split_without (sep : ascii) (s : string) :
  without sep s = true -> split sep s = [s].
Proof.
  unfold without. induction s as [| c s IH]; simpl; [reflexivity |].
  intros E. apply andb_prop in E. destruct E as [E1 E2].
  apply negb_true_iff in E1. now rewrite E1, IH.
Qed.

Lemma split_app_sep (sep : ascii) (a b : string) :
  without sep a = true ->
  split sep (a ++ String sep b) = a :: split sep b.
Proof.
  unfold without. induction a as [| c a IH]; simpl.
  - intros _. now rewrite Ascii.eqb_refl.
  - intros E. apply andb_prop in E. destruct E as [E1 E2].
    apply negb_true_iff in E1. now rewrite E1, IH.
Qed.

Lemma str_without (sep : ascii) (z : Z) :
  numeric_char sep = false -> without sep (str z) = true.
Proof.
  intros H. unfold without.
  eapply forall_chars_impl; [| apply str_numeric].
  intros c. now apply numeric_char_not.
Qed.

Lemma northing_easting_of_format (prefix : string) (north east : Z) :
  without "N" prefix = true ->
  northing_easting (prefix ++ "N" ++ str north ++ "E" ++ str east)
  = Ret (north, east).
Proof.
  intros Hp. unfold northing_easting.
  change (prefix ++ "N" ++ str north ++ "E" ++ str east)%string
    with (prefix ++ String "N" (str north ++ String "E" (str east)))%string.
  rewrite (split_app_sep "N" _ _ Hp).
  rewrite (split_without "N").
  - rewrite (split_app_sep "E") by (now apply str_without).
    rewrite (split_without "E") by (now apply str_without).
    rewrite !int_str. reflexivity.
  - unfold without. rewrite forall_chars_app. cbn [forall_chars].
    fold (without "N" (str north)). fold (without "N" (str east)).
    rewrite !str_without by reflexivity. reflexivity.
Qed.

(** X3.  An identifier made of any text without the letter N, followed by
    [N<north>E<east>], is parsed into exactly these two integers, negative
    ones included, by both inner functions [get_northing_easting]; in
    particular the pattern a block searches for parses back to the
    coordinates it was built from. *)
Theorem northing_easting_roundtrip (prefix : string) (north east : Z)
    (x : insee_row) :
  without "N" prefix = true ->
  idINSPIRE x = (prefix ++ "N" ++ str north ++ "E" ++ str east)%string ->
  AggregatedSquares.get_northing_easting x = (Some north, Some east) /\
  FilledEmptySquares.get_northing_easting x = Ret (north, east) /\
  forall NE y_diff x_diff,
    northing_easting (AggregatedSquares.coords_match NE y_diff x_diff)
    = Ret (snd NE + y_diff - 100, fst NE + x_diff - 100).
Proof.
  intros Hp Hid.
  unfold AggregatedSquares.get_northing_easting,
    FilledEmptySquares.get_northing_easting.
  rewrite Hid, (northing_easting_of_format prefix north east Hp).
  repeat split.
  intros NE y_diff x_diff.
  apply (northing_easting_of_format "" _ _ eq_refl).
Qed.

Lemma northing_easting_roundtrip_witness :
  AggregatedSquares.get_northing_easting (insee_square 0 2029800 (-4252400) 1)
  = (Some 2029800, Some (-4252400)).
Proof.
  apply (northing_easting_roundtrip "CRS3035RES200m" 2029800 (-4252400)
           (insee_square 0 2029800 (-4252400) 1)); reflexivity.
Defined.

Lemma string_app_nil_r (s : string) : (s ++ "")%string = s.
Proof. induction s as [| c s IH]; simpl; [reflexivity | now rewrite IH]. Qed.

Lemma prefix_app (p s : string) : String.prefix p (p ++ s) = true.
Proof.
  induction p as [| c p IH]; simpl.
  - now destruct s.
  - destruct (ascii_dec c c); [exact IH | congruence].
Qed.

Lemma str_contains_app (pre pat suf : string) :
  str_contains pat (pre ++ pat ++ suf) = true.
Proof.
  induction pre as [| c pre IH].
  - cbn [append]. destruct (pat ++ suf)%string eqn:E;
      cbn [str_contains]; rewrite <- E, prefix_app; reflexivity.
  - cbn [append str_contains]. rewrite IH. apply orb_true_r.
Qed.

(** X4.  The [indices] list of a block holds the index of a row exactly when
    the identifier of that row contains the pattern of one of the 25
    relative offsets: no index is invented and no matching row is left out.
    In particular a row whose identifier ends with the [N<north>E<east>] of
    one of the offsets is listed. *)
Theorem conservative_indices_members (NE : Z * Z) (df : list insee_row)
    (offset_index : Z) :
  exists l,
    AggregatedSquares.indices
      (AggregatedSquares.index_square_conservative NE df offset_index) = Some l /\
    (forall i,
       In (Some i) l <->
       exists r y_diff x_diff,
         In r df /\ index r = i /\
         In y_diff AggregatedSquares.offsets /\
         In x_diff AggregatedSquares.offsets /\
         str_contains (AggregatedSquares.coords_match NE y_diff x_diff)
                      (idINSPIRE r) = true) /\
    (forall r prefix y_diff x_diff,
       In r df ->
       In y_diff AggregatedSquares.offsets ->
       In x_diff AggregatedSquares.offsets ->
       idINSPIRE r
       = (prefix ++ AggregatedSquares.coords_match NE y_diff x_diff)%string ->
       In (Some (index r)) l).
Proof.
  eexists. split; [reflexivity |].
  assert (Hslot : forall i y x,
             In (Some i) (AggregatedSquares.slot NE df y x) <->
             exists r, In r df /\ index r = i /\
                       str_contains (AggregatedSquares.coords_match NE y x)
                                    (idINSPIRE r) = true).
  { intros i y x. unfold AggregatedSquares.slot.
    destruct (map index (filter _ df)) as [| v vs] eqn:E.
    - split.
      + intros [H | []]. discriminate.
      + intros [r [Hr [Hi Hc]]]. exfalso.
        assert (Hin : In (index r) (map index
                  (filter (fun r0 => str_contains
                             (AggregatedSquares.coords_match NE y x)
                             (idINSPIRE r0)) df))).
        { apply in_map. apply filter_In. now split. }
        rewrite E in Hin. exact Hin.
    - rewrite <- E. rewrite in_map_iff. split.
      + intros [v' [Hv Hin]]. injection Hv as ->.
        apply in_map_iff in Hin. destruct Hin as [r [Hi Hr]].
        apply filter_In in Hr. exists r. tauto.
      + intros [r [Hr [Hi Hc]]]. exists i. split; [reflexivity |].
        rewrite <- Hi. apply in_map. apply filter_In. now split. }
  cbn [AggregatedSquares.indices AggregatedSquares.index_square_conservative].
  assert (Hiff : forall i,
             In (Some i)
                (flat_map (fun y_diff =>
                   flat_map (fun x_diff => AggregatedSquares.slot NE df y_diff x_diff)
                            AggregatedSquares.offsets)
                   AggregatedSquares.offsets) <->
             exists r y_diff x_diff,
               In r df /\ index r = i /\
               In y_diff AggregatedSquares.offsets /\
               In x_diff AggregatedSquares.offsets /\
               str_contains (AggregatedSquares.coords_match NE y_diff x_diff)
                            (idINSPIRE r) = true).
  { intros i. rewrite in_flat_map. split.
    - intros [y [Hy H]]. apply in_flat_map in H. destruct H as [x [Hx H]].
      apply Hslot in H. destruct H as [r [Hr [Hi Hc]]].
      exists r, y, x. tauto.
    - intros [r [y [x [Hr [Hi [Hy [Hx Hc]]]]]]].
      exists y. split; [exact Hy |]. apply in_flat_map.
      exists x. split; [exact Hx |]. apply Hslot. exists r. tauto. }
  split; [exact Hiff |].
  intros r prefix y x Hr Hy Hx Hid.
  apply Hiff. exists r, y, x. repeat split; try assumption.
  rewrite Hid.
  replace (AggregatedSquares.coords_match NE y x)
    with (AggregatedSquares.coords_match NE y x ++ "")%string at 2
    by apply string_app_nil_r.
  apply str_contains_app.
Qed.

Lemma str_nonempty (z : Z) : str z <> "".
Proof.
  intros E. pose proof (int_str z) as H. rewrite E in H. discriminate.
Qed.

Lemma split_join (l : list string) :
  l <> [] -> Forall (fun s => without "," s = true) l ->
  split "," (join "," l) = l.
Proof.
  induction l as [| a l IH]; intros Hne Hall; [congruence |].
  inversion Hall as [| ? ? Ha Hl]; subst.
  destruct l as [| b l].
  - simpl. now apply split_without.
  - change (join "," (a :: b :: l)) with (a ++ String "," (join "," (b :: l)))%string.
    rewrite (split_app_sep "," _ _ Ha), IH; [reflexivity | discriminate | exact Hl].
Qed.

Lemma join_nonempty (a : string) (l : list string) :
  a <> "" -> join "," (a :: l) <> "".
Proof.
  intros Ha. destruct l as [| b l]; simpl; [exact Ha |].
  destruct a; [congruence | discriminate].
Qed.

Lemma mapM_int_str (l : list Z) : mapM int (map str l) = Ret l.
Proof.
  induction l as [| z l IH]; simpl; [reflexivity |].
  now rewrite int_str, IH.
Qed.

(** X5.  Writing a list of integers ([containing_parts], [containing_poi])
    with [store_geodataframe] and reading it with [load_geodataframe] gives
    the list back, except that an empty list comes back as NaN; a NaN cell
    stays NaN. *)
Theorem load_store_int_list (x : option (list Z)) :
  load_int_list (store_int_list x)
  = Ret (match x with
         | Some [] => None
         | _ => x
         end).
Proof.
  destruct x as [[| z l] |]; try reflexivity.
  unfold store_int_list, load_int_list.
  pose proof (join_nonempty (str z) (map str l) (str_nonempty z)) as Hne.
  change (str z :: map str l) with (map str (z :: l)) in Hne.
  destruct (join "," (map str (z :: l))) as [| c0 s0] eqn:E; [congruence |].
  rewrite <- E. unfold list_int_from_string.
  rewrite split_join.
  - now rewrite mapM_int_str.
  - discriminate.
  - apply Forall_forall. intros s Hs. apply in_map_iff in Hs.
    destruct Hs as [v [<- _]]. now apply str_without.
Qed.

(** X6.  Writing and reading back a list of category names gives the list
    back when no name contains a comma and the list is neither empty nor the
    single empty name; those two lists come back as NaN. *)
Theorem load_store_str_list (l : list string) :
  Forall (fun s => without "," s = true) l ->
  load_str_list (store_str_list (Some l))
  = match l with
    | [] | [EmptyString] => None
    | _ => Some l
    end.
Proof.
  intros Hall. unfold store_str_list, load_str_list.
  destruct l as [| a l]; [reflexivity |].
  destruct l as [| b l].
  - cbn [join]. destruct a as [| c a]; [reflexivity |].
    unfold list_str_from_string. rewrite split_without; [reflexivity |].
    now inversion Hall.
  - assert (Hne : join "," (a :: b :: l) <> "").
    { change (join "," (a :: b :: l))
        with (a ++ String "," (join "," (b :: l)))%string.
      destruct a; discriminate. }
    destruct (join "," (a :: b :: l)) as [| c0 s0] eqn:E; [congruence |].
    rewrite <- E. unfold list_str_from_string.
    rewrite split_join; [| discriminate | exact Hall].
    destruct a; reflexivity.
Qed.

Lemma load_store_str_list_witness :
  load_str_list (store_str_list (Some ["shop"; "leisure/amenity"]))
  = Some ["shop"; "leisure/amenity"].
Proof.
  apply (load_store_str_list ["shop"; "leisure/amenity"]).
  repeat constructor.
Defined.

End StringFacts.


(** * Further properties of the block aggregation and of the backfill *)

Section MeshFacts.

Import PopulationUtils.
Import OsmUtils.
Local Open Scope string_scope.
Local Open Scope list_scope.
Local Open Scope Z_scope.

Lemma skipna_fold_filter (f : Z -> Z -> Z) (col : list (option Z)) :
  skipna_fold f col = skipna_fold f (filter is_some col).
Proof.
  unfold skipna_fold. generalize (@None Z) as acc.
  induction col as [| v col IH]; intros acc; simpl; [reflexivity |].
  destruct v as [v |]; simpl.
  - apply IH.
  - rewrite <- IH. destruct acc; reflexivity.
Qed.

Lemma coordinates_filter (df : list insee_row) :
  map AggregatedSquares.get_northing_easting (filter parsable df)
  = filter (fun c => is_some (fst c))
           (map AggregatedSquares.get_northing_easting df).
Proof.
  assert (H : forall r, is_some (fst (AggregatedSquares.get_northing_easting r))
                        = parsable r).
  { intros r. unfold parsable, AggregatedSquares.get_northing_easting.
    destruct (northing_easting (idINSPIRE r)) as [[n e] | []]; reflexivity. }
  induction df as [| r df IH]; cbn [filter map]; [reflexivity |].
  rewrite H. destruct (parsable r); cbn [map]; now rewrite IH.
Qed.

Lemma coordinates_paired (df : list insee_row) :
  Forall (fun c => is_some (fst c) = is_some (snd c))
         (map AggregatedSquares.get_northing_easting df).
Proof.
  apply Forall_forall. intros c Hc. apply in_map_iff in Hc.
  destruct Hc as [r [<- _]]. unfold AggregatedSquares.get_northing_easting.
  destruct (northing_easting (idINSPIRE r)) as [[n e] | []]; reflexivity.
Qed.

Lemma map_filter_fst (cs : list (option Z * option Z)) :
  map fst (filter (fun c => is_some (fst c)) cs) = filter is_some (map fst cs).
Proof.
  induction cs as [| c cs IH]; simpl; [reflexivity |].
  destruct (is_some (fst c)); simpl; now rewrite IH.
Qed.

Lemma map_filter_snd (cs : list (option Z * option Z)) :
  Forall (fun c => is_some (fst c) = is_some (snd c)) cs ->
  map snd (filter (fun c => is_some (fst c)) cs) = filter is_some (map snd cs).
Proof.
  induction cs as [| c cs IH]; intros H; simpl; [reflexivity |].
  inversion H as [| ? ? Hc Hcs]; subst.
  rewrite <- Hc. destruct (is_some (fst c)); simpl; now rewrite IH.
Qed.

(** X7.  Rows whose identifier cannot be parsed have no influence on the
    mesh of block centroids, wherever they stand in the frame; and when the
    frame is not empty and no identifier can be parsed at all,
    [get_aggregated_squares] raises [ValueError]. *)
Theorem mesh_ignores_unparsable (df : list insee_row) (coords_offset : Z)
    (step : positive) (conserve_squares_info : bool) :
  centroid_mesh (map AggregatedSquares.get_northing_easting df) coords_offset step
  = centroid_mesh (map AggregatedSquares.get_northing_easting (filter parsable df))
                  coords_offset step /\
  (df <> [] -> filter parsable df = [] ->
   AggregatedSquares.get_aggregated_squares df step conserve_squares_info
   = Raise ValueError).
Proof.
  assert (Hmesh : forall off,
    centroid_mesh (map AggregatedSquares.get_northing_easting df) off step
    = centroid_mesh (map AggregatedSquares.get_northing_easting (filter parsable df))
                    off step).
  { intros off. unfold centroid_mesh, col_min, col_max.
    rewrite coordinates_filter, map_filter_fst,
      (map_filter_snd _ (coordinates_paired df)).
    rewrite <- !skipna_fold_filter. reflexivity. }
  split; [apply Hmesh |].
  intros Hne Hnone. unfold AggregatedSquares.get_aggregated_squares.
  destruct df as [| r df']; [congruence |].
  rewrite Hmesh, Hnone. reflexivity.
Qed.

Lemma mesh_ignores_unparsable_witness :
  AggregatedSquares.get_aggregated_squares
    [ {| index := 0; idINSPIRE := "CRS"; pop_count := 0%Q;
         geometry := {| xmin := 0; ymin := 0; xmax := 200; ymax := 200 |} |} ]
    200 true
  = Raise ValueError.
Proof.
  apply (proj2 (mesh_ignores_unparsable _ 100 200 true)).
  - discriminate.
  - reflexivity.
Defined.

(** X8.  On a non-empty frame whose identifiers all parse, the squares the
    backfill synthesizes are pairwise distinct squares of side 200 whose
    centre lies in no observed square; the south-west corner of each is on
    the lattice of step 200 through the least observed northing and the
    least observed easting (both attained by an observed square), not west
    (south) of the westernmost (southernmost) observed corner and strictly
    west (south) of the easternmost (northernmost) one. *)
Theorem synthesized_squares (df : list insee_row) (coords : list (Z * Z)) :
  df <> [] ->
  mapM FilledEmptySquares.get_northing_easting df = Ret coords ->
  exists boxes n_min e_min,
    FilledEmptySquares.empty_population_box df = Ret boxes /\
    NoDup boxes /\
    (exists ne, In ne coords /\ fst ne = n_min) /\
    (exists ne, In ne coords /\ snd ne = e_min) /\
    (forall ne, In ne coords -> n_min <= fst ne /\ e_min <= snd ne) /\
    forall b, In b boxes ->
      xmax b = xmin b + 200 /\ ymax b = ymin b + 200 /\
      (exists i j : nat,
          xmin b = e_min + 200 * Z.of_nat i /\
          ymin b = n_min + 200 * Z.of_nat j) /\
      e_min <= xmin b /\ n_min <= ymin b /\
      (exists ne, In ne coords /\ xmin b < snd ne) /\
      (exists ne, In ne coords /\ ymin b < fst ne) /\
      Forall (fun r => box_intersects
                         (box_of_point (xmin b + 100) (ymin b + 100))
                         (geometry r) = false) df.
Proof.
  intros Hne Hcoords.
  destruct (backfill_mesh df coords Hne Hcoords)
    as [n_min [n_max [e_min [e_max [pts [Hbounds [Hmesh [Hnd Hpts]]]]]]]].
  destruct Hbounds as [Hn1 [Hn2 [He1 [He2 Hall]]]].
  apply in_map_iff in Hn1, Hn2, He1, He2.
  destruct Hn1 as [c1 [Hc1 Hin1]], Hn2 as [c2 [Hc2 Hin2]].
  destruct He1 as [c3 [Hc3 Hin3]], He2 as [c4 [Hc4 Hin4]].
  exists (map FilledEmptySquares.new_square
              (filter (FilledEmptySquares.uncovered df) pts)), n_min, e_min.
  split.
  { unfold FilledEmptySquares.empty_population_box. rewrite Hmesh. reflexivity. }
  split.
  { apply NoDup_map_injective; [| now apply NoDup_filter].
    intros p q _ _. apply new_square_injective. }
  split; [now exists c1 |]. split; [now exists c3 |].
  split; [intros ne Hin; destruct (Hall ne Hin); lia |].
  intros b Hb. apply in_map_iff in Hb. destruct Hb as [[E N] [<- Hpt]].
  apply filter_In in Hpt. destruct Hpt as [Hpt Hunc].
  destruct (proj1 (Hpts E N) Hpt) as [i [j [HE [HEb [HN HNb]]]]].
  unfold FilledEmptySquares.new_square. cbn [xmin ymin xmax ymax fst snd].
  split; [lia |]. split; [lia |].
  split; [exists i, j; lia |].
  split; [lia |]. split; [lia |].
  split; [exists c4; split; [exact Hin4 | lia] |].
  split; [exists c2; split; [exact Hin2 | lia] |].
  unfold FilledEmptySquares.uncovered in Hunc.
  rewrite forallb_forall in Hunc. apply Forall_forall. intros r Hr.
  specialize (Hunc r Hr). apply negb_true_iff in Hunc.
  cbn [fst snd] in Hunc.
  replace (E - 100 + 100) with E by lia.
  replace (N - 100 + 100) with N by lia. exact Hunc.
Qed.

Lemma synthesized_squares_witness :
  exists boxes n_min e_min,
    FilledEmptySquares.empty_population_box grid_diagonals = Ret boxes /\
    NoDup boxes /\ n_min = 0 /\ e_min = 0 /\ List.length boxes = 6%nat.
Proof.
  destruct (synthesized_squares grid_diagonals
              [(0, 0); (200, 200); (400, 400); (600, 600); (600, 0)])
    as [boxes [n_min [e_min [H1 [H2 [[c1 [Hin1 Hc1]] [[c2 [Hin2 Hc2]] [H3 _]]]]]]]].
  - discriminate.
  - reflexivity.
  - exists boxes, n_min, e_min. split; [exact H1 |]. split; [exact H2 |].
    vm_compute in H1. injection H1 as <-.
    destruct (H3 (0, 0) (or_introl eq_refl)) as [Hn He]. cbn [fst snd] in Hn, He.
    split; [| split; [| reflexivity]].
    + simpl in Hin1.
      repeat (destruct Hin1 as [<- | Hin1]; [cbn [fst] in Hc1; lia |]).
      contradiction.
    + simpl in Hin2.
      repeat (destruct Hin2 as [<- | Hin2]; [cbn [snd] in Hc2; lia |]).
      contradiction.
Defined.

End MeshFacts.

(** * Further properties of the urban features *)

Section AggregationInvariants.

Import Geometry.
Import UrbanFeatures.
Local Open Scope Q_scope.

Context {geom : Type} {shapely : Shapely geom}.

Lemma mapM_Raise {A B : Type} (f : A -> result B) (l : list A) (e : exn) :
  (forall x, In x l -> f x = Raise e \/ exists y, f x = Ret y) ->
  (exists x, In x l /\ f x = Raise e) ->
  mapM f l = Raise e.
Proof.
  induction l as [| a l IH]; intros Hall [x [Hx Hfx]]; [contradiction |].
  simpl. destruct (Hall a (or_introl eq_refl)) as [Ha | [y Ha]]; rewrite Ha.
  - reflexivity.
  - simpl. rewrite IH; [reflexivity | intros z Hz; apply Hall; now right |].
    destruct Hx as [-> | Hx]; [congruence |]. now exists x.
Qed.

Lemma mapM_Ret_inv {A B : Type} (f : A -> result B) (l : list A) (ys : list B) :
  mapM f l = Ret ys -> Forall2 (fun x y => f x = Ret y) l ys.
Proof.
  revert ys. induction l as [| a l IH]; intros ys H; simpl in H.
  - injection H as <-. constructor.
  - destruct (f a) as [y |] eqn:Ea; [| discriminate]. simpl in H.
    destruct (mapM f l) as [ys' |] eqn:El; [| discriminate]. simpl in H.
    injection H as <-. constructor; [exact Ea | now apply IH].
Qed.

(** X9.  A building of area zero that intersects the cell makes the
    computation of the cell's features raise [ZeroDivisionError] (every
    intersecting building having its two land-use entries): such a building
    is not replaced by the placeholder. *)
Theorem zero_area_building_raises (cell : GridCell) (df_osm_built : list Building) :
  (forall b, In b df_osm_built ->
     intersects (geometry cell) (b_geometry b) = true ->
     exists res act,
       dict_get (landuses_m2 b) "residential" = Ret res /\
       dict_get (landuses_m2 b) "activity" = Ret act) ->
  (exists b, In b df_osm_built /\
             intersects (geometry cell) (b_geometry b) = true /\
             area (b_geometry b) == 0) ->
  urban_features cell df_osm_built = Raise ZeroDivisionError.
Proof.
  intros Hkeys [b0 [Hb0 [Hi0 Ha0]]].
  unfold urban_features.
  assert (Hin0 : In b0 (filter (fun b => intersects (geometry cell) (b_geometry b))
                               df_osm_built))
    by (apply filter_In; now split).
  assert (Hrows : cell_rows cell df_osm_built
                  = map (row_of_building cell)
                        (filter (fun b => intersects (geometry cell) (b_geometry b))
                                df_osm_built)).
  { unfold cell_rows.
    destruct (filter _ df_osm_built); [contradiction | reflexivity]. }
  rewrite Hrows, (mapM_Raise row_features _ ZeroDivisionError); [reflexivity | |].
  - intros x Hx. apply in_map_iff in Hx. destruct Hx as [b [<- Hb]].
    apply filter_In in Hb. destruct Hb as [Hb Hi].
    destruct (Hkeys b Hb Hi) as [res [act [Hres Hact]]].
    unfold row_features, building_ratio, UrbanFeatures.py_div.
    cbn [row_of_building geom_building row_geometry row_landuses_m2].
    destruct (Qeq_bool (area (b_geometry b)) 0); [now left | right].
    cbn [bind]. rewrite Hres, Hact. cbn [bind]. eexists. reflexivity.
  - exists (row_of_building cell b0). split; [now apply in_map |].
    unfold row_features, building_ratio, UrbanFeatures.py_div.
    cbn [row_of_building geom_building row_geometry].
    apply Qeq_bool_iff in Ha0. now rewrite Ha0.
Qed.

Lemma Qsum_map_add {A : Type} (f g : A -> Q) (l : list A) :
  Qsum (map (fun x => f x + g x) l) == Qsum (map f l) + Qsum (map g l).
Proof.
  induction l as [| x l IH]; simpl.
  - unfold Qsum; simpl. ring.
  - rewrite !Qsum_cons, IH. ring.
Qed.

Lemma py_div_Ret_inv (a b r : Q) :
  UrbanFeatures.py_div a b = Ret r -> ~ b == 0 /\ r = a / b.
Proof.
  unfold UrbanFeatures.py_div. destruct (Qeq_bool b 0) eqn:E; [discriminate |].
  intros [= <-]. split; [| reflexivity].
  intros H. apply Qeq_bool_iff in H. congruence.
Qed.

Lemma row_features_one_class (cell : GridCell) (b : Building) (y : features) :
  row_features (row_of_building cell b) = Ret y ->
  num_buildings y
  == num_built_activity y + num_built_residential y + num_built_mixed y /\
  built_up_m2 y
  == m2_footprint_residential y + m2_footprint_activity y + m2_footprint_mixed y.
Proof.
  unfold row_features.
  destruct (building_ratio (row_of_building cell b)) as [ratio |]; [| discriminate].
  cbn [bind row_of_building row_landuses_m2 row_classification geom_building
       row_building_levels].
  destruct (dict_get (landuses_m2 b) "residential"); [| discriminate].
  destruct (dict_get (landuses_m2 b) "activity"); [| discriminate].
  cbn [bind]. intros [= <-].
  destruct (classification b); simpl; split; ring.
Qed.

Lemma rows_one_class (cell : GridCell) (bs : list Building) (rows : list features) :
  mapM row_features (map (row_of_building cell) bs) = Ret rows ->
  Forall (fun y =>
            num_buildings y
            == num_built_activity y + num_built_residential y + num_built_mixed y /\
            built_up_m2 y
            == m2_footprint_residential y + m2_footprint_activity y
               + m2_footprint_mixed y) rows.
Proof.
  revert rows. induction bs as [| b bs IH]; intros rows H; simpl in H.
  - injection H as <-. constructor.
  - destruct (row_features (row_of_building cell b)) as [y |] eqn:Ey;
      [| discriminate].
    cbn [bind] in H.
    destruct (mapM row_features (map (row_of_building cell) bs)) as [ys |];
      [| discriminate].
    cbn [bind] in H. injection H as <-.
    constructor; [now apply (row_features_one_class cell b) | now apply IH].
Qed.

Lemma Qsum_map_add3 {A : Type} (f g1 g2 g3 : A -> Q) (l : list A) :
  Forall (fun x => f x == g1 x + g2 x + g3 x) l ->
  Qsum (map f l) == Qsum (map g1 l) + Qsum (map g2 l) + Qsum (map g3 l).
Proof.
  intros H. rewrite <- !Qsum_map_add. apply Qsum_map_ext.
  rewrite Forall_forall in H. exact H.
Qed.

(** X10.  In a cell that intersects at least one building, the aggregated
    features are consistent: the building count is the sum of the three
    per-class counts, and the built-up share of the cell, multiplied by the
    area of the cell, is the sum of the three per-class footprints. *)
Theorem features_consistent (cell : GridCell) (df_osm_built : list Building)
    (f : cell_features) :
  (exists b, In b df_osm_built /\
             intersects (geometry cell) (b_geometry b) = true) ->
  urban_features cell df_osm_built = Ret f ->
  num_buildings (sums f)
  == num_built_activity (sums f) + num_built_residential (sums f)
     + num_built_mixed (sums f) /\
  built_up_relation f * area (geometry cell)
  == m2_footprint_residential (sums f) + m2_footprint_activity (sums f)
     + m2_footprint_mixed (sums f).
Proof.
  intros [b0 [Hb0 Hi0]] Hf.
  assert (Hin0 : In b0 (filter (fun b => intersects (geometry cell) (b_geometry b))
                               df_osm_built))
    by (apply filter_In; now split).
  assert (Hrows : cell_rows cell df_osm_built
                  = map (row_of_building cell)
                        (filter (fun b => intersects (geometry cell) (b_geometry b))
                                df_osm_built)).
  { unfold cell_rows.
    destruct (filter _ df_osm_built); [contradiction | reflexivity]. }
  unfold urban_features in Hf. rewrite Hrows in Hf.
  destruct (mapM row_features _) as [rows |] eqn:Hm; [| discriminate].
  cbn [bind] in Hf.
  destruct (UrbanFeatures.py_div _ _) as [rel |] eqn:Hd; [| discriminate].
  cbn [bind] in Hf. injection Hf as <-.
  apply py_div_Ret_inv in Hd. destruct Hd as [Hcell ->].
  apply rows_one_class in Hm.
  cbn [sums built_up_relation sum_features num_buildings num_built_activity
       num_built_residential num_built_mixed built_up_m2
       m2_footprint_residential m2_footprint_activity m2_footprint_mixed].
  split.
  - apply Qsum_map_add3. eapply Forall_impl; [| exact Hm]. intros y [H _]. exact H.
  - rewrite <- (Qsum_map_add3 built_up_m2).
    + now field.
    + eapply Forall_impl; [| exact Hm]. intros y [_ H]. exact H.
Qed.

End AggregationInvariants.

Section AggregationInvariantsExamples.

Import Geometry.
Import UrbanFeatures.
Local Open Scope Q_scope.

Lemma zero_area_building_raises_witness :
  urban_features (sample_cell 0 0)
    [ sample_house;
      {| b_geometry := [(50, 50); (100, 50); (150, 50)];
         landuses_m2 := [("residential"%string, 0); ("activity"%string, 30)];
         building_levels := 1;
         classification := activity |} ]
  = Raise ZeroDivisionError.
Proof.
  apply (zero_area_building_raises (shapely := ring_kernel)).
  - intros b [<- | [<- | []]] _; eexists; eexists; split; reflexivity.
  - eexists. split; [right; left; reflexivity |].
    split; vm_compute; reflexivity.
Defined.

Lemma features_consistent_witness :
  exists f,
    urban_features (sample_cell 0 0) [sample_house; house_at 20 20] = Ret f /\
    num_buildings (sums f)
    == num_built_activity (sums f) + num_built_residential (sums f)
       + num_built_mixed (sums f) /\
    built_up_relation f * area (geometry (sample_cell 0 0))
    == m2_footprint_residential (sums f) + m2_footprint_activity (sums f)
       + m2_footprint_mixed (sums f).
Proof.
  destruct (urban_features (sample_cell 0 0) [sample_house; house_at 20 20])
    as [f |] eqn:E.
  - exists f. split; [reflexivity |].
    apply (features_consistent (shapely := ring_kernel) (sample_cell 0 0)
             [sample_house; house_at 20 20] f); [| exact E].
    exists sample_house. split; [now left | vm_compute; reflexivity].
  - vm_compute in E. discriminate.
Defined.

End AggregationInvariantsExamples.

(** * The final pass and the training vectors *)

Section TrainingFacts.

Import UrbanFeatures.
Import TrainingData.
Local Open Scope Q_scope.

Lemma gt_cap_itself (c : Q) : gt (Some c) c = false.
Proof. unfold gt. now rewrite (proj2 (Qle_bool_iff c c) (Qle_refl c)). Qed.

(** X11.  Capping is idempotent, for every cap; and with a positive cap,
    after the cap and the final [fillna(0)] every row still has a dispersion,
    which is a number not greater than the cap. *)
Theorem capped_dispersion_bounded (max_dispersion : option Q) (c : Q)
    (dispersion : list (option Q)) :
  cap_dispersion max_dispersion (cap_dispersion max_dispersion dispersion)
  = cap_dispersion max_dispersion dispersion /\
  (0 < c ->
   List.length (fillna0 (cap_dispersion (Some c) dispersion))
   = List.length dispersion /\
   Forall (fun d => exists v, d = Some v /\ v <= c)
          (fillna0 (cap_dispersion (Some c) dispersion))).
Proof.
  split.
  - unfold cap_dispersion. destruct (truthy max_dispersion); [| reflexivity].
    destruct max_dispersion as [m |]; [| reflexivity].
    rewrite map_map. apply map_ext. intros d.
    destruct (gt d m) eqn:E; [now rewrite gt_cap_itself | now rewrite E].
  - intros Hc.
    assert (Hout : cap_dispersion (Some c) dispersion
                   = map (fun d => if gt d c then Some c else d) dispersion).
    { unfold cap_dispersion, truthy.
      destruct (Qeq_bool c 0) eqn:E; [| reflexivity].
      apply Qeq_bool_iff in E. rewrite E in Hc. lra. }
    rewrite Hout. unfold fillna0. rewrite !length_map. split; [reflexivity |].
    apply Forall_forall. intros d Hd. rewrite map_map in Hd.
    apply in_map_iff in Hd. destruct Hd as [d0 [<- _]].
    destruct d0 as [v |]; cbn [gt].
    + destruct (Qle_bool v c) eqn:E; cbn [negb].
      * exists v. split; [reflexivity | now apply Qle_bool_iff].
      * exists c. split; [reflexivity | lra].
    + exists 0. split; [reflexivity | lra].
Qed.

Lemma capped_dispersion_bounded_witness :
  Forall (fun d => exists v, d = Some v /\ v <= 15)
         (fillna0 (cap_dispersion (Some 15) [Some 40; None; Some (7 # 2)])).
Proof.
  apply (proj2 (capped_dispersion_bounded None 15 [Some 40; None; Some (7 # 2)])).
  reflexivity.
Defined.

Lemma Qsum_all_zero (l : list Q) : Forall (fun v => v == 0) l -> Qsum l == 0.
Proof.
  induction 1 as [| v l Hv _ IH]; [reflexivity |].
  rewrite Qsum_cons, Hv, IH. ring.
Qed.

Lemma Qsum_nonneg (l : list Q) : Forall (fun v => 0 <= v) l -> 0 <= Qsum l.
Proof.
  induction 1 as [| v l Hv _ IH]; [unfold Qsum; simpl; lra |].
  rewrite Qsum_cons. lra.
Qed.

Lemma Qsum_upper (l : list Q) (v : Q) :
  Forall (fun w => 0 <= w) l -> In v l -> v <= Qsum l.
Proof.
  induction 1 as [| w l Hw Hl IH]; intros Hin; [contradiction |].
  rewrite Qsum_cons. pose proof (Qsum_nonneg l Hl) as Hs.
  destruct Hin as [-> | Hin]; [lra |]. specialize (IH Hin). lra.
Qed.

(** X12.  For one block whose slots hold a positive total population, the
    training vector is kept; it has one share per slot, the shares sum to 1,
    and lie in [[0, 1]] when no population is negative.  A block whose slots
    all hold population 0 is skipped. *)
Theorem Y_values_shares (pop_features : frame) (idx : list (option Z))
    (pops : list Q) :
  square_info pop_features idx = Ret pops ->
  List.length pops = List.length idx /\
  (0 < Qsum pops ->
   exists shares,
     Y_values pop_features [idx] = Ret [map NFin shares] /\
     List.length shares = List.length idx /\
     Qsum shares == 1 /\
     (Forall (fun v => 0 <= v) pops -> Forall (fun s => 0 <= s <= 1) shares)) /\
  (Forall (fun v => v == 0) pops -> Y_values pop_features [idx] = Ret []).
Proof.
  intros Hsq.
  assert (Hlen : List.length pops = List.length idx).
  { unfold square_info in Hsq.
    destruct (unique_labels (map fst pop_features)); [| discriminate].
    injection Hsq as <-. apply length_map. }
  split; [exact Hlen |]. split.
  - intros Hpos.
    assert (Hnz : Qeq_bool (Qsum pops) 0 = false).
    { destruct (Qeq_bool (Qsum pops) 0) eqn:E; [| reflexivity].
      apply Qeq_bool_iff in E. rewrite E in Hpos. lra. }
    assert (Hd : population_densities pops
                 = map NFin (map (fun v => v / Qsum pops) pops)).
    { unfold population_densities. rewrite map_map. apply map_ext.
      intros v. unfold np_divq. now rewrite Hnz. }
    exists (map (fun v => v / Qsum pops) pops).
    split; [| split; [| split]].
    + cbn [Y_values]. rewrite Hsq. cbn [bind]. rewrite Hd.
      destruct pops as [| v pops]; [unfold Qsum in Hpos; simpl in Hpos; lra |].
      reflexivity.
    + now rewrite length_map.
    + rewrite (Qsum_map_ext _ (fun v => v * / Qsum pops)) by (intros; reflexivity).
      rewrite Qsum_map_scale, map_id. field. lra.
    + intros Hnn. apply Forall_forall. intros s Hs.
      apply in_map_iff in Hs. destruct Hs as [v [<- Hv]].
      pose proof (Qsum_upper pops v Hnn Hv) as Hup.
      rewrite Forall_forall in Hnn. specialize (Hnn v Hv).
      split.
      * apply Qle_shift_div_l; lra.
      * apply Qle_shift_div_r; lra.
  - intros Hz. cbn [Y_values]. rewrite Hsq. cbn [bind].
    assert (Hall : forallb isna (population_densities pops) = true).
    { apply forallb_forall. intros d Hd. unfold population_densities in Hd.
      apply in_map_iff in Hd. destruct Hd as [v [<- Hv]].
      rewrite Forall_forall in Hz.
      unfold np_divq.
      rewrite (proj2 (Qeq_bool_iff _ _) (Qsum_all_zero pops
                 (proj2 (Forall_forall _ _) Hz))).
      now rewrite (proj2 (Qeq_bool_iff _ _) (Hz v Hv)). }
    now rewrite Hall.
Qed.

Lemma Y_values_shares_witness :
  exists shares,
    Y_values [(0%Z, 30); (1%Z, 10); (2%Z, 0)] [[Some 0%Z; None; Some 1%Z; Some 7%Z]]
    = Ret [map NFin shares] /\
    List.length shares = 4%nat /\ Qsum shares == 1.
Proof.
  destruct (proj1 (proj2 (Y_values_shares [(0%Z, 30); (1%Z, 10); (2%Z, 0)]
                            [Some 0%Z; None; Some 1%Z; Some 7%Z]
                            [30; 0; 10; 0] eq_refl)))
    as [shares [H1 [H2 [H3 _]]]].
  - vm_compute. reflexivity.
  - exists shares. auto.
Defined.

End TrainingFacts.

(** * Expanding a grid point *)

Section ExpandFacts.

Import UrbanFeatures.
Import GridGeometries.
Local Open Scope Q_scope.

Lemma Qceiling_minus_half (f : Z) (q : Q) :
  q == inject_Z f - (1 # 2) -> Qceiling q = f.
Proof.
  intros E.
  set (z := Qceiling q).
  assert (H1 : inject_Z f - (1 # 2) <= inject_Z z).
  { eapply Qle_trans; [| apply (Qle_ceiling q)]. rewrite E. apply Qle_refl. }
  assert (H2 : inject_Z (z - 1) < inject_Z f - (1 # 2)).
  { eapply Qlt_le_trans; [apply (Qceiling_lt q) |]. rewrite E. apply Qle_refl. }
  unfold Qle, Qlt, Qminus, Qplus, Qopp, inject_Z in H1, H2. simpl in H1, H2.
  lia.
Qed.

(** The values of [np.arange] along one axis of the expanded cell. *)
Lemma axis_arange (c w : Q) (factor : Z) :
  (0 < factor)%Z -> 0 < w ->
  arange_float (c - (1 # 2) * (1 - 1 / inject_Z factor) * w) (c + w / 2)
               (w / inject_Z factor)
  = Ret (map (fun i => c - (1 # 2) * (1 - 1 / inject_Z factor) * w
                       + inject_Z (Z.of_nat i) * (w / inject_Z factor))
             (seq 0 (Z.to_nat factor))).
Proof.
  intros Hf Hw.
  assert (Hfq : 0 < inject_Z factor).
  { unfold Qlt, inject_Z. simpl. lia. }
  assert (Hstep : 0 < w / inject_Z factor) by (apply Qlt_shift_div_l; lra).
  unfold arange_float. rewrite py_div_Ret by lra. cbn [bind].
  rewrite (Qceiling_minus_half factor); [reflexivity |].
  field. split; lra.
Qed.

(** X13.  For a positive factor and positive offsets, [expand_grid_point]
    returns [factor * factor] points, which are exactly the centres of the
    [factor] x [factor] sub-cells of the cell of width [xoffset] and height
    [yoffset] centred on the point; all of them lie strictly inside that
    cell. *)
Theorem expand_grid_point_centres (x y : Q) (factor : Z) (xoffset yoffset : Q) :
  (0 < factor)%Z -> 0 < xoffset -> 0 < yoffset ->
  let centre := fun (c w : Q) (i : nat) =>
    c - w / 2 + (inject_Z (Z.of_nat i) + (1 # 2)) * (w / inject_Z factor) in
  exists pts,
    expand_grid_point (x, y) factor xoffset yoffset = Ret pts /\
    List.length pts = Z.to_nat (factor * factor) /\
    (forall p, In p pts ->
       exists i j : nat,
         (Z.of_nat i < factor)%Z /\ (Z.of_nat j < factor)%Z /\
         fst p == centre x xoffset i /\ snd p == centre y yoffset j) /\
    (forall i j : nat,
       (Z.of_nat i < factor)%Z -> (Z.of_nat j < factor)%Z ->
       exists p, In p pts /\
                 fst p == centre x xoffset i /\ snd p == centre y yoffset j) /\
    (forall p, In p pts ->
       x - xoffset / 2 < fst p /\ fst p < x + xoffset / 2 /\
       y - yoffset / 2 < snd p /\ snd p < y + yoffset / 2).
Proof.
  intros Hf Hw Hh centre.
  assert (Hfq : 0 < inject_Z factor).
  { unfold Qlt, inject_Z. simpl. lia. }
  set (fx := fun i : nat => x - (1 # 2) * (1 - 1 / inject_Z factor) * xoffset
                            + inject_Z (Z.of_nat i) * (xoffset / inject_Z factor)).
  set (fy := fun j : nat => y - (1 # 2) * (1 - 1 / inject_Z factor) * yoffset
                            + inject_Z (Z.of_nat j) * (yoffset / inject_Z factor)).
  set (n := Z.to_nat factor).
  assert (Hrun : expand_grid_point (x, y) factor xoffset yoffset
                 = Ret (flat_map (fun x_ => map (fun y_ => (x_, y_)) (map fy (seq 0 n)))
                                 (map fx (seq 0 n)))).
  { unfold expand_grid_point. cbn [fst snd].
    rewrite !(py_div_Ret _ (inject_Z factor)) by lra. cbn [bind].
    rewrite (axis_arange x xoffset factor Hf Hw). cbn [bind].
    rewrite (axis_arange y yoffset factor Hf Hh). reflexivity. }
  assert (Hcx : forall i, fx i == centre x xoffset i)
    by (intros i; unfold fx, centre; field; lra).
  assert (Hcy : forall j, fy j == centre y yoffset j)
    by (intros j; unfold fy, centre; field; lra).
  assert (Hmem : forall p,
             In p (flat_map (fun x_ => map (fun y_ => (x_, y_)) (map fy (seq 0 n)))
                            (map fx (seq 0 n))) <->
             exists i j : nat, (Z.of_nat i < factor)%Z /\ (Z.of_nat j < factor)%Z /\
                               p = (fx i, fy j)).
  { intros p. rewrite in_flat_map. split.
    - intros [x_ [Hx Hp]]. apply in_map_iff in Hx. destruct Hx as [i [<- Hi]].
      apply in_map_iff in Hp. destruct Hp as [y_ [<- Hy]].
      apply in_map_iff in Hy. destruct Hy as [j [<- Hj]].
      apply in_seq in Hi, Hj. exists i, j. repeat split; unfold n in *; lia.
    - intros [i [j [Hi [Hj ->]]]]. exists (fx i). split.
      + apply in_map. apply in_seq. unfold n. lia.
      + apply in_map_iff. exists (fy j). split; [reflexivity |].
        apply in_map. apply in_seq. unfold n. lia. }
  assert (Hbound : forall (c w : Q) (i : nat),
             0 < w -> (Z.of_nat i < factor)%Z ->
             c - w / 2 < centre c w i /\ centre c w i < c + w / 2).
  { intros c w i Hw0 Hi. unfold centre.
    set (s := w / inject_Z factor).
    assert (Hs : 0 < s) by (apply Qlt_shift_div_l; lra).
    assert (Ew : w == inject_Z factor * s) by (unfold s; field; lra).
    assert (Hi0 : 0 <= inject_Z (Z.of_nat i)).
    { unfold Qle, inject_Z. simpl. lia. }
    assert (Hi1 : inject_Z (Z.of_nat i) + 1 <= inject_Z factor).
    { unfold Qle, Qplus, inject_Z. simpl. lia. }
    assert (P1 : 0 < (inject_Z (Z.of_nat i) + (1 # 2)) * s)
      by (apply Qmult_lt_0_compat; lra).
    assert (P2 : 0 < (inject_Z factor - inject_Z (Z.of_nat i) - (1 # 2)) * s)
      by (apply Qmult_lt_0_compat; lra).
    assert (E1 : (inject_Z (Z.of_nat i) + (1 # 2)) * s
                 == inject_Z (Z.of_nat i) * s + s / 2) by field.
    assert (E2 : (inject_Z factor - inject_Z (Z.of_nat i) - (1 # 2)) * s
                 == w - inject_Z (Z.of_nat i) * s - s / 2)
      by (rewrite Ew; field).
    rewrite E1. rewrite E1 in P1. rewrite E2 in P2.
    generalize dependent (inject_Z (Z.of_nat i) * s). intros t P1 P2 _ _.
    clearbody s. clear - P1 P2.
    assert (Ew2 : w / 2 == w * (1 # 2)) by field.
    assert (Es2 : s / 2 == s * (1 # 2)) by field.
    rewrite Es2 in P1, P2. rewrite Ew2, Es2. split; lra. }
  eexists. split; [exact Hrun |]. split; [| split; [| split]].
  - rewrite (flat_map_length_const _ _ n).
    + rewrite length_map, length_seq. unfold n. rewrite Z2Nat.inj_mul; lia.
    + intros a _. now rewrite !length_map, length_seq.
  - intros p Hp. apply Hmem in Hp. destruct Hp as [i [j [Hi [Hj ->]]]].
    exists i, j. cbn [fst snd]. auto.
  - intros i j Hi Hj. exists (fx i, fy j). split.
    + apply Hmem. now exists i, j.
    + cbn [fst snd]. auto.
  - intros p Hp. apply Hmem in Hp. destruct Hp as [i [j [Hi [Hj ->]]]].
    cbn [fst snd]. rewrite Hcx, Hcy.
    destruct (Hbound x xoffset i Hw Hi), (Hbound y yoffset j Hh Hj). auto.
Qed.

Lemma expand_grid_point_centres_witness :
  exists pts,
    expand_grid_point (1000, 2000) 2 200 100 = Ret pts /\
    List.length pts = 4%nat.
Proof.
  destruct (expand_grid_point_centres 1000 2000 2 200 100)
    as [pts [H1 [H2 _]]]; try reflexivity.
  exists pts. split; [exact H1 | exact H2].
Defined.

End ExpandFacts.

(** * Validation of the population downscaling *)

Section ValidationFacts.

Import Geometry.
Import UrbanFeatures.
Import Validation.
Local Open Scope Q_scope.

Context {geom : Type} {shapely : Shapely geom}.

Lemma Qsum_filter_indicator {A : Type} (P : A -> bool) (f : A -> Q) (l : list A) :
  Qsum (map f (filter P l)) == Qsum (map (fun x => if P x then f x else 0) l).
Proof.
  induction l as [| x l IH]; simpl; [reflexivity |].
  destruct (P x); simpl; rewrite !Qsum_cons, IH; ring.
Qed.

Lemma Qsum_swap {A B : Type} (h : A -> B -> Q) (cs : list A) (bs : list B) :
  Qsum (map (fun c => Qsum (map (h c) bs)) cs)
  == Qsum (map (fun b => Qsum (map (fun c => h c b) cs)) bs).
Proof.
  induction cs as [| c cs IH]; simpl.
  - symmetry. rewrite (Qsum_map_ext _ (fun _ => 0 * 0)).
    + rewrite Qsum_map_scale. unfold Qsum at 2. simpl. ring.
    + intros b _. unfold Qsum. simpl. ring.
  - rewrite Qsum_cons, IH, <- Qsum_map_add.
    apply Qsum_map_ext. intros b _. rewrite Qsum_cons. reflexivity.
Qed.

Lemma select_has_residential (df_osm_built : list (@PopBuilding geom)) :
  (forall b, In b df_osm_built ->
     exists res, dict_get (pb_landuses_m2 b) "residential" = Ret res) ->
  select has_residential df_osm_built = Ret (residential_of df_osm_built).
Proof.
  induction df_osm_built as [| b df IH]; intros H; simpl; [reflexivity |].
  destruct (H b (or_introl eq_refl)) as [res Hres].
  unfold has_residential at 1 3. rewrite Hres. cbn [bind].
  rewrite IH by (intros; apply H; now right). reflexivity.
Qed.

(** X14.  When every building has a residential entry, and every building
    with residential floor area has a positive area that the cells it
    intersects cover: if there is such a building, the estimated populations
    of the cells add up to the population of those buildings (the downscaled
    population is neither lost nor counted twice, and buildings without
    residential floor area contribute nothing); if there is none, the join
    is empty and the computation raises [ValueError]. *)
Theorem pop_estimation_conserved (df_osm_built : list (@PopBuilding geom))
    (df_insee : list GridCell) :
  (forall b, In b df_osm_built ->
     exists res, dict_get (pb_landuses_m2 b) "residential" = Ret res) ->
  (forall b, In b (residential_of df_osm_built) ->
     0 < area (pb_geometry b) /\
     Qsum (map (fun c => area (intersection (pb_geometry b) (geometry c)))
               (filter (fun c => intersects (geometry c) (pb_geometry b)) df_insee))
     == area (pb_geometry b)) ->
  (residential_of df_osm_built <> [] ->
   exists est,
     pop_estimation df_osm_built df_insee = Ret est /\
     List.length est = List.length df_insee /\
     Qsum est == Qsum (map population (residential_of df_osm_built))) /\
  (residential_of df_osm_built = [] ->
   pop_estimation df_osm_built df_insee = Raise ValueError).
Proof.
  intros Hkeys Hcover.
  set (R := residential_of df_osm_built) in *.
  split.
  2:{ intros HR. unfold pop_estimation.
      rewrite (select_has_residential _ Hkeys). cbn [bind]. fold R. rewrite HR.
      assert (H : forallb (fun cell : GridCell => is_empty (sjoin_rows [] cell))
                          df_insee = true).
      { apply forallb_forall. reflexivity. }
      now rewrite H. }
  intros HR.
  set (w := fun (c : GridCell) (b : PopBuilding) =>
              population b * (area (intersection (pb_geometry b) (geometry c))
                              / area (pb_geometry b))).
  set (g := fun c : GridCell =>
              Qsum (map (w c) (filter (fun b => intersects (geometry c) (pb_geometry b)) R))).
  assert (Hjoin : forallb (fun cell => is_empty (sjoin_rows R cell)) df_insee = false).
  { destruct R as [| b R'] eqn:ER; [congruence |].
    destruct (Hcover b (or_introl eq_refl)) as [Hpos Hsum].
    destruct (filter (fun c => intersects (geometry c) (pb_geometry b)) df_insee)
      as [| c cs] eqn:Ef.
    { unfold Qsum in Hsum. simpl in Hsum. rewrite <- Hsum in Hpos.
      exfalso. revert Hpos. apply Qlt_irrefl. }
    assert (Hc : In c (filter (fun c => intersects (geometry c) (pb_geometry b))
                              df_insee)) by (rewrite Ef; now left).
    apply filter_In in Hc. destruct Hc as [Hc Hi].
    destruct (forallb _ df_insee) eqn:E; [| reflexivity].
    rewrite forallb_forall in E. specialize (E c Hc).
    unfold sjoin_rows in E. cbn [filter] in E. rewrite Hi in E. discriminate. }
  assert (Hrun : pop_estimation df_osm_built df_insee = Ret (map g df_insee)).
  { unfold pop_estimation. rewrite (select_has_residential _ Hkeys). cbn [bind].
    fold R. rewrite Hjoin. apply mapM_map. intros c _.
    unfold sjoin_rows.
    rewrite (mapM_map (row_estimation c) (w c)); [reflexivity |].
    intros b Hb. apply filter_In in Hb. destruct Hb as [Hb _].
    destruct (Hcover b Hb) as [Hpos _].
    unfold row_estimation. rewrite py_div_Ret; [reflexivity |].
    intros E. rewrite E in Hpos. lra. }
  exists (map g df_insee). split; [exact Hrun |]. split; [apply length_map |].
  set (h := fun (c : GridCell) (b : PopBuilding) =>
              if intersects (geometry c) (pb_geometry b) then w c b else 0).
  rewrite (Qsum_map_ext g (fun c => Qsum (map (h c) R))).
  2:{ intros c _. unfold g. apply Qsum_filter_indicator. }
  rewrite Qsum_swap. apply Qsum_map_ext. intros b Hb.
  destruct (Hcover b Hb) as [Hpos Hsum].
  unfold h.
  rewrite <- (Qsum_filter_indicator
                (fun c => intersects (geometry c) (pb_geometry b))
                (fun c => w c b)).
  unfold w.
  rewrite (Qsum_map_ext _
             (fun c => area (intersection (pb_geometry b) (geometry c))
                       * (population b / area (pb_geometry b)))).
  - rewrite Qsum_map_scale, Hsum. field. lra.
  - intros c _. field. lra.
Qed.

End ValidationFacts.

Section BlockExamples.

Import PopulationUtils.
Import AggregatedSquares.
Local Open Scope Z_scope.

Lemma conservative_indices_25_when_unique_witness :
  exists l,
    indices (index_square_conservative (4252500, 2029900) grid_centre_only 400)
    = Some l /\
    List.length l = 25%nat /\
    l = map (fun yx =>
               match filter (fun r => str_contains
                                        (coords_match (4252500, 2029900) (fst yx) (snd yx))
                                        (idINSPIRE r)) grid_centre_only with
               | r :: _ => Some (index r)
               | [] => None
               end)
            (list_prod offsets offsets).
Proof.
  apply conservative_indices_25_when_unique.
  intros y_diff x_diff Hy Hx.
  destruct Hy as [<- | [<- | [<- | [<- | [<- | []]]]]];
    destruct Hx as [<- | [<- | [<- | [<- | [<- | []]]]]];
    vm_compute; lia.
Defined.

End BlockExamples.

Section ValidationExamples.

Import Geometry.
Import UrbanFeatures.
Import Validation.
Local Open Scope Q_scope.

Lemma pop_estimation_conserved_witness :
  exists est,
    pop_estimation
      [ {| pb_geometry := square_ring 150 50 100;
           pb_landuses_m2 := [("residential"%string, 20000); ("activity"%string, 0)];
           population := 8 |};
        {| pb_geometry := square_ring 420 20 50;
           pb_landuses_m2 := [("residential"%string, 0); ("activity"%string, 2500)];
           population := 0 |} ]
      [sample_cell 0 0; sample_cell 200 0; sample_cell 400 0] = Ret est /\
    List.length est = 3%nat /\
    Qsum est == 8.
Proof.
  destruct (pop_estimation_conserved (shapely := ring_kernel)
      [ {| pb_geometry := square_ring 150 50 100;
           pb_landuses_m2 := [("residential"%string, 20000); ("activity"%string, 0)];
           population := 8 |};
        {| pb_geometry := square_ring 420 20 50;
           pb_landuses_m2 := [("residential"%string, 0); ("activity"%string, 2500)];
           population := 0 |} ]
      [sample_cell 0 0; sample_cell 200 0; sample_cell 400 0])
    as [Hsome _].
  - intros b [<- | [<- | []]]; eexists; reflexivity.
  - intros b [<- | []]. split; vm_compute; reflexivity.
  - destruct Hsome as [est [H1 [H2 H3]]]; [discriminate |].
    exists est. split; [exact H1 |]. split; [exact H2 |].
    rewrite H3. vm_compute. reflexivity.
Defined.

End ValidationExamples.

(** * Further properties of the density surfaces *)

Section KdeInvariance.

Import Landusemix.
Local Open Scope R_scope.

Lemma gaussian_sum_permutation (h : R) (X X' : list point) (y : point) :
  Permutation X X' -> gaussian_sum h X y = gaussian_sum h X' y.
Proof.
  induction 1 as [| x l l' _ IH | a b l | l l' l'' _ IH1 _ IH2]; simpl.
  - reflexivity.
  - now rewrite IH.
  - ring.
  - now rewrite IH1.
Qed.

Lemma gaussian_density_permutation (h : R) (X X' : list point) (y : point) :
  Permutation X X' -> gaussian_density h X y = gaussian_density h X' y.
Proof.
  intros HP. unfold gaussian_density.
  now rewrite (gaussian_sum_permutation h X X' y HP), (Permutation_length HP).
Qed.

(** X16.  The unweighted density surface does not depend on the order of
    the buildings nor on the order of the points of interest: outcome and
    values are the same for every rearrangement of the two frames. *)
Theorem calculate_kde_order_independent
    (W : list point -> list npfloat -> R -> list point -> result (list npfloat))
    (points built built' : list point) (pois pois' : option (list point))
    (bandwidth pois_weight : R) (log_weight : bool) :
  Permutation built built' ->
  Permutation (X_p_of pois) (X_p_of pois') ->
  calculate_kde W points built pois bandwidth None pois_weight log_weight
  = calculate_kde W points built' pois' bandwidth None pois_weight log_weight.
Proof.
  intros Hb Hp.
  assert (HX : Permutation (built ++ X_p_of pois) (built' ++ X_p_of pois'))
    by now apply Permutation_app.
  unfold calculate_kde, KernelDensity_fit.
  destruct (Rlt_dec 0 bandwidth); [| reflexivity].
  destruct (built ++ X_p_of pois) as [| x X] eqn:E.
  - apply Permutation_nil in HX. now rewrite HX.
  - destruct (built' ++ X_p_of pois') as [| x' X'] eqn:E'.
    + apply Permutation_sym, Permutation_nil in HX. discriminate.
    + cbn [bind]. unfold score_samples.
      destruct points as [| y Y]; [reflexivity |].
      cbn [bind kd_bandwidth kd_sample]. do 2 f_equal.
      apply map_ext. intros y0. f_equal.
      now apply gaussian_density_permutation.
Qed.

Lemma calculate_kde_order_independent_witness :
  calculate_kde (fun _ _ _ _ => Ret []) [(0, 0); (200, 0)]
    [(50, 50); (10, 70)] (Some [(120, 30)]) 600 None 9 true
  = calculate_kde (fun _ _ _ _ => Ret []) [(0, 0); (200, 0)]
      [(10, 70); (50, 50)] (Some [(120, 30)]) 600 None 9 true.
Proof.
  apply calculate_kde_order_independent.
  - apply perm_swap.
  - apply Permutation_refl.
Defined.

(** X17.  On the weighted branch, a raw density that is 0 at every centroid
    is not turned into zeros: its maximum is 0 and the surface is NaN at
    every centroid. *)
Theorem calculate_kde_zero_density
    (W : list point -> list npfloat -> R -> list point -> result (list npfloat))
    (points built : list point) (pois : option (list point))
    (bandwidth : R) (w : list R) (pois_weight : R) (log_weight : bool) (n : nat) :
  W (built ++ X_p_of pois)
    (weight_array w (List.length (X_p_of pois)) pois_weight log_weight)
    bandwidth points = Ret (repeat (Fin 0) (S n)) ->
  calculate_kde W points built pois bandwidth (Some w) pois_weight log_weight
  = Ret (repeat NaN (S n)).
Proof.
  intros HW. unfold calculate_kde. rewrite HW. cbn [bind].
  apply normalise_by_max_all_zero.
Qed.

Lemma calculate_kde_zero_density_witness :
  calculate_kde (fun _ _ _ Y => Ret (map (fun _ => Fin 0) Y))
    [(0, 0); (200, 0)] [(50, 50)] None 600 (Some [1]) 9 true
  = Ret [NaN; NaN].
Proof.
  apply (calculate_kde_zero_density _ _ _ _ _ _ _ _ 1). reflexivity.
Defined.

End KdeInvariance.

(** * The indices on a grid *)

Section GridFacts.

Import Landusemix.
Import LandusemixGrid.
Local Open Scope string_scope.
Local Open Scope list_scope.
Local Open Scope R_scope.

Variable W : list point -> list npfloat -> R -> list point -> result (list npfloat).








(** Without weights, a surface that is not returned is refused with
    [ValueError]. *)
Lemma calculate_kde_unweighted_outcome
    (points built : list point) (pois : option (list point))
    (bandwidth pw : R) (lw : bool) (e : exn) :
  calculate_kde W points built pois bandwidth None pw lw = Raise e ->
  e = ValueError.
Proof.
  unfold calculate_kde, KernelDensity_fit.
  destruct (Rlt_dec 0 bandwidth); [| intros H; now injection H].
  destruct (built ++ X_p_of pois); [intros H; now injection H |].
  cbn [bind]. unfold score_samples.
  destruct points; [intros H; now injection H |].
  cbn [bind map]. unfold normalise_by_max, np_max. cbn [bind]. discriminate.
Qed.







Lemma weights_of_unweighted (kw : kw_args) (key : string) (df : list OsmBuilding) :
  weighted_kde kw = false -> weights_of kw key df = Ret None.
Proof. intros H. unfold weights_of. now rewrite H. Qed.

Lemma existsb_filter {A : Type} (f : A -> bool) (l : list A) :
  existsb f l = true <-> filter f l <> [].
Proof.
  induction l as [| a l IH]; cbn [existsb filter].
  - split; [discriminate | congruence].
  - destruct (f a); cbn [orb]; [split; [discriminate | reflexivity] | exact IH].
Qed.

Lemma has_source_sample (cat : string) (df_osm_built : list OsmBuilding)
    (df_osm_pois : list OsmPoi) :
  has_source cat df_osm_built df_osm_pois = true <->
  filter (fun b => in_category cat (b_activity_category b))
    (indexed_built [UrbanFeatures.activity; UrbanFeatures.mixed] df_osm_built) <> []
  \/ filter (fun p => in_category cat (p_activity_category p))
       (indexed_pois [UrbanFeatures.activity; UrbanFeatures.mixed]
          (not_contained df_osm_built df_osm_pois)) <> [].
Proof.
  unfold has_source. rewrite orb_true_iff, !existsb_filter. reflexivity.
Qed.


Lemma calculate_kde_no_sample (points : list point) (bandwidth pw : R) (lw : bool)
    (pois : option (list point)) :
  X_p_of pois = [] ->
  calculate_kde W points [] pois bandwidth None pw lw = Raise ValueError.
Proof.
  intros E. unfold calculate_kde, KernelDensity_fit. rewrite E. cbn [app].
  destruct (Rlt_dec 0 bandwidth); reflexivity.
Qed.

Lemma category_columns_raises (kw : kw_args) (points : list point)
    (built : list OsmBuilding) (pois : list OsmPoi) (cats : list string) (df : frame) :
  weighted_kde kw = false ->
  (exists cat, In cat cats /\
     filter (fun b => in_category cat (b_activity_category b)) built = [] /\
     filter (fun p => in_category cat (p_activity_category p)) pois = []) ->
  category_columns W kw points built pois cats df = Raise ValueError.
Proof.
  intros Hw. revert df.
  induction cats as [| cat cats IH]; intros df [bad [Hin [Hb Hp]]];
    [contradiction |].
  cbn [category_columns]. rewrite weights_of_unweighted by assumption.
  cbn [bind].
  destruct (calculate_kde W points _ _ (walkable_distance kw) None
              (pois_weight kw) (log_weighted kw)) as [pdf | e] eqn:E.
  - cbn [bind]. destruct Hin as [-> | Hin].
    + rewrite Hb, Hp in E. cbn [map] in E.
      rewrite calculate_kde_no_sample in E by reflexivity. discriminate.
    + apply IH. eauto.
  - cbn [bind]. apply calculate_kde_unweighted_outcome in E. now subst e.
Qed.


(** X19.  Without weights and with the densities by activity type
    requested, a category that a building lists while no building or
    uncontained point of interest of the activity selection lists it (the
    building is residential or unclassified) has an empty sample: the
    computation raises [ValueError] and no index is produced. *)
Theorem compute_grid_landusemix_unsourced_category (df_indices : list point)
    (df_osm_built : list OsmBuilding) (df_osm_pois : list OsmPoi) (kw : kw_args)
    (b : OsmBuilding) (cat : string) :
  weighted_kde kw = false -> compute_activity_types_kde kw = true ->
  In b df_osm_built -> in_category cat (b_activity_category b) = true ->
  has_source cat df_osm_built df_osm_pois = false ->
  compute_grid_landusemix W df_indices df_osm_built df_osm_pois kw
  = Raise ValueError.
Proof.
  intros Hw Hc Hb Hcat Hsrc.
  unfold compute_grid_landusemix.
  rewrite !weights_of_unweighted by assumption. cbn [bind].
  destruct (calculate_kde W df_indices _ None (walkable_distance kw) None
              (pois_weight kw) (log_weighted kw)) as [res | e] eqn:E1;
    [| apply calculate_kde_unweighted_outcome in E1; now subst e].
  cbn [bind].
  destruct (calculate_kde W df_indices _ (Some _) (walkable_distance kw) None
              (pois_weight kw) (log_weighted kw)) as [act | e] eqn:E2;
    [| apply calculate_kde_unweighted_outcome in E2; now subst e].
  cbn [bind]. rewrite Hc.
  rewrite category_columns_raises; [reflexivity | assumption |].
  exists cat. split.
  - unfold categories. apply nodup_In, in_or_app. left.
    apply in_flat_map. exists b. split; [assumption |].
    unfold in_category in Hcat. destruct (b_activity_category b) as [l |];
      [| discriminate].
    cbn [category_list]. apply existsb_exists in Hcat.
    destruct Hcat as [c [Hin Heq]]. apply String.eqb_eq in Heq. now subst c.
  - assert (Hn : ~ (filter (fun b0 => in_category cat (b_activity_category b0))
                      (indexed_built [UrbanFeatures.activity; UrbanFeatures.mixed]
                         df_osm_built) <> []
                    \/ filter (fun p => in_category cat (p_activity_category p))
                         (indexed_pois [UrbanFeatures.activity; UrbanFeatures.mixed]
                            (not_contained df_osm_built df_osm_pois)) <> [])).
    { rewrite <- has_source_sample. rewrite Hsrc. discriminate. }
    split.
    + destruct (filter _ (indexed_built _ _)); [reflexivity |].
      exfalso. apply Hn. left. discriminate.
    + destruct (filter _ (indexed_pois _ _)); [reflexivity |].
      exfalso. apply Hn. right. discriminate.
Qed.

End GridFacts.

Section GridExamples.

Import Landusemix.
Import LandusemixGrid.
Local Open Scope string_scope.
Local Open Scope list_scope.
Local Open Scope R_scope.



Lemma compute_grid_landusemix_unsourced_category_witness :
  compute_grid_landusemix (fun _ _ _ _ => Ret []) sample_grid
    [sample_flat; sample_surgery; sample_shop] [sample_cafe; sample_kiosk] sample_kw
  = Raise ValueError.
Proof.
  apply (compute_grid_landusemix_unsourced_category (fun _ _ _ _ => Ret [])
           sample_grid [sample_flat; sample_surgery; sample_shop]
           [sample_cafe; sample_kiosk] sample_kw sample_surgery "health").
  - reflexivity.
  - reflexivity.
  - simpl. auto.
  - reflexivity.
  - reflexivity.
Defined.

End GridExamples.
